(** * Stochastic maximum flow with loss-distribution constraints

    A shallow embedding of the notebook [maxflow/maxflow.ipynb]: the network
    data, the scenario table [xi], the assembly of the Pyomo model (core flow
    model, Type-I, Type-II and CVaR cells) and the two solves.

    Python values are modelled as follows.
    - ints (nodes, capacities, the entries of [xi]) are [Z]; scenario indices
      and list positions, which only ever come out of [range], are [nat];
    - the numeric parameters and the values of decision variables are
      rationals [Q]: the constants of the notebook (0.50, 0.75, 7.5, ...) are
      read as the decimal fractions they denote;
    - the dict [edges] is an association list in insertion order, because the
      order of iteration decides which draw of the generator an edge gets; the
      dict [xi], which is only ever read by key, is a [gmap];
    - Python exceptions are the constructors of [exn], and every piece of code
      that can raise returns a [result]. *)

From Stdlib Require Import ZArith QArith Lia Lqa List.
From stdpp Require Import base option list gmap.

Local Open Scope Z_scope.

(** ** Exceptions *)

Inductive exn : Set :=
  | KeyError            (* a dict or an indexed component has no such key *)
  | IndexError          (* list index out of range *)
  | ValueError          (* empty range for randrange(), constraint without variables *)
  | ZeroDivisionError
  | LoopBound.          (* not a Python exception: a [while] loop of the model
                           reached its bound on the number of iterations *)

Inductive result (A : Type) : Type :=
  | Ok (a : A)
  | Raise (e : exn).
Arguments Ok {A} a.
Arguments Raise {A} e.

#[export] Instance result_ret : MRet result := @Ok.
#[export] Instance result_bind : MBind result := λ A B f r,
  match r with
  | Ok a => f a
  | Raise e => Raise e
  end.

Definition is_Ok {A} (r : result A) : bool :=
  match r with Ok _ => true | Raise _ => false end.

(** ** Python containers *)

(** [d[k]] on a dict kept in insertion order. *)
Fixpoint dict_get {K V} `{EqDecision K} (d : list (K * V)) (k : K) : result V :=
  match d with
  | [] => Raise KeyError
  | (k', v) :: d' => if decide (k = k') then Ok v else dict_get d' k
  end.

(** Iterating over a dict yields its keys. *)
Definition dict_keys {K V} (d : list (K * V)) : list K := fst <$> d.

(** [l[i]] for an index produced by [range]. *)
Definition list_get {A} (l : list A) (i : nat) : result A :=
  match l !! i with
  | Some a => Ok a
  | None => Raise IndexError
  end.

(** [range(n)] *)
Definition range (n : nat) : list nat := seq 0 n.

(** ** The random number generator

    The notebook calls [random.seed(seed)] and then [random.randint(0, c)].
    The generator is an interface: a state [G] and the operation [randint],
    which returns the draw and the next state, and raises [ValueError] on an
    empty range as [random.randrange] does. *)

Class RandomGen (G : Type) := randint : Z → Z → G → result (Z * G).

(** What [random.randint(a, b)] promises: [a <= N <= b]. *)
Class RandomGenSound (G : Type) `{RandomGen G} : Prop := {
  randint_empty : ∀ a b g, b < a → randint a b g = Raise ValueError;
  randint_range : ∀ a b g v g', randint a b g = Ok (v, g') → a ≤ v ≤ b
}.

(** A generator that always delivers on a non-empty range. *)
Class RandomGenTotal (G : Type) `{RandomGen G} : Prop :=
  randint_total : ∀ a b g, a ≤ b → ∃ v g', randint a b g = Ok (v, g').

(** ** The data of the notebook *)

Abbreviation node := Z.
Abbreviation edge := (Z * Z)%type.

Record config := {
  nodes : list node;
  edges : list (edge * Z);
  source : node;
  sink : node;
  num_scenarios : nat;
  perf_thresholds : list Q;
  alpha_thresholds : list Q;
  perf_target : Q;
  beta_threshold : Q;
  cvar_thresholds : list Q;
  cvar_epsilons : list Q
}.

(** The values the cells assign. *)
Definition notebook : config := {|
  nodes := [0; 1; 2; 3; 4; 5];
  edges := [ ((0, 1), 16); ((0, 2), 13); ((1, 3), 12); ((1, 2), 10);
             ((2, 1), 4); ((2, 4), 14); ((3, 2), 9); ((4, 3), 7);
             ((4, 5), 4); ((3, 5), 20); ((5, 0), 99) ];
  source := 0;
  sink := 5;
  num_scenarios := 100;
  perf_thresholds := [20; 18; 15]%Q;
  alpha_thresholds := [1 # 2; 3 # 4; 1]%Q;
  perf_target := 23%Q;
  beta_threshold := (3 # 4)%Q;
  cvar_thresholds := [4; 15 # 2]%Q;
  cvar_epsilons := [1 # 2; 1 # 10]%Q
|}.

(** ** The scenario table [xi] *)

Abbreviation xi_table := (gmap (Z * Z * nat) Z).

Section Xi.
Context {G : Type} `{RandomGen G}.
Variable c : config.

(** The value expression of the comprehension:
    [edges[source, sink] if (n, m) == (source, sink)
     else random.randint(0, edges[n, m])]. *)
Definition xi_value (e : edge) (g : G) : result (Z * G) :=
  if decide (e = (source c, sink c)) then
    v ← dict_get (edges c) (source c, sink c); mret (v, g)
  else
    cap ← dict_get (edges c) e; randint 0 cap g.

(** [xi_drawn e v]: some iteration at edge [e] can produce the value [v]. *)
Definition xi_drawn (e : edge) (v : Z) : Prop :=
  ∃ g g', xi_value e g = Ok (v, g').

(** One iteration of the comprehension stores [xi[n, m, scenario]]. *)
Definition xi_step (st : xi_table * G) (k : edge * nat) : result (xi_table * G) :=
  '(v, g') ← xi_value k.1 st.2;
  mret (<[(k.1, k.2) := v]> st.1, g').

Fixpoint xi_loop (ks : list (edge * nat)) (st : xi_table * G) : result (xi_table * G) :=
  match ks with
  | [] => mret st
  | k :: ks' => st' ← xi_step st k; xi_loop ks' st'
  end.

(** [for (n, m) in edges for scenario in range(num_scenarios)] *)
Definition xi_keys : list (edge * nat) :=
  list_prod (dict_keys (edges c)) (range (num_scenarios c)).

Definition gen_xi (g : G) : result (xi_table * G) := xi_loop xi_keys (∅, g).
End Xi.

(** ** Pyomo expressions

    The decision variables of the model, by component and index. *)

Inductive var : Set :=
  | Vx (e : edge)                   (* model.x[n, m] *)
  | Vy (e : edge) (ω : nat)         (* model.y[n, m, scenario] *)
  | Vindicator (ω i : nat)          (* model.indicator[scenario, type1_con] *)
  | Vcvar_beta (i : nat)            (* model.cvar_beta[cvar_con] *)
  | Vcvar_nu (ω i : nat).           (* model.cvar_nu[scenario, cvar_con] *)

#[export] Instance var_eq_dec : EqDecision var.
Proof. solve_decision. Defined.

Inductive domain : Set := NonNegativeReals | Binary | Reals.

(** Linear expressions as the rules build them.  [Num] is a plain Python
    number; every other constructor is a Pyomo expression object. *)
Inductive expr : Type :=
  | Num (q : Q)
  | EVar (v : var)
  | Add (a b : expr)
  | Sub (a b : expr)
  | Div (a : expr) (q : Q).

(** [a + b], [a - b]: on two numbers Python computes the number. *)
Definition py_add (a b : expr) : expr :=
  match a, b with
  | Num p, Num q => Num (p + q)
  | _, _ => Add a b
  end.

Definition py_sub (a b : expr) : expr :=
  match a, b with
  | Num p, Num q => Num (p - q)
  | _, _ => Sub a b
  end.

Definition Qis_zero (q : Q) : bool := Qeq_bool q 0.

(** [a / q] for a number [q]: both Python and Pyomo raise on a zero divisor. *)
Definition py_div (a : expr) (q : Q) : result expr :=
  if Qis_zero q then Raise ZeroDivisionError
  else match a with
       | Num p => Ok (Num (p / q))
       | _ => Ok (Div a q)
       end.

Definition is_Num (e : expr) : bool :=
  match e with Num _ => true | _ => false end.

(** The builtin [sum]: starts from the int [0] and adds from the left. *)
Definition py_sum (l : list expr) : expr := foldl py_add (Num 0) l.

Inductive relation : Set := Rle | Rge | Req.

Record constraint := Constr { c_lhs : expr; c_rel : relation; c_rhs : expr }.

(** What a comparison returns: a relational expression, or a Python [bool]
    when both sides are numbers. *)
Inductive rule_value : Type :=
  | Trivial (b : bool)
  | Relational (c : constraint).

Definition Qrel_bool (r : relation) (p q : Q) : bool :=
  match r with
  | Rle => Qle_bool p q
  | Rge => Qle_bool q p
  | Req => Qeq_bool p q
  end.

Definition py_rel (r : relation) (a b : expr) : rule_value :=
  match a, b with
  | Num p, Num q => Trivial (Qrel_bool r p q)
  | _, _ => Relational (Constr a r b)
  end.

(** *** Meaning of expressions and constraints at a point *)

Definition assignment := var → Q.

Fixpoint eval (σ : assignment) (e : expr) : Q :=
  match e with
  | Num q => q
  | EVar v => σ v
  | Add a b => eval σ a + eval σ b
  | Sub a b => eval σ a - eval σ b
  | Div a q => eval σ a / q
  end.

Definition Qrel (r : relation) (p q : Q) : Prop :=
  match r with
  | Rle => (p <= q)%Q
  | Rge => (q <= p)%Q
  | Req => (p == q)%Q
  end.

Definition sat (σ : assignment) (c : constraint) : Prop :=
  Qrel (c_rel c) (eval σ (c_lhs c)) (eval σ (c_rhs c)).

Definition in_domain (d : domain) (q : Q) : Prop :=
  match d with
  | NonNegativeReals => (0 <= q)%Q
  | Binary => (q == 0)%Q ∨ (q == 1)%Q
  | Reals => True
  end.

(** ** The Pyomo model object *)

(** A constraint is stored under its component and its index. *)
Inductive con_key : Set :=
  | ConFlowBalance (n : node) (ω : nat)
  | ConMaxFlowCapacity (e : edge) (ω : nat)
  | ConEffFlowCapacity (e : edge) (ω : nat)
  | ConIndicator (ω i : nat)
  | ConType1ServiceLevel (i : nat)
  | ConType2ServiceLevel
  | ConCvarMain (i : nat)
  | ConCvarAux (ω i : nat).

Inductive obj_name : Set := ObjMinBudget | ObjMaxFlow.
Inductive sense : Set := minimize | maximize.

#[export] Instance obj_name_eq_dec : EqDecision obj_name.
Proof. solve_decision. Defined.

Record objective := {
  o_name : obj_name;
  o_sense : sense;
  o_expr : expr;
  o_active : bool
}.

Record model := {
  m_nodes : list node;                 (* model.nodes *)
  m_edges : list edge;                 (* model.edges *)
  m_scenarios : list nat;              (* model.scenarios *)
  m_s : node;                          (* model.s *)
  m_t : node;                          (* model.t *)
  m_flow_capacity : list (edge * Z);   (* model.flow_capacity *)
  m_xi : xi_table;                     (* model.xi *)
  m_type1_con_set : list nat;          (* model.type1_con_set *)
  m_cvar_con_set : list nat;           (* model.cvar_con_set *)
  m_vars : list (var * domain);        (* the entries of all Var components *)
  m_fixed : list (var * Q);            (* variables fixed by [fix], with the value *)
  m_constraints : list (con_key * constraint);
  m_objectives : list objective
}.

Definition add_vars (vs : list (var * domain)) (m : model) : model :=
  {| m_nodes := m_nodes m; m_edges := m_edges m; m_scenarios := m_scenarios m;
     m_s := m_s m; m_t := m_t m; m_flow_capacity := m_flow_capacity m;
     m_xi := m_xi m; m_type1_con_set := m_type1_con_set m;
     m_cvar_con_set := m_cvar_con_set m;
     m_vars := m_vars m ++ vs; m_fixed := m_fixed m;
     m_constraints := m_constraints m; m_objectives := m_objectives m |}.

Definition add_constraints (cs : list (con_key * constraint)) (m : model) : model :=
  {| m_nodes := m_nodes m; m_edges := m_edges m; m_scenarios := m_scenarios m;
     m_s := m_s m; m_t := m_t m; m_flow_capacity := m_flow_capacity m;
     m_xi := m_xi m; m_type1_con_set := m_type1_con_set m;
     m_cvar_con_set := m_cvar_con_set m;
     m_vars := m_vars m; m_fixed := m_fixed m;
     m_constraints := m_constraints m ++ cs; m_objectives := m_objectives m |}.

Definition set_objectives (os : list objective) (m : model) : model :=
  {| m_nodes := m_nodes m; m_edges := m_edges m; m_scenarios := m_scenarios m;
     m_s := m_s m; m_t := m_t m; m_flow_capacity := m_flow_capacity m;
     m_xi := m_xi m; m_type1_con_set := m_type1_con_set m;
     m_cvar_con_set := m_cvar_con_set m;
     m_vars := m_vars m; m_fixed := m_fixed m;
     m_constraints := m_constraints m; m_objectives := os |}.

Definition set_fixed (fs : list (var * Q)) (m : model) : model :=
  {| m_nodes := m_nodes m; m_edges := m_edges m; m_scenarios := m_scenarios m;
     m_s := m_s m; m_t := m_t m; m_flow_capacity := m_flow_capacity m;
     m_xi := m_xi m; m_type1_con_set := m_type1_con_set m;
     m_cvar_con_set := m_cvar_con_set m;
     m_vars := m_vars m; m_fixed := fs;
     m_constraints := m_constraints m; m_objectives := m_objectives m |}.

Definition set_type1_con_set (s : list nat) (m : model) : model :=
  {| m_nodes := m_nodes m; m_edges := m_edges m; m_scenarios := m_scenarios m;
     m_s := m_s m; m_t := m_t m; m_flow_capacity := m_flow_capacity m;
     m_xi := m_xi m; m_type1_con_set := s;
     m_cvar_con_set := m_cvar_con_set m;
     m_vars := m_vars m; m_fixed := m_fixed m;
     m_constraints := m_constraints m; m_objectives := m_objectives m |}.

Definition set_cvar_con_set (s : list nat) (m : model) : model :=
  {| m_nodes := m_nodes m; m_edges := m_edges m; m_scenarios := m_scenarios m;
     m_s := m_s m; m_t := m_t m; m_flow_capacity := m_flow_capacity m;
     m_xi := m_xi m; m_type1_con_set := m_type1_con_set m;
     m_cvar_con_set := s;
     m_vars := m_vars m; m_fixed := m_fixed m;
     m_constraints := m_constraints m; m_objectives := m_objectives m |}.

(** [penv.Var(index, domain=d)]: one variable per index. *)
Definition PyomoVar {I} (index : list I) (mk : I → var) (d : domain) : list (var * domain) :=
  (λ i, (mk i, d)) <$> index.

(** Indexing a Var component, [model.y[n, m, scenario]]: [KeyError] when the
    index is not in the component. *)
Definition edge_eqb (e e' : edge) : bool := (e.1 =? e'.1) && (e.2 =? e'.2).

Definition var_eqb (v v' : var) : bool :=
  match v, v' with
  | Vx e, Vx e' => edge_eqb e e'
  | Vy e ω, Vy e' ω' => edge_eqb e e' && (ω =? ω')%nat
  | Vindicator ω i, Vindicator ω' i' => (ω =? ω')%nat && (i =? i')%nat
  | Vcvar_beta i, Vcvar_beta i' => (i =? i')%nat
  | Vcvar_nu ω i, Vcvar_nu ω' i' => (ω =? ω')%nat && (i =? i')%nat
  | _, _ => false
  end.

Fixpoint declared_in (vs : list (var * domain)) (v : var) : bool :=
  match vs with
  | [] => false
  | vd :: vs' => if var_eqb vd.1 v then true else declared_in vs' v
  end.

Definition declared (m : model) (v : var) : bool := declared_in (m_vars m) v.

Definition get_var (m : model) (v : var) : result expr :=
  if declared m v then Ok (EVar v) else Raise KeyError.

(** Indexing the Param components. *)
Definition get_flow_capacity (m : model) (e : edge) : result expr :=
  cap ← dict_get (m_flow_capacity m) e; mret (Num (inject_Z cap)).

Definition get_xi (m : model) (e : edge) (ω : nat) : result expr :=
  match m_xi m !! (e, ω) with
  | Some v => Ok (Num (inject_Z v))
  | None => Raise ValueError
  end.

(** [penv.Constraint(index, rule=rule)]: the rule is called on every index,
    in order, and must return a relational expression; Pyomo rejects a rule
    that returns a Python [bool] with a [ValueError]. *)
Definition PyomoConstraint {I} (index : list I) (key : I → con_key)
    (rule : I → result rule_value) : result (list (con_key * constraint)) :=
  mapM (λ i, r ← rule i;
             match r with
             | Relational c => mret (key i, c)
             | Trivial _ => Raise ValueError
             end) index.

(** ** The cells that assemble the model *)

Section Cells.
Variable c : config.

(** The global [num_scenarios] as a number. *)
Definition num_scenarios_Q : Q := inject_Z (Z.of_nat (num_scenarios c)).

(** *** Core model *)

Definition con_flow_balance (m : model) (node : node) (ω : nat) : result rule_value :=
  let in_edges := filter (λ e : edge, e.2 = node) (m_edges m) in
  let out_edges := filter (λ e : edge, e.1 = node) (m_edges m) in
  ins ← mapM (λ e, get_var m (Vy e ω)) in_edges;
  outs ← mapM (λ e, get_var m (Vy e ω)) out_edges;
  mret (py_rel Req (py_sum ins) (py_sum outs)).

Definition con_max_flow_capacity (m : model) (e : edge) (ω : nat) : result rule_value :=
  yv ← get_var m (Vy e ω);
  cap ← get_flow_capacity m e;
  mret (py_rel Rle yv cap).

Definition con_eff_flow_capacity (m : model) (e : edge) (ω : nat) : result rule_value :=
  yv ← get_var m (Vy e ω);
  xi ← get_xi m e ω;
  xv ← get_var m (Vx e);
  mret (py_rel Rle yv (py_add xi xv)).

Definition obj_min_budget (m : model) : result expr :=
  xs ← mapM (λ e, get_var m (Vx e)) (m_edges m);
  mret (py_sum xs).

(** The sets, parameters and variables declared before the constraints. *)
Definition core_components (xi : xi_table) : model :=
  let m_edges := dict_keys (edges c) in
  let m_scenarios := range (num_scenarios c) in
  {| m_nodes := nodes c; m_edges := m_edges; m_scenarios := m_scenarios;
     m_s := source c; m_t := sink c;
     m_flow_capacity := edges c; m_xi := xi;
     m_type1_con_set := []; m_cvar_con_set := [];
     m_vars := PyomoVar m_edges Vx NonNegativeReals
               ++ PyomoVar (list_prod m_edges m_scenarios)
                           (λ k, Vy k.1 k.2) NonNegativeReals;
     m_fixed := []; m_constraints := []; m_objectives := [] |}.

Definition core_model (xi : xi_table) : result model :=
  let m := core_components xi in
  cs1 ← PyomoConstraint (list_prod (m_nodes m) (m_scenarios m))
          (λ k, ConFlowBalance k.1 k.2) (λ k, con_flow_balance m k.1 k.2);
  cs2 ← PyomoConstraint (list_prod (m_edges m) (m_scenarios m))
          (λ k, ConMaxFlowCapacity k.1 k.2) (λ k, con_max_flow_capacity m k.1 k.2);
  cs3 ← PyomoConstraint (list_prod (m_edges m) (m_scenarios m))
          (λ k, ConEffFlowCapacity k.1 k.2) (λ k, con_eff_flow_capacity m k.1 k.2);
  o ← obj_min_budget m;
  mret (set_objectives
          [ {| o_name := ObjMinBudget; o_sense := minimize;
               o_expr := o; o_active := true |} ]
          (add_constraints (cs1 ++ cs2 ++ cs3) m)).

(** *** Type I service-level constraints *)

Definition con_indicator (m : model) (ω i : nat) : result rule_value :=
  ind ← get_var m (Vindicator ω i);
  yv ← get_var m (Vy (m_t m, m_s m) ω);
  b ← list_get (perf_thresholds c) i;
  rhs ← py_div yv b;
  mret (py_rel Rle ind rhs).

Definition con_type1_service_level (m : model) (i : nat) : result rule_value :=
  inds ← mapM (λ ω, get_var m (Vindicator ω i)) (m_scenarios m);
  lhs ← py_div (py_sum inds) num_scenarios_Q;
  a ← list_get (alpha_thresholds c) i;
  mret (py_rel Rge lhs (Num a)).

Definition type1_vars (m : model) : list (var * domain) :=
  PyomoVar (list_prod (m_scenarios m) (m_type1_con_set m))
           (λ k, Vindicator k.1 k.2) Binary.

Definition type1_cell (m : model) : result model :=
  let num_type1_constraints := length (perf_thresholds c) in
  let m := set_type1_con_set (range num_type1_constraints) m in
  let m := add_vars (type1_vars m) m in
  cs1 ← PyomoConstraint (list_prod (m_scenarios m) (m_type1_con_set m))
          (λ k, ConIndicator k.1 k.2) (λ k, con_indicator m k.1 k.2);
  cs2 ← PyomoConstraint (m_type1_con_set m)
          ConType1ServiceLevel (con_type1_service_level m);
  mret (add_constraints (cs1 ++ cs2) m).

(** *** Type II service-level constraint *)

Definition con_type2_service_level (m : model) : result rule_value :=
  ys ← mapM (λ ω, get_var m (Vy (m_t m, m_s m) ω)) (m_scenarios m);
  lhs ← py_div (py_sum ys) num_scenarios_Q;
  mret (py_rel Rge lhs (Num (perf_target c * beta_threshold c))).

Definition type2_cell (m : model) : result model :=
  cs ← PyomoConstraint [()] (λ _, ConType2ServiceLevel)
         (λ _, con_type2_service_level m);
  mret (add_constraints cs m).

(** *** CVaR constraints *)

Definition con_cvar_main (m : model) (i : nat) : result rule_value :=
  b ← get_var m (Vcvar_beta i);
  nus ← mapM (λ ω, get_var m (Vcvar_nu ω i)) (m_scenarios m);
  eps ← list_get (cvar_epsilons c) i;
  q ← py_div (py_sum nus) (num_scenarios_Q * eps);
  z ← list_get (cvar_thresholds c) i;
  mret (py_rel Rle (py_add b q) (Num z)).

Definition con_cvar_aux (m : model) (ω i : nat) : result rule_value :=
  yv ← get_var m (Vy (m_t m, m_s m) ω);
  let loss := py_sub (Num (perf_target c)) yv in
  nu ← get_var m (Vcvar_nu ω i);
  b ← get_var m (Vcvar_beta i);
  mret (py_rel Rge nu (py_sub loss b)).

Definition cvar_vars (m : model) : list (var * domain) :=
  PyomoVar (m_cvar_con_set m) Vcvar_beta Reals
  ++ PyomoVar (list_prod (m_scenarios m) (m_cvar_con_set m))
              (λ k, Vcvar_nu k.1 k.2) NonNegativeReals.

Definition cvar_cell (m : model) : result model :=
  let num_cvar_constraints := length (cvar_thresholds c) in
  let m := set_cvar_con_set (range num_cvar_constraints) m in
  let m := add_vars (cvar_vars m) m in
  cs1 ← PyomoConstraint (m_cvar_con_set m) ConCvarMain (con_cvar_main m);
  cs2 ← PyomoConstraint (list_prod (m_scenarios m) (m_cvar_con_set m))
          (λ k, ConCvarAux k.1 k.2) (λ k, con_cvar_aux m k.1 k.2);
  mret (add_constraints (cs1 ++ cs2) m).

(** *** All cells up to the first solve *)

Definition build_model (xi : xi_table) : result model :=
  m ← core_model xi;
  m ← type1_cell m;
  m ← type2_cell m;
  cvar_cell m.

Definition assemble {G} `{RandomGen G} (g : G) : result model :=
  '(xi, _) ← gen_xi c g;
  build_model xi.

(** *** The solve cell

    The solver is external.  [σ] stands for the values it loads into the
    variables after the first solve. *)

(** [model.x[key].fix(value)] *)
Definition fix_value (v : var) (q : Q) (m : model) : model :=
  set_fixed (m_fixed m ++ [(v, q)]) m.

(** [for key in model.x: model.x[key].fix(model.x[key].value)] *)
Definition fix_x (σ : assignment) (m : model) : model :=
  foldl (λ m e, fix_value (Vx e) (σ (Vx e)) m) m (m_edges m).

Definition deactivate (n : obj_name) (m : model) : model :=
  set_objectives
    (map (λ o, if decide (o_name o = n)
               then {| o_name := o_name o; o_sense := o_sense o;
                       o_expr := o_expr o; o_active := false |}
               else o) (m_objectives m)) m.

Definition obj_max_flow (m : model) : result expr :=
  ys ← mapM (λ ω, get_var m (Vy (m_t m, m_s m) ω)) (m_scenarios m);
  py_div (py_sum ys) num_scenarios_Q.

(** Everything between the two calls of [solver.solve]. *)
Definition second_phase (σ : assignment) (m : model) : result model :=
  let m := fix_x σ m in
  let m := deactivate ObjMinBudget m in
  o ← obj_max_flow m;
  mret (set_objectives
          (m_objectives m ++
             [ {| o_name := ObjMaxFlow; o_sense := maximize;
                  o_expr := o; o_active := true |} ]) m).

(** The whole cell, for a solver that either loads a solution or not.
    Nothing is modelled past a first solve that loads no solution. *)
Definition solve_cell (solve : model → option assignment) (m : model)
    : result (option (assignment * model * option assignment)) :=
  match solve m with
  | None => mret None
  | Some σ => m2 ← second_phase σ m; mret (Some (σ, m2, solve m2))
  end.
End Cells.

(** ** Feasible points *)

Definition feasible (m : model) (σ : assignment) : Prop :=
  (∀ v d, (v, d) ∈ m_vars m → in_domain d (σ v)) ∧
  (∀ k c, (k, c) ∈ m_constraints m → sat σ c) ∧
  (∀ v q, (v, q) ∈ m_fixed m → (σ v == q)%Q).

Definition active_objectives (m : model) : list objective :=
  filter (λ o, o_active o = true) (m_objectives m).

(** ** Generators *)

(** A linear congruential generator, as a generator that provably delivers on
    every non-empty range: the state is the last output. *)
Definition lcg_next (g : Z) : Z := (1103515245 * g + 12345) mod 2147483648.

#[export] Instance lcg_randint : RandomGen Z := λ a b g,
  if decide (b < a) then Raise ValueError
  else let g' := lcg_next g in Ok (a + g' mod (b - a + 1), g').

(** CPython's [random] module, which the notebook imports: the Mersenne
    Twister MT19937 with the seeding of [random.seed] and the rejection
    sampling of [random.randint].  It is modelled so that the notebook's own
    run, with [seed = 0], can be evaluated.  Words are [uint32_t] in C; here
    they are [Z] with the wrap-around written as [u32]. *)
Module MT19937.
Definition N : nat := 624.
Definition M : nat := 397.
Definition MATRIX_A : Z := 0x9908b0df.
Definition UPPER_MASK : Z := 0x80000000.
Definition LOWER_MASK : Z := 0x7fffffff.
Definition u32 (z : Z) : Z := z mod 2 ^ 32.

Record state := { mt : list Z; index : nat }.

(** [init_genrand(s)] *)
Fixpoint init_fill (prev : Z) (i : nat) (n : nat) : list Z :=
  match n with
  | O => []
  | S n' =>
      let v := u32 (1812433253 * Z.lxor prev (Z.shiftr prev 30) + Z.of_nat i) in
      v :: init_fill v (S i) n'
  end.

Definition init_genrand (s : Z) : state :=
  let s0 := u32 s in
  {| mt := s0 :: init_fill s0 1 (N - 1); index := N |}.

(** One round of the first loop of [init_by_array]; [i] and [j] are the
    variables of the C code. *)
Definition key_step (key : list Z) (st : list Z * nat * nat) : list Z * nat * nat :=
  let '(mt, i, j) := st in
  let p := mt !!! (i - 1)%nat in
  let v := u32 (Z.lxor (mt !!! i) (u32 (Z.lxor p (Z.shiftr p 30) * 1664525))
                + key !!! j + Z.of_nat j) in
  let mt := <[i := v]> mt in
  let i := S i in
  let j := S j in
  let '(mt, i) :=
    if decide (N ≤ i)%nat then (<[0%nat := mt !!! (N - 1)%nat]> mt, 1%nat)
    else (mt, i) in
  let j := if decide (length key ≤ j)%nat then 0%nat else j in
  (mt, i, j).

(** One round of its second loop. *)
Definition mix_step (st : list Z * nat) : list Z * nat :=
  let '(mt, i) := st in
  let p := mt !!! (i - 1)%nat in
  let v := u32 (Z.lxor (mt !!! i) (u32 (Z.lxor p (Z.shiftr p 30) * 1566083941))
                - Z.of_nat i) in
  let mt := <[i := v]> mt in
  let i := S i in
  if decide (N ≤ i)%nat then (<[0%nat := mt !!! (N - 1)%nat]> mt, 1%nat)
  else (mt, i).

Definition init_by_array (key : list Z) : state :=
  let mt0 := mt (init_genrand 19650218) in
  let '(mt1, i, _) :=
    Nat.iter (max N (length key)) (key_step key) (mt0, 1%nat, 0%nat) in
  let '(mt2, _) := Nat.iter (N - 1) mix_step (mt1, i) in
  {| mt := <[0%nat := 0x80000000]> mt2; index := N |}.

(** [random.seed(a)] for an int [a]: the key is [abs(a)] in 32-bit words,
    least significant first. *)
Definition seed_key (a : Z) : list Z :=
  let a := Z.abs a in
  let words := if decide (a = 0) then 1%nat else Z.to_nat (Z.log2 a / 32 + 1) in
  (λ i, u32 (Z.shiftr a (32 * Z.of_nat i))) <$> seq 0 words.

Definition seed (a : Z) : state := init_by_array (seed_key a).

(** The regeneration of the state array in [genrand_uint32], in place. *)
Definition twist_step (mt : list Z) (kk : nat) : list Z :=
  let y := Z.lor (Z.land (mt !!! kk) UPPER_MASK)
                 (Z.land (mt !!! ((kk + 1) mod N)%nat) LOWER_MASK) in
  <[kk := Z.lxor (Z.lxor (mt !!! ((kk + M) mod N)%nat) (Z.shiftr y 1))
                 (if Z.odd y then MATRIX_A else 0)]> mt.

Definition twist (mt : list Z) : list Z := foldl twist_step mt (seq 0 N).

Definition temper (y : Z) : Z :=
  let y := Z.lxor y (Z.shiftr y 11) in
  let y := Z.lxor y (Z.land (Z.shiftl y 7) 0x9d2c5680) in
  let y := Z.lxor y (Z.land (Z.shiftl y 15) 0xefc60000) in
  Z.lxor y (Z.shiftr y 18).

Definition genrand_uint32 (g : state) : Z * state :=
  let g := if decide (N ≤ index g)%nat
           then {| mt := twist (mt g); index := 0 |} else g in
  (u32 (temper (mt g !!! index g)), {| mt := mt g; index := S (index g) |}).

(** [getrandbits(k)] for [k > 32]: words are drawn least significant
    first. *)
Fixpoint getrandbits_words (n : nat) (k : Z) (g : state) : Z * state :=
  match n with
  | O => (0, g)
  | S n' =>
      let '(r, g) := genrand_uint32 g in
      let r := if decide (k < 32) then Z.shiftr r (32 - k) else r in
      let '(hi, g) := getrandbits_words n' (k - 32) g in
      (r + Z.shiftl hi 32, g)
  end.

Definition getrandbits (k : Z) (g : state) : Z * state :=
  if decide (k ≤ 32) then
    let '(r, g) := genrand_uint32 g in (Z.shiftr r (32 - k), g)
  else getrandbits_words (Z.to_nat ((k - 1) / 32 + 1)) k g.

Definition bit_length (n : Z) : Z :=
  if decide (n = 0) then 0 else Z.log2 (Z.abs n) + 1.

(** [_randbelow(n)]: [r = getrandbits(k)], [while r >= n: r = getrandbits(k)].
    The loop runs at most [fuel] times. *)
Fixpoint randbelow_loop (fuel : nat) (n k : Z) (g : state) : option (Z * state) :=
  match fuel with
  | O => None
  | S fuel' =>
      let '(r, g) := getrandbits k g in
      if decide (r < n) then Some (r, g) else randbelow_loop fuel' n k g
  end.

Definition randbelow_fuel : nat := 1000.

(** [randint(a, b)] is [randrange(a, b + 1)], which raises [ValueError] on
    an empty range and returns [a + _randbelow(b + 1 - a)] otherwise. *)
Definition randint (a b : Z) (g : state) : result (Z * state) :=
  let width := b + 1 - a in
  if decide (0 < width) then
    match randbelow_loop randbelow_fuel width (bit_length width) g with
    | Some (r, g) => Ok (a + r, g)
    | None => Raise LoopBound
    end
  else Raise ValueError.
End MT19937.

#[export] Instance mt_randint : RandomGen MT19937.state := MT19937.randint.

(** The generator after the notebook's [random.seed(seed)] with [seed = 0]. *)
Definition notebook_seed : MT19937.state := Eval vm_compute in MT19937.seed 0.

(** ** Sums over scenarios and edges, for stating what the constraints mean *)

Definition Qsum (l : list Q) : Q := foldr Qplus 0%Q l.

(** Total flow into and out of a node in one scenario. *)
Definition inflow (es : list edge) (σ : assignment) (n : node) (ω : nat) : Q :=
  Qsum ((λ e, σ (Vy e ω)) <$> filter (λ e : edge, e.2 = n) es).

Definition outflow (es : list edge) (σ : assignment) (n : node) (ω : nat) : Q :=
  Qsum ((λ e, σ (Vy e ω)) <$> filter (λ e : edge, e.1 = n) es).

(** ** Checking a point by computation *)

Definition in_domainb (d : domain) (q : Q) : bool :=
  match d with
  | NonNegativeReals => Qle_bool 0 q
  | Binary => Qeq_bool q 0 || Qeq_bool q 1
  | Reals => true
  end.

Definition satb (σ : assignment) (k : constraint) : bool :=
  Qrel_bool (c_rel k) (eval σ (c_lhs k)) (eval σ (c_rhs k)).

Definition feasibleb (m : model) (σ : assignment) : bool :=
  forallb (λ vd, in_domainb vd.2 (σ vd.1)) (m_vars m)
  && forallb (λ kc, satb σ kc.2) (m_constraints m)
  && forallb (λ vq, Qeq_bool (σ vq.1) vq.2) (m_fixed m).

(** A maximum flow of value 23 in the notebook's network, sent in every
    scenario and paid for in full by the reinforcement [x]. *)
Definition notebook_flow : list (edge * Z) :=
  [ ((0, 1), 12); ((0, 2), 11); ((1, 3), 12); ((2, 4), 11);
    ((4, 3), 7); ((4, 5), 4); ((3, 5), 19); ((5, 0), 23) ].

Definition flow_on (e : edge) : Q :=
  match dict_get notebook_flow e with
  | Ok f => inject_Z f
  | Raise _ => 0%Q
  end.

Definition notebook_point : assignment := λ v,
  match v with
  | Vx e => flow_on e
  | Vy e _ => flow_on e
  | Vindicator _ _ => 1%Q
  | Vcvar_beta _ => 0%Q
  | Vcvar_nu _ _ => 0%Q
  end.

(** ** Malformed configurations, in the words of the specification *)

Definition edge_references_unknown_node (c : config) : Prop :=
  ∃ e, e ∈ dict_keys (edges c) ∧ (e.1 ∉ nodes c ∨ e.2 ∉ nodes c).

Definition negative_capacity (c : config) : Prop :=
  ∃ e cap, (e, cap) ∈ edges c ∧ cap < 0.

Definition empty_scenario_set (c : config) : Prop :=
  num_scenarios c = 0%nat.

Definition mismatched_threshold_lists (c : config) : Prop :=
  length (perf_thresholds c) ≠ length (alpha_thresholds c) ∨
  length (cvar_thresholds c) ≠ length (cvar_epsilons c).

Definition malformed (c : config) : Prop :=
  edge_references_unknown_node c ∨ negative_capacity c ∨
  empty_scenario_set c ∨ mismatched_threshold_lists c.

Definition with_edges (es : list (edge * Z)) (c : config) : config :=
  {| nodes := nodes c; edges := es; source := source c; sink := sink c;
     num_scenarios := num_scenarios c;
     perf_thresholds := perf_thresholds c; alpha_thresholds := alpha_thresholds c;
     perf_target := perf_target c; beta_threshold := beta_threshold c;
     cvar_thresholds := cvar_thresholds c; cvar_epsilons := cvar_epsilons c |}.

Definition with_num_scenarios (n : nat) (c : config) : config :=
  {| nodes := nodes c; edges := edges c; source := source c; sink := sink c;
     num_scenarios := n;
     perf_thresholds := perf_thresholds c; alpha_thresholds := alpha_thresholds c;
     perf_target := perf_target c; beta_threshold := beta_threshold c;
     cvar_thresholds := cvar_thresholds c; cvar_epsilons := cvar_epsilons c |}.

(** The notebook's network with one more edge, from node 4 to a node 6 that
    is not in [nodes]. *)
Definition notebook_unknown_node : config :=
  with_edges (edges notebook ++ [((4, 6), 3)]) notebook.

(** ** The loss distribution

    The quantities the rules and the plotting cell compute from the values of
    [y] on the return edge. *)

(** [model.y[model.t, model.s, scenario].value] for an assembled model. *)
Definition return_flow (c : config) (σ : assignment) (ω : nat) : Q :=
  σ (Vy (sink c, source c) ω).

(** [loss = perf_target - model.y[model.t, model.s, scenario]] of
    [con_cvar_aux], at a point. *)
Definition loss (c : config) (σ : assignment) (ω : nat) : Q :=
  perf_target c - return_flow c σ ω.

(** The scenarios in which the return flow reaches the bound [b]. *)
Definition served (c : config) (σ : assignment) (b : Q) : list nat :=
  List.filter (λ ω, Qle_bool b (return_flow c σ ω)) (range (num_scenarios c)).

(** The scenarios in which the loss exceeds the ceiling [ζ]. *)
Definition exceeding (c : config) (σ : assignment) (ζ : Q) : list nat :=
  List.filter (λ ω, negb (Qle_bool (loss c σ ω) ζ)) (range (num_scenarios c)).

(** [losses = np.array([23 - model.y[model.t, model.s, scenario].value
                        for scenario in model.scenarios])] *)
Definition losses (m : model) (σ : assignment) : list Q :=
  (λ ω, 23 - σ (Vy (m_t m, m_s m) ω))%Q <$> m_scenarios m.

(** [np.mean] *)
Definition mean (l : list Q) : Q := Qsum l / inject_Z (Z.of_nat (length l)).

(** [edges[n, m]] as a number, and the total capacity of the edges that enter
    a node. *)
Definition cap_of (c : config) (e : edge) : Q :=
  match dict_get (edges c) e with
  | Ok cap => inject_Z cap
  | Raise _ => 0%Q
  end.

Definition capacity_into (c : config) (n : node) : Q :=
  Qsum (cap_of c <$> filter (λ e : edge, e.2 = n) (dict_keys (edges c))).

(** The capacities [random.randint] is called on are not negative. *)
Definition drawn_capacities_nonneg (c : config) : Prop :=
  ∀ e cap, e ≠ (source c, sink c) → dict_get (edges c) e = Ok cap → 0 ≤ cap.

Definition with_source_sink (s t : node) (c : config) : config :=
  {| nodes := nodes c; edges := edges c; source := s; sink := t;
     num_scenarios := num_scenarios c;
     perf_thresholds := perf_thresholds c; alpha_thresholds := alpha_thresholds c;
     perf_target := perf_target c; beta_threshold := beta_threshold c;
     cvar_thresholds := cvar_thresholds c; cvar_epsilons := cvar_epsilons c |}.

(** ** Models the risk cells extend

    The rules of the Type-I, Type-II and CVaR cells index
    [model.y[model.t, model.s, scenario]] in every scenario and divide by
    [num_scenarios]. *)

(** The model has a scenario, and [y] on the return edge is declared in
    every scenario. *)
Definition has_return_flow (m : model) : Prop :=
  m_scenarios m ≠ [] ∧
  ∀ ω, ω ∈ m_scenarios m → declared m (Vy (m_t m, m_s m) ω) = true.

(** The notebook with [num_scenarios = 1]. *)
Definition notebook_single : config := with_num_scenarios 1 notebook.

(** ** The comprehension, entry by entry *)

(** What the specification says of a table [xi]: every entry lies between 0
    and the capacity of its edge. *)
Definition xi_within_bounds (c : config) (tbl : xi_table) : Prop :=
  ∀ e cap ω, dict_get (edges c) e = Ok cap → (ω < num_scenarios c)%nat →
    ∃ v, tbl !! (e, ω) = Some v ∧ 0 ≤ v ≤ cap.

(** The notebook's network with the forward edge [(source, sink)] = (0, 5),
    first with capacity 7 and then with the capacity -3. *)
Definition notebook_forward_edge (cap : Z) : config :=
  with_edges (edges notebook ++ [((0, 5), cap)]) notebook.

(** [drawn_in_order c ks g vs g']: starting from the generator state [g], the
    values [vs] are obtained for the keys [ks] one after the other, each
    non-exempt one by a call [random.randint(0, edges[n, m])] on the state the
    previous key left, and the generator ends in [g'].  The pair
    [(source, sink)] takes its capacity and leaves the generator alone. *)
Inductive drawn_in_order {G} `{RandomGen G} (c : config) :
    list (edge * nat) → G → list Z → G → Prop :=
  | drawn_done (g : G) : drawn_in_order c [] g [] g
  | drawn_randint (e : edge) (ω : nat) (ks : list (edge * nat)) (cap : Z)
        (g : G) (v : Z) (g1 : G) (vs : list Z) (g' : G) :
      e ≠ (source c, sink c) →
      dict_get (edges c) e = Ok cap →
      randint 0 cap g = Ok (v, g1) →
      drawn_in_order c ks g1 vs g' →
      drawn_in_order c ((e, ω) :: ks) g (v :: vs) g'
  | drawn_capacity (ω : nat) (ks : list (edge * nat)) (cap : Z)
        (g : G) (vs : list Z) (g' : G) :
      dict_get (edges c) (source c, sink c) = Ok cap →
      drawn_in_order c ks g vs g' →
      drawn_in_order c ((source c, sink c, ω) :: ks) g (cap :: vs) g'.

(** *** The comprehension over any reading of [random.randint]

    The same comprehension, written once for every monad that offers
    [randint] and exceptions. *)
Class RandomMonad (M : Type → Type) := {
  rm_ret : ∀ {A}, A → M A;
  rm_bind : ∀ {A B}, M A → (A → M B) → M B;
  rm_raise : ∀ {A}, exn → M A;
  rm_randint : Z → Z → M Z
}.

Section XiM.
Context {M : Type → Type} `{RandomMonad M}.
Variable c : config.

Definition xi_valueM (e : edge) : M Z :=
  if decide (e = (source c, sink c)) then
    match dict_get (edges c) (source c, sink c) with
    | Ok v => rm_ret v
    | Raise ex => rm_raise ex
    end
  else
    match dict_get (edges c) e with
    | Ok cap => rm_randint 0 cap
    | Raise ex => rm_raise ex
    end.

Fixpoint xi_loopM (ks : list (edge * nat)) (tbl : xi_table) : M xi_table :=
  match ks with
  | [] => rm_ret tbl
  | k :: ks' =>
      rm_bind (xi_valueM k.1) (λ v, xi_loopM ks' (<[(k.1, k.2) := v]> tbl))
  end.

Definition gen_xiM : M xi_table := xi_loopM (xi_keys c) ∅.
End XiM.

(** First reading: a generator state is passed along, as in [gen_xi]. *)
Definition run (G A : Type) : Type := G → result (A * G).

#[export] Instance run_monad {G} `{RandomGen G} : RandomMonad (run G) := {|
  rm_ret A a := λ g, Ok (a, g);
  rm_bind A B m f := λ g, match m g with
                          | Ok (a, g') => f a g'
                          | Raise ex => Raise ex
                          end;
  rm_raise A ex := λ g, Raise ex;
  rm_randint a b := λ g, randint a b g
|}.

(** Second reading: [random.randint(a, b)] as the library documents it, each
    integer of the inclusive range with the same probability and
    independently of the earlier calls, [ValueError] on an empty range.  A
    distribution is a list of outcomes with their weights. *)
Definition dist (A : Type) : Type := list (result A * Q).

Definition uniform (a b : Z) : dist Z :=
  if decide (b < a) then [(Raise ValueError, 1%Q)]
  else (λ v, (Ok v, 1 / inject_Z (b - a + 1))%Q) <$> seqZ a (b - a + 1).

Definition dist_bind {A B} (d : dist A) (f : A → dist B) : dist B :=
  d ≫= λ rw, match rw.1 with
             | Ok a => (λ rw', (rw'.1, rw.2 * rw'.2)%Q) <$> f a
             | Raise ex => [(Raise ex, rw.2)]
             end.

#[export] Instance dist_monad : RandomMonad dist := {|
  rm_ret A a := [(Ok a, 1%Q)];
  rm_bind A B := dist_bind;
  rm_raise A ex := [(Raise ex, 1%Q)];
  rm_randint := uniform
|}.

(** Every key is looked up successfully, and the capacities passed to
    [randint] are not negative. *)
Definition drawable (c : config) (ks : list (edge * nat)) : Prop :=
  ∀ k, k ∈ ks → ∃ cap, dict_get (edges c) k.1 = Ok cap ∧
                       (k.1 ≠ (source c, sink c) → 0 ≤ cap).

(** The probability of the outcomes that satisfy [P]. *)
Definition Pr {A} (d : dist A) (P : result A → bool) : Q :=
  Qsum ((λ rw, if P rw.1 then rw.2 else 0%Q) <$> d).

(** The comprehension returns a table whose entry [k] is [v]. *)
Definition entry_is (k : edge * nat) (v : Z) (r : result xi_table) : bool :=
  match r with
  | Ok tbl => bool_decide (tbl !! k = Some v)
  | Raise _ => false
  end.

(** * Properties *)

(** ** The error monad and the containers *)

Lemma bind_Ok {A B} (r : result A) (f : A → result B) (b : B) :
  r ≫= f = Ok b ↔ ∃ a, r = Ok a ∧ f a = Ok b.
Proof.
  destruct r as [a|e]; simpl; split.
  - intros Hf. by exists a.
  - by intros (a' & [= <-] & Hf).
  - done.
  - by intros (a' & [=] & _).
Qed.


Lemma is_Ok_true {A} (r : result A) : is_Ok r = true → ∃ a, r = Ok a.
Proof. destruct r as [a|e]; [by exists a|done]. Qed.

Lemma mapM_Ok {A B} (f : A → result B) (l : list A) (k : list B) :
  mapM f l = Ok k ↔ Forall2 (λ a b, f a = Ok b) l k.
Proof.
  revert k. induction l as [|a l IH]; intros k; simpl.
  - split.
    + intros [= <-]. constructor.
    + by intros ->%Forall2_nil_inv_l.
  - rewrite bind_Ok. split.
    + intros (b & Hb & (k' & Hk' & [= <-])%bind_Ok).
      constructor; [done|]. by apply IH.
    + intros (b & k' & Hb & Hk' & ->)%Forall2_cons_inv_l.
      exists b. split; [done|]. apply bind_Ok. exists k'.
      split; [by apply IH|done].
Qed.

Lemma mapM_Ok_fmap {A B} (f : A → result B) (h : A → B) (l : list A) :
  (∀ a, a ∈ l → f a = Ok (h a)) → mapM f l = Ok (h <$> l).
Proof.
  intros Hf. apply mapM_Ok. induction l as [|a l IH]; simpl; constructor.
  - apply Hf. by left.
  - apply IH. intros a' Ha'. apply Hf. by right.
Qed.

Lemma mapM_Raise {A B} (f : A → result B) (l : list A) (a : A) :
  a ∈ l → (∃ e, f a = Raise e) → ∃ e, mapM f l = Raise e.
Proof.
  intros Ha [e He]. induction l as [|a' l IH]; [by apply elem_of_nil in Ha|].
  simpl. destruct (f a') as [b|e'] eqn:Hfa'; simpl; [|by eexists].
  apply elem_of_cons in Ha as [->|Ha]; [congruence|].
  destruct (IH Ha) as [e' ->]. by eexists.
Qed.

Lemma dict_get_Ok {K V} `{EqDecision K} (d : list (K * V)) (k : K) (v : V) :
  dict_get d k = Ok v → (k, v) ∈ d.
Proof.
  induction d as [|[k' v'] d IH]; simpl; [done|].
  case_decide as Hk.
  - intros [= ->]. subst k'. by left.
  - intros Hd. right. by apply IH.
Qed.

Lemma dict_get_keys {K V} `{EqDecision K} (d : list (K * V)) (k : K) :
  k ∈ dict_keys d ↔ ∃ v, dict_get d k = Ok v.
Proof.
  induction d as [|[k' v'] d IH]; simpl.
  - split; [by intros ?%elem_of_nil|by intros [? [=]]].
  - rewrite elem_of_cons. case_decide as Hk; simpl.
    + split; [by eexists|by left].
    + rewrite IH. split; [by intros [?|?]|by right].
Qed.

Lemma dict_get_not_key {K V} `{EqDecision K} (d : list (K * V)) (k : K) :
  k ∉ dict_keys d → dict_get d k = Raise KeyError.
Proof.
  induction d as [|[k' v'] d IH]; simpl; [done|].
  rewrite not_elem_of_cons. intros [Hk Hd].
  case_decide; [done|]. by apply IH.
Qed.

Lemma list_get_Ok {A} (l : list A) (i : nat) (a : A) :
  list_get l i = Ok a ↔ l !! i = Some a.
Proof. unfold list_get. destruct (l !! i); split; congruence. Qed.

Lemma elem_of_range (n i : nat) : i ∈ range n ↔ (i < n)%nat.
Proof. unfold range. rewrite elem_of_seq. lia. Qed.

Lemma elem_of_list_prod {A B} (l : list A) (k : list B) (p : A * B) :
  p ∈ list_prod l k ↔ p.1 ∈ l ∧ p.2 ∈ k.
Proof.
  destruct p as [a b]. rewrite !list_elem_of_In. apply in_prod_iff.
Qed.

(** ** The scenario table *)

Section XiFacts.
Context {G : Type} `{RandomGen G}.
Variable c : config.

(** The lookup [edges[source, sink]] is only reached from an iteration whose
    edge is [(source, sink)]. *)
Lemma xi_value_other (e : edge) (g : G) :
  e ≠ (source c, sink c) →
  xi_value c e g = cap ← dict_get (edges c) e; randint 0 cap g.
Proof. intros He. unfold xi_value. by case_decide. Qed.

Lemma xi_value_exempt (g : G) :
  xi_value c (source c, sink c) g
  = v ← dict_get (edges c) (source c, sink c); mret (v, g).
Proof. unfold xi_value. by case_decide. Qed.

Lemma xi_loop_lookup (ks : list (edge * nat)) (st st' : xi_table * G) :
  xi_loop c ks st = Ok st' →
  (∀ k, k ∉ ks → st'.1 !! k = st.1 !! k) ∧
  (∀ k, k ∈ ks → ∃ v, st'.1 !! k = Some v ∧ xi_drawn c k.1 v).
Proof.
  revert st. induction ks as [|k0 ks IH]; intros st; simpl.
  - intros [= ->]. split; [done|]. by intros k ?%elem_of_nil.
  - intros (st1 & Hstep & Hloop)%bind_Ok.
    destruct (IH _ Hloop) as [IHout IHin].
    unfold xi_step in Hstep.
    apply bind_Ok in Hstep as ([v g1] & Hv & [= <-]).
    destruct k0 as [e0 ω0]; simpl in *. split.
    + intros k [Hne Hk]%not_elem_of_cons.
      rewrite IHout; [|done]. simpl. by rewrite lookup_insert_ne.
    + intros k Hk. destruct (decide (k ∈ ks)) as [Hin|Hout]; [by apply IHin|].
      apply elem_of_cons in Hk as [->|Hk]; [|done].
      exists v. rewrite IHout; [|done]. simpl. rewrite lookup_insert_eq.
      split; [done|]. by exists st.2, g1.
Qed.

Lemma xi_loop_total (ks : list (edge * nat)) :
  (∀ k g, k ∈ ks → ∃ v g', xi_value c k.1 g = Ok (v, g')) →
  ∀ st, ∃ st', xi_loop c ks st = Ok st'.
Proof.
  induction ks as [|k ks IH]; intros Hks st; simpl; [by eexists|].
  destruct (Hks k st.2) as (v & g' & Hv); [by left|].
  unfold xi_step. rewrite Hv. simpl.
  apply IH. intros k' g Hk'. apply Hks. by right.
Qed.

Lemma gen_xi_lookup (g g' : G) (tbl : xi_table) :
  gen_xi c g = Ok (tbl, g') →
  ∀ k, (k ∈ xi_keys c → ∃ v, tbl !! k = Some v ∧ xi_drawn c k.1 v) ∧
       (k ∉ xi_keys c → tbl !! k = None).
Proof.
  intros [Hout Hin]%xi_loop_lookup k. split.
  - apply Hin.
  - intros Hk. specialize (Hout k Hk). simpl in Hout. by rewrite Hout.
Qed.

Lemma elem_of_xi_keys (e : edge) (ω : nat) :
  (e, ω) ∈ xi_keys c ↔ e ∈ dict_keys (edges c) ∧ (ω < num_scenarios c)%nat.
Proof. unfold xi_keys. by rewrite elem_of_list_prod, elem_of_range. Qed.
End XiFacts.

(** The linear congruential generator keeps the promises of [randint]. *)
#[export] Instance lcg_sound : RandomGenSound Z.
Proof.
  split; unfold randint, lcg_randint; intros a b g.
  - intros Hab. by case_decide.
  - intros v g'. case_decide as Hab; [done|]. intros [= <- <-].
    pose proof (Z.mod_pos_bound (lcg_next g) (b - a + 1)). lia.
Qed.

#[export] Instance lcg_total : RandomGenTotal Z.
Proof.
  intros a b g Hab. unfold randint, lcg_randint.
  case_decide; [lia|]. by eexists _, _.
Qed.

(** No edge of the notebook's network is the pair [(source, sink)] = (0, 5),
    and that pair is not a key of [edges]. *)
Lemma notebook_no_source_sink_edge :
  (source notebook, sink notebook) ∉ dict_keys (edges notebook).
Proof. apply (bool_decide_unpack _). by vm_compute. Qed.

Lemma NoDup_list_prod {A B} (l : list A) (k : list B) :
  NoDup l → NoDup k → NoDup (list_prod l k).
Proof.
  intros Hl Hk. induction Hl as [|a l Ha Hl IH]; simpl; [constructor|].
  apply NoDup_app. split; [|split; [|done]].
  - change (NoDup ((λ y, (a, y)) <$> k)).
    apply NoDup_fmap_2; [|done]. by intros b b' [= ->].
  - change (map (λ y, (a, y)) k) with ((λ y, (a, y)) <$> k).
    intros [a' b] (b' & [= -> ->] & _)%list_elem_of_fmap.
    by intros [Ha' _]%elem_of_list_prod.
Qed.

Lemma notebook_xi_keys_NoDup : NoDup (xi_keys notebook).
Proof.
  apply NoDup_list_prod.
  - apply (bool_decide_unpack _). by vm_compute.
  - unfold range. apply NoDup_seq.
Qed.

Lemma notebook_capacity_nonneg (e : edge) (cap : Z) :
  dict_get (edges notebook) e = Ok cap → 0 ≤ cap.
Proof.
  intros Hcap%dict_get_Ok.
  assert (Forall (λ kv : edge * Z, 0 ≤ kv.2) (edges notebook)) as Hall.
  { apply (bool_decide_unpack _). by vm_compute. }
  rewrite Forall_forall in Hall. apply (Hall _ Hcap).
Qed.

(** C10: building [xi] for the notebook's network returns a table and raises
    nothing, although [(source, sink)] = (0, 5) is not a key of [edges]: for
    every iterated edge the value is computed by the [else] branch, which only
    looks up the iterated edge itself, and the table holds a value for exactly
    the 1100 keys [(n, m, scenario)] of the comprehension. *)
Theorem xi_total_notebook {G} `{RandomGenTotal G} (g : G) :
  dict_get (edges notebook) (source notebook, sink notebook) = Raise KeyError ∧
  (∀ e g0, e ∈ dict_keys (edges notebook) →
     xi_value notebook e g0
     = cap ← dict_get (edges notebook) e; randint 0 cap g0) ∧
  ∃ tbl g', gen_xi notebook g = Ok (tbl, g') ∧
    (∀ e ω, is_Some (tbl !! (e, ω))
            ↔ e ∈ dict_keys (edges notebook) ∧ (ω < 100)%nat) ∧
    size tbl = 1100%nat.
Proof.
  pose proof notebook_no_source_sink_edge as Hst.
  assert (Helse : ∀ e g0, e ∈ dict_keys (edges notebook) →
     xi_value notebook e g0
     = cap ← dict_get (edges notebook) e; randint 0 cap g0).
  { intros e g0 He. apply xi_value_other. by intros ->. }
  split; [by apply dict_get_not_key|]. split; [done|].
  destruct (xi_loop_total notebook (xi_keys notebook)) with (st := (∅ : xi_table, g))
    as [[tbl g'] Hgen].
  { intros [e ω] g0 [He _]%elem_of_xi_keys. simpl. rewrite Helse by done.
    apply dict_get_keys in He as Hcap. destruct Hcap as [cap Hcap].
    rewrite Hcap. simpl. apply randint_total.
    by eapply notebook_capacity_nonneg. }
  exists tbl, g'. split; [done|].
  assert (Hdom : ∀ k, is_Some (tbl !! k) ↔ k ∈ xi_keys notebook).
  { intros k. destruct (gen_xi_lookup notebook g g' tbl Hgen k) as [Hin Hout].
    split.
    - intros Hk. destruct (decide (k ∈ xi_keys notebook)) as [|Hn]; [done|].
      destruct Hk as [v Hv]. specialize (Hout Hn).
      by pose proof (eq_trans (eq_sym Hout) Hv).
    - intros Hk. destruct (Hin Hk) as (v & -> & _). by eexists. }
  split.
  - intros e ω. rewrite Hdom. apply elem_of_xi_keys.
  - rewrite <- size_dom.
    assert (dom tbl = list_to_set (xi_keys notebook)) as ->.
    { apply set_eq. intros k. by rewrite elem_of_dom, elem_of_list_to_set. }
    rewrite size_list_to_set by apply notebook_xi_keys_NoDup.
    reflexivity.
Qed.

Lemma xi_total_notebook_witness :
  ∃ tbl g', gen_xi notebook (0 : Z) = Ok (tbl, g') ∧ size tbl = 1100%nat.
Proof.
  destruct (xi_total_notebook (0 : Z)) as (_ & _ & tbl & g' & Hgen & _ & Hsize).
  exists tbl, g'. split; assumption.
Defined.

(** ** Expressions *)

Lemma eval_py_add (σ : assignment) (a b : expr) :
  (eval σ (py_add a b) == eval σ a + eval σ b)%Q.
Proof. destruct a, b; reflexivity. Qed.

Lemma eval_py_sub (σ : assignment) (a b : expr) :
  (eval σ (py_sub a b) == eval σ a - eval σ b)%Q.
Proof. destruct a, b; reflexivity. Qed.

Lemma Qis_zero_true (q : Q) : Qis_zero q = true ↔ (q == 0)%Q.
Proof. apply Qeq_bool_iff. Qed.

Lemma Qis_zero_false (q : Q) : Qis_zero q = false ↔ ¬ (q == 0)%Q.
Proof. rewrite <- Qis_zero_true. by destruct (Qis_zero q). Qed.

Lemma py_div_Ok (a e : expr) (q : Q) :
  py_div a q = Ok e → ¬ (q == 0)%Q ∧ ∀ σ, (eval σ e == eval σ a / q)%Q.
Proof.
  unfold py_div. destruct (Qis_zero q) eqn:Hq; [done|].
  apply Qis_zero_false in Hq. intros He. split; [done|]. intros σ.
  destruct a; injection He as <-; reflexivity.
Qed.

Lemma py_div_var (v : var) (q : Q) :
  ¬ (q == 0)%Q → py_div (EVar v) q = Ok (Div (EVar v) q).
Proof. intros Hq%Qis_zero_false. unfold py_div. by rewrite Hq. Qed.

Lemma py_div_zero (a : expr) (q : Q) :
  (q == 0)%Q → py_div a q = Raise ZeroDivisionError.
Proof. intros Hq%Qis_zero_true. unfold py_div. by rewrite Hq. Qed.

Lemma py_div_is_Ok (a : expr) (q : Q) :
  ¬ (q == 0)%Q → ∃ e, py_div a q = Ok e.
Proof.
  intros Hq%Qis_zero_false. unfold py_div. rewrite Hq.
  destruct a; by eexists.
Qed.

Lemma Qsum_nil : Qsum [] = 0%Q.
Proof. reflexivity. Qed.

Lemma Qsum_cons (q : Q) (l : list Q) : Qsum (q :: l) = (q + Qsum l)%Q.
Proof. reflexivity. Qed.

Lemma eval_foldl_py_add (σ : assignment) (l : list expr) (a : expr) :
  (eval σ (foldl py_add a l) == eval σ a + Qsum (eval σ <$> l))%Q.
Proof.
  revert a. induction l as [|b l IH]; intros a.
  - rewrite fmap_nil, Qsum_nil. simpl. lra.
  - cbn [foldl]. rewrite IH, eval_py_add, fmap_cons, Qsum_cons. lra.
Qed.

Lemma eval_py_sum (σ : assignment) (l : list expr) :
  (eval σ (py_sum l) == Qsum (eval σ <$> l))%Q.
Proof. unfold py_sum. rewrite eval_foldl_py_add. simpl. lra. Qed.

(** A sum with at least one Pyomo term is a Pyomo expression, not a number. *)

Lemma py_add_not_Num (a b : expr) : is_Num a = false → is_Num (py_add a b) = false.
Proof. by destruct a. Qed.

Lemma foldl_py_add_not_Num (l : list expr) (a : expr) :
  is_Num a = false → is_Num (foldl py_add a l) = false.
Proof.
  revert a. induction l as [|b l IH]; intros a Ha; simpl; [done|].
  apply IH. by apply py_add_not_Num.
Qed.

Lemma py_sum_vars_not_Num (vs : list var) :
  vs ≠ [] → is_Num (py_sum (EVar <$> vs)) = false.
Proof.
  destruct vs as [|v vs]; [done|]. intros _. unfold py_sum. simpl.
  by apply foldl_py_add_not_Num.
Qed.

Lemma py_rel_not_Num_l (r : relation) (a b : expr) :
  is_Num a = false → py_rel r a b = Relational (Constr a r b).
Proof. by destruct a. Qed.

Lemma py_rel_not_Num_r (r : relation) (a b : expr) :
  is_Num b = false → py_rel r a b = Relational (Constr a r b).
Proof. by destruct a, b. Qed.

Lemma py_rel_Relational (r : relation) (a b : expr) (k : constraint) :
  py_rel r a b = Relational k → k = Constr a r b.
Proof. destruct a, b; simpl; congruence. Qed.

(** ** Components of the model *)

Lemma Forall2_elem_of_l {A B} (P : A → B → Prop) (l : list A) (k : list B) (a : A) :
  Forall2 P l k → a ∈ l → ∃ b, b ∈ k ∧ P a b.
Proof.
  induction 1 as [|a' b' l k HP _ IH]; [by intros ?%elem_of_nil|].
  intros [->|Ha]%elem_of_cons.
  - exists b'. split; [by left|done].
  - destruct (IH Ha) as (b & Hb & HPb). exists b. split; [by right|done].
Qed.


Lemma edge_eqb_eq (e e' : edge) : edge_eqb e e' = true ↔ e = e'.
Proof.
  destruct e as [n m], e' as [n' m']. unfold edge_eqb. simpl.
  rewrite andb_true_iff, !Z.eqb_eq. split; [by intros [-> ->]|by intros [= -> ->]].
Qed.

Lemma var_eqb_eq (v v' : var) : var_eqb v v' = true ↔ v = v'.
Proof.
  destruct v, v'; simpl; try (split; [done|congruence]);
    rewrite ?andb_true_iff, ?edge_eqb_eq, ?Nat.eqb_eq;
    (split; [intros; destruct_and?; by subst|by intros [= -> ->] || by intros [= ->]]).
Qed.

Lemma declared_in_elem_of (vs : list (var * domain)) (v : var) :
  declared_in vs v = true ↔ ∃ d, (v, d) ∈ vs.
Proof.
  induction vs as [|[v' d'] vs IH]; simpl.
  - split; [done|]. by intros [d ?%elem_of_nil].
  - destruct (var_eqb v' v) eqn:Hv.
    + apply var_eqb_eq in Hv as ->. split; [|done]. intros _. exists d'. by left.
    + rewrite IH. split.
      * intros [d Hd]. exists d. by right.
      * intros [d [[= <- <-]|Hd]%elem_of_cons]; [|by exists d].
        assert (var_eqb v v = true) by (by apply var_eqb_eq). congruence.
Qed.

Lemma declared_elem_of (m : model) (v : var) :
  declared m v = true ↔ ∃ d, (v, d) ∈ m_vars m.
Proof. apply declared_in_elem_of. Qed.

Lemma get_var_Ok (m : model) (v : var) (e : expr) :
  get_var m v = Ok e ↔ e = EVar v ∧ declared m v = true.
Proof.
  unfold get_var. destruct (declared m v); split.
  - by intros [= <-].
  - by intros [-> _].
  - done.
  - by intros [_ ?].
Qed.

Lemma get_var_declared (m : model) (v : var) :
  declared m v = true → get_var m v = Ok (EVar v).
Proof. intros Hv. by apply get_var_Ok. Qed.


Lemma mapM_get_var_Ok {A} (m : model) (f : A → var) (l : list A) (k : list expr) :
  mapM (λ a, get_var m (f a)) l = Ok k →
  k = EVar <$> (f <$> l) ∧ ∀ a, a ∈ l → declared m (f a) = true.
Proof.
  rewrite mapM_Ok. induction 1 as [|a e l k [-> Ha]%get_var_Ok _ [-> IH]]; simpl.
  - split; [done|]. by intros a ?%elem_of_nil.
  - split; [done|]. intros a' [->|Ha']%elem_of_cons; [done|by apply IH].
Qed.

Lemma mapM_get_var_declared {A} (m : model) (f : A → var) (l : list A) :
  (∀ a, a ∈ l → declared m (f a) = true) →
  mapM (λ a, get_var m (f a)) l = Ok (EVar <$> (f <$> l)).
Proof.
  intros Hl. rewrite <- list_fmap_compose. apply mapM_Ok_fmap.
  intros a Ha. by apply get_var_declared, Hl.
Qed.

Lemma PyomoConstraint_Ok {I} (index : list I) (key : I → con_key)
    (rule : I → result rule_value) (cs : list (con_key * constraint)) :
  PyomoConstraint index key rule = Ok cs ↔
  Forall2 (λ i kc, ∃ k, rule i = Ok (Relational k) ∧ kc = (key i, k)) index cs.
Proof.
  unfold PyomoConstraint. rewrite mapM_Ok.
  split; intros HF; (eapply Forall2_impl; [exact HF|]); clear HF; intros i kc.
  - intros ([b|k] & Hr & Hk)%bind_Ok; [done|]. injection Hk as <-. by exists k.
  - intros (k & Hr & ->). apply bind_Ok. by exists (Relational k).
Qed.

Lemma PyomoConstraint_Raise {I} (index : list I) (key : I → con_key)
    (rule : I → result rule_value) (i : I) :
  i ∈ index → (∃ e, rule i = Raise e) →
  ∃ e, PyomoConstraint index key rule = Raise e.
Proof.
  intros Hi [e He]. apply mapM_Raise with (a := i); [done|].
  exists e. by rewrite He.
Qed.

Lemma eval_sum_vars {A} (σ : assignment) (f : A → var) (l : list A) :
  (eval σ (py_sum (EVar <$> (f <$> l))) == Qsum ((λ a, σ (f a)) <$> l))%Q.
Proof. rewrite eval_py_sum, <- !list_fmap_compose. reflexivity. Qed.

(** ** The core model *)

(** Membership in a list of constraints built by appending. *)
Ltac in_constraints := simpl; rewrite ?elem_of_app; auto.

Lemma con_flow_balance_Ok (m : model) (n : node) (ω : nat) (rv : rule_value) :
  con_flow_balance m n ω = Ok rv →
  rv = py_rel Req
         (py_sum (EVar <$> ((λ e, Vy e ω) <$> filter (λ e : edge, e.2 = n) (m_edges m))))
         (py_sum (EVar <$> ((λ e, Vy e ω) <$> filter (λ e : edge, e.1 = n) (m_edges m)))).
Proof.
  unfold con_flow_balance.
  intros (ins & [-> _]%mapM_get_var_Ok & Houts)%bind_Ok.
  apply bind_Ok in Houts as (outs & [-> _]%mapM_get_var_Ok & [= <-]).
  done.
Qed.

Lemma con_max_flow_capacity_Ok (m : model) (e : edge) (ω : nat) (rv : rule_value) :
  con_max_flow_capacity m e ω = Ok rv →
  ∃ cap, dict_get (m_flow_capacity m) e = Ok cap ∧
         rv = Relational (Constr (EVar (Vy e ω)) Rle (Num (inject_Z cap))).
Proof.
  unfold con_max_flow_capacity, get_flow_capacity.
  intros (yv & [-> _]%get_var_Ok & Hcap)%bind_Ok.
  apply bind_Ok in Hcap as (q & (cap & Hcap & [= <-])%bind_Ok & [= <-]).
  by exists cap.
Qed.

Lemma con_eff_flow_capacity_Ok (m : model) (e : edge) (ω : nat) (rv : rule_value) :
  con_eff_flow_capacity m e ω = Ok rv →
  ∃ v, m_xi m !! (e, ω) = Some v ∧
       rv = Relational (Constr (EVar (Vy e ω)) Rle
                               (Add (Num (inject_Z v)) (EVar (Vx e)))).
Proof.
  unfold con_eff_flow_capacity, get_xi.
  intros (yv & [-> _]%get_var_Ok & Hxi)%bind_Ok.
  apply bind_Ok in Hxi as (q & Hq & (xv & [-> _]%get_var_Ok & [= <-])%bind_Ok).
  destruct (m_xi m !! (e, ω)) as [v|] eqn:Hv; [|done].
  injection Hq as <-. by exists v.
Qed.

Lemma core_model_Ok (c : config) (xi : xi_table) (m : model) :
  core_model c xi = Ok m →
  let m0 := core_components c xi in
  ∃ cs1 cs2 cs3 o,
    m = set_objectives
          [ {| o_name := ObjMinBudget; o_sense := minimize;
               o_expr := o; o_active := true |} ]
          (add_constraints (cs1 ++ cs2 ++ cs3) m0) ∧
    Forall2 (λ i kc, ∃ k, con_flow_balance m0 i.1 i.2 = Ok (Relational k)
                          ∧ kc = (ConFlowBalance i.1 i.2, k))
            (list_prod (nodes c) (range (num_scenarios c))) cs1 ∧
    Forall2 (λ i kc, ∃ k, con_max_flow_capacity m0 i.1 i.2 = Ok (Relational k)
                          ∧ kc = (ConMaxFlowCapacity i.1 i.2, k))
            (list_prod (dict_keys (edges c)) (range (num_scenarios c))) cs2 ∧
    Forall2 (λ i kc, ∃ k, con_eff_flow_capacity m0 i.1 i.2 = Ok (Relational k)
                          ∧ kc = (ConEffFlowCapacity i.1 i.2, k))
            (list_prod (dict_keys (edges c)) (range (num_scenarios c))) cs3 ∧
    o = py_sum (EVar <$> (Vx <$> dict_keys (edges c))).
Proof.
  unfold core_model. intros (cs1 & H1%PyomoConstraint_Ok & Hm)%bind_Ok.
  apply bind_Ok in Hm as (cs2 & H2%PyomoConstraint_Ok & Hm).
  apply bind_Ok in Hm as (cs3 & H3%PyomoConstraint_Ok & Hm).
  apply bind_Ok in Hm as (o & Ho & [= <-]).
  unfold obj_min_budget in Ho.
  apply bind_Ok in Ho as (xs & [-> _]%mapM_get_var_Ok & [= <-]).
  eexists cs1, cs2, cs3, _. repeat split; done.
Qed.

Lemma core_model_vars (c : config) (xi : xi_table) (m : model) :
  core_model c xi = Ok m →
  m_vars m = PyomoVar (dict_keys (edges c)) Vx NonNegativeReals
             ++ PyomoVar (list_prod (dict_keys (edges c)) (range (num_scenarios c)))
                         (λ k, Vy k.1 k.2) NonNegativeReals.
Proof. by intros (cs1 & cs2 & cs3 & o & -> & _)%core_model_Ok. Qed.

(** C6: the core model declares [x] and [y] as non-negative reals and holds,
    for every scenario, the flow balance of every node (total [y] on the
    entering edges equals total [y] on the leaving edges), the ceiling
    [y[e, ω] <= capacity(e)] and the effective ceiling
    [y[e, ω] <= xi[e, ω] + x[e]] of every edge. *)
Theorem core_model_contents (c : config) (xi : xi_table) (m : model) :
  core_model c xi = Ok m →
  let es := dict_keys (edges c) in
  (∀ v d, (v, d) ∈ m_vars m ↔
     d = NonNegativeReals ∧
     ((∃ e, v = Vx e ∧ e ∈ es) ∨
      (∃ e ω, v = Vy e ω ∧ e ∈ es ∧ (ω < num_scenarios c)%nat))) ∧
  (∀ n ω, n ∈ nodes c → (ω < num_scenarios c)%nat →
     ∃ k, (ConFlowBalance n ω, k) ∈ m_constraints m ∧
          ∀ σ, sat σ k ↔ (inflow es σ n ω == outflow es σ n ω)%Q) ∧
  (∀ e ω, e ∈ es → (ω < num_scenarios c)%nat →
     ∃ cap, dict_get (edges c) e = Ok cap ∧
       (ConMaxFlowCapacity e ω,
        Constr (EVar (Vy e ω)) Rle (Num (inject_Z cap))) ∈ m_constraints m) ∧
  (∀ e ω, e ∈ es → (ω < num_scenarios c)%nat →
     ∃ v, xi !! (e, ω) = Some v ∧
       (ConEffFlowCapacity e ω,
        Constr (EVar (Vy e ω)) Rle (Add (Num (inject_Z v)) (EVar (Vx e))))
       ∈ m_constraints m).
Proof.
  intros (cs1 & cs2 & cs3 & o & -> & H1 & H2 & H3 & _)%core_model_Ok es.
  simpl. split; [|split; [|split]].
  - intros v d. unfold PyomoVar. rewrite elem_of_app, !list_elem_of_fmap. split.
    + intros [(e & [= -> ->] & He)|([e ω] & [= -> ->] & Hk)].
      * split; [done|]. left. by exists e.
      * apply elem_of_list_prod in Hk as [He Hω%elem_of_range].
        split; [done|]. right. by exists e, ω.
    + intros [-> [(e & -> & He)|(e & ω & -> & He & Hω)]].
      * left. by exists e.
      * right. exists (e, ω). split; [done|].
        apply elem_of_list_prod. split; [done|]. by apply elem_of_range.
  - intros n ω Hn Hω.
    destruct (Forall2_elem_of_l _ _ _ (n, ω) H1) as (kc & Hkc & k & Hk & ->).
    { apply elem_of_list_prod. split; [done|]. by apply elem_of_range. }
    exists k. split; [in_constraints|]. intros σ.
    apply con_flow_balance_Ok in Hk. symmetry in Hk.
    apply py_rel_Relational in Hk as ->.
    unfold sat, inflow, outflow. simpl. by rewrite !eval_sum_vars.
  - intros e ω He Hω.
    destruct (Forall2_elem_of_l _ _ _ (e, ω) H2) as (kc & Hkc & k & Hk & ->).
    { apply elem_of_list_prod. split; [done|]. by apply elem_of_range. }
    apply con_max_flow_capacity_Ok in Hk as (cap & Hcap & [= ->]).
    exists cap. split; [done|]. in_constraints.
  - intros e ω He Hω.
    destruct (Forall2_elem_of_l _ _ _ (e, ω) H3) as (kc & Hkc & k & Hk & ->).
    { apply elem_of_list_prod. split; [done|]. by apply elem_of_range. }
    apply con_eff_flow_capacity_Ok in Hk as (v & Hv & [= ->]).
    exists v. split; [done|]. in_constraints.
Qed.

(** ** The Type-I cell *)

Section Type1Facts.
Variable c : config.

Lemma con_indicator_Ok (m : model) (ω i : nat) (rv : rule_value) :
  con_indicator c m ω i = Ok rv →
  ∃ b, perf_thresholds c !! i = Some b ∧ ¬ (b == 0)%Q ∧
       declared m (Vy (m_t m, m_s m) ω) = true ∧
       rv = Relational (Constr (EVar (Vindicator ω i)) Rle
                               (Div (EVar (Vy (m_t m, m_s m) ω)) b)).
Proof.
  unfold con_indicator.
  intros (ind & [-> _]%get_var_Ok & Hy)%bind_Ok.
  apply bind_Ok in Hy as (yv & [-> Hy]%get_var_Ok & Hb).
  apply bind_Ok in Hb as (b & Hb%list_get_Ok & Hrhs).
  apply bind_Ok in Hrhs as (rhs & Hrhs & [= <-]).
  exists b. destruct (py_div_Ok _ _ _ Hrhs) as [Hb0 _].
  rewrite py_div_var in Hrhs by done. injection Hrhs as <-. done.
Qed.

Lemma con_type1_service_level_Ok (m : model) (i : nat) (rv : rule_value) :
  con_type1_service_level c m i = Ok rv →
  ∃ a lhs, alpha_thresholds c !! i = Some a ∧
    rv = py_rel Rge lhs (Num a) ∧
    ¬ (num_scenarios_Q c == 0)%Q ∧
    ∀ σ, (eval σ lhs ==
          Qsum ((λ ω, σ (Vindicator ω i)) <$> m_scenarios m)
          / num_scenarios_Q c)%Q.
Proof.
  unfold con_type1_service_level.
  intros (inds & [-> _]%mapM_get_var_Ok & Hlhs)%bind_Ok.
  apply bind_Ok in Hlhs as (lhs & [HS Hlhs]%py_div_Ok & Ha).
  apply bind_Ok in Ha as (a & Ha%list_get_Ok & [= <-]).
  exists a, lhs. split; [done|]. split; [done|]. split; [done|].
  intros σ. by rewrite Hlhs, eval_sum_vars.
Qed.

Lemma type1_cell_Ok (m m' : model) :
  type1_cell c m = Ok m' →
  let m1 := set_type1_con_set (range (length (perf_thresholds c))) m in
  let m2 := add_vars (type1_vars m1) m1 in
  ∃ cs1 cs2,
    m' = add_constraints (cs1 ++ cs2) m2 ∧
    Forall2 (λ k kc, ∃ r, con_indicator c m2 k.1 k.2 = Ok (Relational r)
                          ∧ kc = (ConIndicator k.1 k.2, r))
            (list_prod (m_scenarios m) (range (length (perf_thresholds c)))) cs1 ∧
    Forall2 (λ i kc, ∃ r, con_type1_service_level c m2 i = Ok (Relational r)
                          ∧ kc = (ConType1ServiceLevel i, r))
            (range (length (perf_thresholds c))) cs2.
Proof.
  unfold type1_cell. intros (cs1 & H1%PyomoConstraint_Ok & Hm)%bind_Ok.
  apply bind_Ok in Hm as (cs2 & H2%PyomoConstraint_Ok & [= <-]).
  by exists cs1, cs2.
Qed.
End Type1Facts.

(** ** The Type-II cell *)

Lemma con_type2_service_level_Ok (c : config) (m : model) (rv : rule_value) :
  con_type2_service_level c m = Ok rv →
  ∃ lhs, rv = py_rel Rge lhs (Num (perf_target c * beta_threshold c)) ∧
    ¬ (num_scenarios_Q c == 0)%Q ∧
    (∀ ω, ω ∈ m_scenarios m → declared m (Vy (m_t m, m_s m) ω) = true) ∧
    ∀ σ, (eval σ lhs ==
          Qsum ((λ ω, σ (Vy (m_t m, m_s m) ω)) <$> m_scenarios m)
          / num_scenarios_Q c)%Q.
Proof.
  unfold con_type2_service_level.
  intros (ys & [-> Hdecl]%mapM_get_var_Ok & Hlhs)%bind_Ok.
  apply bind_Ok in Hlhs as (lhs & [HS Hlhs]%py_div_Ok & [= <-]).
  exists lhs. split; [done|]. split; [done|]. split; [done|].
  intros σ. by rewrite Hlhs, eval_sum_vars.
Qed.

Lemma type2_cell_Ok (c : config) (m m' : model) :
  type2_cell c m = Ok m' →
  ∃ k, con_type2_service_level c m = Ok (Relational k) ∧
       m' = add_constraints [(ConType2ServiceLevel, k)] m.
Proof.
  unfold type2_cell. intros (cs & H1%PyomoConstraint_Ok & [= <-])%bind_Ok.
  apply Forall2_cons_inv_l in H1 as (kc & cs' & (k & Hk & ->) & ->%Forall2_nil_inv_l & ->).
  by exists k.
Qed.

(** ** The CVaR cell *)

Section CvarFacts.
Variable c : config.

Lemma con_cvar_main_Ok (m : model) (i : nat) (rv : rule_value) :
  con_cvar_main c m i = Ok rv →
  ∃ ε ζ q, cvar_epsilons c !! i = Some ε ∧ cvar_thresholds c !! i = Some ζ ∧
    ¬ (num_scenarios_Q c * ε == 0)%Q ∧
    rv = Relational (Constr (Add (EVar (Vcvar_beta i)) q) Rle (Num ζ)) ∧
    ∀ σ, (eval σ q ==
          Qsum ((λ ω, σ (Vcvar_nu ω i)) <$> m_scenarios m)
          / (num_scenarios_Q c * ε))%Q.
Proof.
  unfold con_cvar_main.
  intros (b & [-> _]%get_var_Ok & Hnus)%bind_Ok.
  apply bind_Ok in Hnus as (nus & [-> _]%mapM_get_var_Ok & Heps).
  apply bind_Ok in Heps as (ε & Hε%list_get_Ok & Hq).
  apply bind_Ok in Hq as (q & [Hne Hq]%py_div_Ok & Hζ).
  apply bind_Ok in Hζ as (ζ & Hζ%list_get_Ok & [= <-]).
  exists ε, ζ, q. repeat split; try done.
  intros σ. by rewrite Hq, eval_sum_vars.
Qed.

Lemma con_cvar_aux_Ok (m : model) (ω i : nat) (rv : rule_value) :
  con_cvar_aux c m ω i = Ok rv →
  rv = Relational
         (Constr (EVar (Vcvar_nu ω i)) Rge
                 (Sub (Sub (Num (perf_target c)) (EVar (Vy (m_t m, m_s m) ω)))
                      (EVar (Vcvar_beta i)))).
Proof.
  unfold con_cvar_aux.
  intros (yv & [-> _]%get_var_Ok & Hnu)%bind_Ok.
  apply bind_Ok in Hnu as (nu & [-> _]%get_var_Ok & Hb).
  apply bind_Ok in Hb as (b & [-> _]%get_var_Ok & [= <-]).
  done.
Qed.

Lemma cvar_cell_Ok (m m' : model) :
  cvar_cell c m = Ok m' →
  let m1 := set_cvar_con_set (range (length (cvar_thresholds c))) m in
  let m2 := add_vars (cvar_vars m1) m1 in
  ∃ cs1 cs2,
    m' = add_constraints (cs1 ++ cs2) m2 ∧
    Forall2 (λ i kc, ∃ r, con_cvar_main c m2 i = Ok (Relational r)
                          ∧ kc = (ConCvarMain i, r))
            (range (length (cvar_thresholds c))) cs1 ∧
    Forall2 (λ k kc, ∃ r, con_cvar_aux c m2 k.1 k.2 = Ok (Relational r)
                          ∧ kc = (ConCvarAux k.1 k.2, r))
            (list_prod (m_scenarios m) (range (length (cvar_thresholds c)))) cs2.
Proof.
  unfold cvar_cell. intros (cs1 & H1%PyomoConstraint_Ok & Hm)%bind_Ok.
  apply bind_Ok in Hm as (cs2 & H2%PyomoConstraint_Ok & [= <-]).
  by exists cs1, cs2.
Qed.
End CvarFacts.

Lemma Qdiv_single (ν ε : Q) : ((ν + 0) / (1 * ε) == ν / ε)%Q.
Proof.
  assert (ν + 0 == ν)%Q as -> by lra.
  assert (1 * ε == ε)%Q as -> by lra.
  reflexivity.
Qed.

(** ** The assembled model *)

Lemma build_model_Ok (c : config) (xi : xi_table) (m : model) :
  build_model c xi = Ok m ↔
  ∃ m1 m2 m3, core_model c xi = Ok m1 ∧ type1_cell c m1 = Ok m2 ∧
              type2_cell c m2 = Ok m3 ∧ cvar_cell c m3 = Ok m.
Proof.
  unfold build_model. rewrite bind_Ok. split.
  - intros (m1 & H1 & (m2 & H2 & (m3 & H3 & H4)%bind_Ok)%bind_Ok).
    by exists m1, m2, m3.
  - intros (m1 & m2 & m3 & H1 & H2 & H3 & H4). exists m1. split; [done|].
    apply bind_Ok. exists m2. split; [done|].
    apply bind_Ok. by exists m3.
Qed.

Lemma core_model_sets (c : config) (xi : xi_table) (m : model) :
  core_model c xi = Ok m →
  m_edges m = dict_keys (edges c) ∧ m_scenarios m = range (num_scenarios c) ∧
  m_s m = source c ∧ m_t m = sink c ∧ m_fixed m = [] ∧
  ∃ o, m_objectives m = [ {| o_name := ObjMinBudget; o_sense := minimize;
                             o_expr := o; o_active := true |} ].
Proof.
  intros (cs1 & cs2 & cs3 & o & -> & _)%core_model_Ok. simpl.
  repeat split. by exists o.
Qed.

Lemma type1_cell_sets (c : config) (m m' : model) :
  type1_cell c m = Ok m' →
  m_edges m' = m_edges m ∧ m_scenarios m' = m_scenarios m ∧
  m_s m' = m_s m ∧ m_t m' = m_t m ∧
  m_fixed m' = m_fixed m ∧ m_objectives m' = m_objectives m ∧
  ∃ vs cs, m_vars m' = m_vars m ++ vs ∧ m_constraints m' = m_constraints m ++ cs.
Proof.
  intros (cs1 & cs2 & -> & _)%type1_cell_Ok. simpl.
  repeat split. by eexists _, _.
Qed.

Lemma type2_cell_sets (c : config) (m m' : model) :
  type2_cell c m = Ok m' →
  m_edges m' = m_edges m ∧ m_scenarios m' = m_scenarios m ∧
  m_s m' = m_s m ∧ m_t m' = m_t m ∧
  m_fixed m' = m_fixed m ∧ m_objectives m' = m_objectives m ∧
  ∃ vs cs, m_vars m' = m_vars m ++ vs ∧ m_constraints m' = m_constraints m ++ cs.
Proof.
  intros (k & _ & ->)%type2_cell_Ok. simpl.
  repeat split. eexists [], _. by rewrite app_nil_r.
Qed.

Lemma cvar_cell_sets (c : config) (m m' : model) :
  cvar_cell c m = Ok m' →
  m_edges m' = m_edges m ∧ m_scenarios m' = m_scenarios m ∧
  m_s m' = m_s m ∧ m_t m' = m_t m ∧
  m_fixed m' = m_fixed m ∧ m_objectives m' = m_objectives m ∧
  ∃ vs cs, m_vars m' = m_vars m ++ vs ∧ m_constraints m' = m_constraints m ++ cs.
Proof.
  intros (cs1 & cs2 & -> & _)%cvar_cell_Ok. simpl.
  repeat split. by eexists _, _.
Qed.

(** Everything the cells produce, in one statement: the sets of the model,
    its variables and its constraints, cell after cell. *)
Lemma build_model_layout (c : config) (xi : xi_table) (m : model) :
  build_model c xi = Ok m →
  ∃ m1 m2 m3,
    core_model c xi = Ok m1 ∧ type1_cell c m1 = Ok m2 ∧
    type2_cell c m2 = Ok m3 ∧ cvar_cell c m3 = Ok m ∧
    m_edges m = dict_keys (edges c) ∧ m_scenarios m = range (num_scenarios c) ∧
    m_s m = source c ∧ m_t m = sink c ∧
    m_fixed m = [] ∧ m_objectives m = m_objectives m1 ∧
    (∀ vd, vd ∈ m_vars m1 → vd ∈ m_vars m) ∧
    (∀ vd, vd ∈ m_vars m2 → vd ∈ m_vars m) ∧
    (∀ kc, kc ∈ m_constraints m1 → kc ∈ m_constraints m) ∧
    (∀ kc, kc ∈ m_constraints m2 → kc ∈ m_constraints m) ∧
    (∀ kc, kc ∈ m_constraints m3 → kc ∈ m_constraints m).
Proof.
  intros (m1 & m2 & m3 & H1 & H2 & H3 & H4)%build_model_Ok.
  exists m1, m2, m3.
  destruct (core_model_sets _ _ _ H1) as (E1 & S1 & s1 & t1 & F1 & _).
  destruct (type1_cell_sets _ _ _ H2)
    as (E2 & S2 & s2 & t2 & F2 & O2 & vs2 & cs2 & V2 & C2).
  destruct (type2_cell_sets _ _ _ H3)
    as (E3 & S3 & s3 & t3 & F3 & O3 & vs3 & cs3 & V3 & C3).
  destruct (cvar_cell_sets _ _ _ H4)
    as (E4 & S4 & s4 & t4 & F4 & O4 & vs4 & cs4 & V4 & C4).
  repeat split; try done; try congruence.
  - intros vd Hvd. rewrite V4, V3, V2, !elem_of_app. auto.
  - intros vd Hvd. rewrite V4, V3, !elem_of_app. auto.
  - intros kc Hkc. rewrite C4, C3, C2, !elem_of_app. auto.
  - intros kc Hkc. rewrite C4, C3, !elem_of_app. auto.
  - intros kc Hkc. rewrite C4, !elem_of_app. auto.
Qed.

(** ** A required probability of one *)

Lemma inject_Z_of_nat_S (n : nat) :
  (inject_Z (Z.of_nat (S n)) == 1 + inject_Z (Z.of_nat n))%Q.
Proof. rewrite Nat2Z.inj_succ, <- Z.add_1_l, inject_Z_plus. reflexivity. Qed.

Lemma Qsum_le_length (l : list Q) :
  (∀ q, q ∈ l → (q <= 1)%Q) → (Qsum l <= inject_Z (Z.of_nat (length l)))%Q.
Proof.
  induction l as [|q l IH]; intros Hl.
  - rewrite Qsum_nil. apply Qle_refl.
  - rewrite Qsum_cons. cbn [length]. rewrite inject_Z_of_nat_S.
    assert (q <= 1)%Q by (apply Hl; by left).
    assert (Qsum l <= inject_Z (Z.of_nat (length l)))%Q.
    { apply IH. intros q' Hq'. apply Hl. by right. }
    lra.
Qed.

(** Numbers that are at most one and add up to their count are all one. *)
Lemma Qsum_all_one (l : list Q) :
  (∀ q, q ∈ l → (q <= 1)%Q) →
  (inject_Z (Z.of_nat (length l)) <= Qsum l)%Q →
  ∀ q, q ∈ l → (q == 1)%Q.
Proof.
  induction l as [|q0 l IH]; intros Hl Hsum q Hq; [by apply elem_of_nil in Hq|].
  rewrite Qsum_cons in Hsum. cbn [length] in Hsum.
  rewrite inject_Z_of_nat_S in Hsum.
  assert (q0 <= 1)%Q by (apply Hl; by left).
  assert (Qsum l <= inject_Z (Z.of_nat (length l)))%Q.
  { apply Qsum_le_length. intros q' Hq'. apply Hl. by right. }
  apply elem_of_cons in Hq as [->|Hq]; [lra|].
  apply IH; [|lra|done]. intros q' Hq'. apply Hl. by right.
Qed.

Lemma Qdiv_mult_cancel (x d : Q) : ¬ (d == 0)%Q → (x / d * d == x)%Q.
Proof. intros Hd. rewrite Qmult_comm. by apply Qmult_div_r. Qed.

Lemma Qdiv_ge_one (x d : Q) : (0 < d)%Q → (1 <= x / d)%Q → (d <= x)%Q.
Proof.
  intros Hd Hx.
  assert (1 * d <= x / d * d)%Q as Hm by (apply Qmult_le_compat_r; lra).
  rewrite Qdiv_mult_cancel in Hm by lra. lra.
Qed.

Lemma Qdiv_ge_one_nonneg (y b : Q) :
  ¬ (b == 0)%Q → (0 <= y)%Q → (1 <= y / b)%Q → (b <= y)%Q.
Proof.
  intros Hb Hy Hdiv. destruct (Qlt_le_dec 0 b) as [Hpos|Hneg].
  - by apply Qdiv_ge_one.
  - lra.
Qed.

Lemma num_scenarios_Q_pos (c : config) :
  ¬ (num_scenarios_Q c == 0)%Q → (0 < num_scenarios_Q c)%Q.
Proof.
  unfold num_scenarios_Q. intros Hne.
  assert (0 <= inject_Z (Z.of_nat (num_scenarios c)))%Q.
  { change 0%Q with (inject_Z 0). rewrite <- Zle_Qle. lia. }
  lra.
Qed.

(** C4: when the required probability [α_i] of a Type-I constraint is one,
    every feasible point of the assembled model has [indicator[ω, i] = 1] and
    [y[t, s, ω] >= b_i] in every scenario [ω]. *)
Theorem alpha_one_is_worst_case (c : config) (xi : xi_table) (m : model)
    (σ : assignment) (i : nat) (a b : Q) :
  build_model c xi = Ok m →
  feasible m σ →
  perf_thresholds c !! i = Some b →
  alpha_thresholds c !! i = Some a →
  (a == 1)%Q →
  ∀ ω, (ω < num_scenarios c)%nat →
    (σ (Vindicator ω i) == 1)%Q ∧ (b <= σ (Vy (sink c, source c) ω))%Q.
Proof.
  intros Hbuild (Hdom & Hsat & _) Hb Ha Ha1 ω Hω.
  destruct (build_model_layout _ _ _ Hbuild)
    as (m1 & m2 & m3 & H1 & H2 & _ & _ & _ & _ & _ & _ & _ & _ & Hv1 & Hv2 & _ & Hc2 & _).
  destruct (core_model_sets _ _ _ H1) as (_ & HΩ & Hs & Ht & _).
  pose proof (core_model_vars _ _ _ H1) as Hvars1.
  destruct (type1_cell_Ok _ _ _ H2) as (cs1 & cs2 & Hm2 & Hcs1 & Hcs2).
  set (m2' := add_vars _ _) in Hm2, Hcs1, Hcs2.
  assert (Hi : i ∈ range (length (perf_thresholds c))).
  { apply elem_of_range. by eapply lookup_lt_Some. }
  assert (Hωin : ω ∈ m_scenarios m1).
  { rewrite HΩ. by apply elem_of_range. }
  (* all indicators of constraint [i] are binary, hence at most one *)
  assert (Hbin : ∀ ω', ω' ∈ m_scenarios m1 →
            (σ (Vindicator ω' i) == 0)%Q ∨ (σ (Vindicator ω' i) == 1)%Q).
  { intros ω' Hω'. apply (Hdom (Vindicator ω' i) Binary), Hv2.
    rewrite Hm2. simpl. rewrite elem_of_app. right.
    unfold type1_vars, PyomoVar. simpl. apply list_elem_of_fmap.
    exists (ω', i). split; [done|]. by apply elem_of_list_prod. }
  (* the aggregate row *)
  destruct (Forall2_elem_of_l _ _ _ i Hcs2 Hi) as (kc & Hkc & r & Hr & ->).
  apply con_type1_service_level_Ok in Hr as (a' & lhs & Ha' & Hr & HS & Hlhs).
  symmetry in Hr. apply py_rel_Relational in Hr as ->.
  assert (a' = a) as -> by congruence.
  assert (Hagg : sat σ (Constr lhs Rge (Num a))).
  { apply (Hsat (ConType1ServiceLevel i)), Hc2. rewrite Hm2. in_constraints. }
  change (m_scenarios m2') with (m_scenarios m1) in Hlhs.
  unfold sat in Hagg. cbn [c_lhs c_rhs c_rel Qrel eval] in Hagg.
  rewrite Hlhs, HΩ in Hagg.
  apply num_scenarios_Q_pos in HS as HSpos.
  assert (Hone : ∀ q, q ∈ (λ ω', σ (Vindicator ω' i)) <$> m_scenarios m1 → (q == 1)%Q).
  { apply Qsum_all_one.
    - intros q (ω' & -> & Hω')%list_elem_of_fmap.
      destruct (Hbin ω' Hω') as [-> | ->]; lra.
    - rewrite length_fmap, HΩ. unfold range. rewrite length_seq.
      fold (range (num_scenarios c)). fold (num_scenarios_Q c).
      apply Qdiv_ge_one; [done|]. lra. }
  assert (HI : (σ (Vindicator ω i) == 1)%Q).
  { apply Hone, list_elem_of_fmap. by exists ω. }
  split; [done|].
  (* the row of scenario [ω] *)
  destruct (Forall2_elem_of_l _ _ _ (ω, i) Hcs1) as (kc' & Hkc' & r & Hr & ->).
  { by apply elem_of_list_prod. }
  apply con_indicator_Ok in Hr as (b' & Hb' & Hb0 & Hdecl & [= ->]).
  simpl in Hb'. assert (b' = b) as -> by congruence.
  simpl in Hdecl, Hkc'. rewrite Ht, Hs in Hdecl, Hkc'.
  assert (Hrow : sat σ (Constr (EVar (Vindicator ω i)) Rle
                               (Div (EVar (Vy (sink c, source c) ω)) b))).
  { apply (Hsat (ConIndicator ω i)), Hc2. rewrite Hm2. in_constraints. }
  unfold sat in Hrow. simpl in Hrow.
  assert (Hy : (0 <= σ (Vy (sink c, source c) ω))%Q).
  { apply declared_elem_of in Hdecl as [d Hd].
    simpl in Hd. rewrite elem_of_app in Hd. destruct Hd as [Hd|Hd].
    - apply (Hdom _ NonNegativeReals), Hv1.
      rewrite Hvars1 in Hd |- *. unfold PyomoVar in Hd |- *.
      rewrite elem_of_app, !list_elem_of_fmap in Hd.
      destruct Hd as [(e & [=] & _)|(k & [= Hk ->] & Hin)]. 
      rewrite elem_of_app. right. apply list_elem_of_fmap.
      exists k. by rewrite <- Hk.
    - unfold type1_vars, PyomoVar in Hd.
      by apply list_elem_of_fmap in Hd as (k & [=] & _). }
  apply Qdiv_ge_one_nonneg; [done|done|]. lra.
Qed.

(** ** The two solves *)

Lemma declared_mono (m m' : model) (v : var) :
  (∀ vd, vd ∈ m_vars m → vd ∈ m_vars m') →
  declared m v = true → declared m' v = true.
Proof.
  intros Hsub [d Hd]%declared_elem_of. apply declared_elem_of.
  exists d. by apply Hsub.
Qed.

Lemma declared_same_vars (m m' : model) (v : var) :
  m_vars m' = m_vars m → declared m' v = declared m v.
Proof. unfold declared. by intros ->. Qed.

Lemma foldl_fix_value (σ : assignment) (l : list edge) (m : model) :
  let m' := foldl (λ m e, fix_value (Vx e) (σ (Vx e)) m) m l in
  m_vars m' = m_vars m ∧ m_constraints m' = m_constraints m ∧
  m_objectives m' = m_objectives m ∧
  m_edges m' = m_edges m ∧ m_scenarios m' = m_scenarios m ∧
  m_s m' = m_s m ∧ m_t m' = m_t m ∧
  m_fixed m' = m_fixed m ++ ((λ e, (Vx e, σ (Vx e))) <$> l).
Proof.
  revert m. induction l as [|e l IH]; intros m; simpl.
  - by rewrite app_nil_r.
  - destruct (IH (fix_value (Vx e) (σ (Vx e)) m))
      as (-> & -> & -> & -> & -> & -> & -> & ->).
    simpl. by rewrite <- app_assoc.
Qed.

(** C2: when the first solve loads a feasible point [σ] into the assembled
    model, the code between the two solves succeeds; it leaves the variables
    and the constraints as they are, fixes every [x[e]] at [σ(x[e])], leaves
    as the only active objective the maximisation of
    [sum_ω y[t, s, ω] / num_scenarios], and [σ] is feasible for the model
    handed to the second solve. *)
Theorem second_phase_inherits_feasible_point (c : config) (xi : xi_table)
    (m : model) (solve : model → option assignment) (σ : assignment) :
  build_model c xi = Ok m →
  solve m = Some σ →
  feasible m σ →
  ∃ m2 o,
    solve_cell c solve m = Ok (Some (σ, m2, solve m2)) ∧
    m_vars m2 = m_vars m ∧
    m_constraints m2 = m_constraints m ∧
    m_fixed m2 = (λ e, (Vx e, σ (Vx e))) <$> dict_keys (edges c) ∧
    active_objectives m2
    = [ {| o_name := ObjMaxFlow; o_sense := maximize;
           o_expr := o; o_active := true |} ] ∧
    (∀ σ', (eval σ' o ==
            Qsum ((λ ω, σ' (Vy (sink c, source c) ω)) <$> range (num_scenarios c))
            / num_scenarios_Q c)%Q) ∧
    feasible m2 σ.
Proof.
  intros Hbuild Hsolve (Hdom & Hsat & Hfix).
  destruct (build_model_layout _ _ _ Hbuild)
    as (m1 & m2 & m3 & H1 & H2 & H3 & _ & HE & HΩ & Hs & Ht & HF & HO
        & _ & Hv2 & _).
  destruct (core_model_sets _ _ _ H1) as (_ & _ & _ & _ & _ & o1 & Ho1).
  destruct (type1_cell_sets _ _ _ H2) as (_ & HΩ2 & Hs2 & Ht2 & _).
  destruct (core_model_sets _ _ _ H1) as (_ & HΩ1 & Hs1 & Ht1 & _).
  destruct (type2_cell_Ok _ _ _ H3) as (k & Hk & _).
  apply con_type2_service_level_Ok in Hk as (_ & _ & HS & Hdecl & _).
  rewrite HΩ2, HΩ1, Hs2, Ht2, Hs1, Ht1 in Hdecl.
  set (mf := fix_x σ m).
  destruct (foldl_fix_value σ (m_edges m) m)
    as (Vf & Cf & Of & Ef & Ωf & sf & tf & Ff).
  fold (fix_x σ m) in Vf, Cf, Of, Ef, Ωf, sf, tf, Ff.
  fold mf in Vf, Cf, Of, Ef, Ωf, sf, tf, Ff.
  set (md := deactivate ObjMinBudget mf).
  assert (Hys : mapM (λ ω, get_var md (Vy (m_t md, m_s md) ω)) (m_scenarios md)
                = Ok (EVar <$> ((λ ω, Vy (sink c, source c) ω)
                                <$> range (num_scenarios c)))).
  { change (m_t md) with (m_t mf). change (m_s md) with (m_s mf).
    change (m_scenarios md) with (m_scenarios mf).
    rewrite tf, sf, Ωf, Ht, Hs, HΩ.
    apply mapM_get_var_declared. intros ω Hω.
    change (declared md ?v) with (declared mf v).
    rewrite (declared_same_vars m mf) by done.
    apply (declared_mono m2); [done|]. by apply Hdecl. }
  destruct (py_div_is_Ok
              (py_sum (EVar <$> ((λ ω, Vy (sink c, source c) ω)
                                 <$> range (num_scenarios c))))
              (num_scenarios_Q c) HS) as [o Ho].
  assert (Hphase : second_phase c σ m
     = Ok (set_objectives
             (m_objectives md ++
                [ {| o_name := ObjMaxFlow; o_sense := maximize;
                     o_expr := o; o_active := true |} ]) md)).
  { unfold second_phase. fold mf. fold md. unfold obj_max_flow.
    rewrite Hys. simpl. rewrite Ho. done. }
  eexists _, o. split.
  { unfold solve_cell. rewrite Hsolve, Hphase. reflexivity. }
  simpl. split; [done|]. split; [done|]. split.
  { rewrite Ff, HF, HE. done. }
  split.
  { unfold active_objectives. simpl. rewrite Of, HO, Ho1. done. }
  split.
  { intros σ'. destruct (py_div_Ok _ _ _ Ho) as [_ Heval].
    by rewrite Heval, eval_sum_vars. }
  split; [|split]; simpl.
  - intros v d. rewrite Vf. apply Hdom.
  - intros k' r. rewrite Cf. apply Hsat.
  - intros v q. rewrite Ff, HF. simpl.
    intros (e & [= -> ->] & _)%list_elem_of_fmap. reflexivity.
Qed.

(** ** Configurations the cells reject *)

Lemma bind_raises {A B} (r : result A) (f : A → result B) :
  (∀ a, ∃ e, f a = Raise e) → ∃ e, r ≫= f = Raise e.
Proof. intros Hf. destruct r as [a|e]; simpl; [apply Hf|by exists e]. Qed.

Lemma bind_raises_l {A B} (r : result A) (f : A → result B) :
  (∃ e, r = Raise e) → ∃ e, r ≫= f = Raise e.
Proof. intros [e ->]. by exists e. Qed.

Lemma xi_loop_raises {G} `{RandomGen G} (c : config)
    (ks : list (edge * nat)) (k : edge * nat) :
  k ∈ ks → (∀ g, ∃ e, xi_value c k.1 g = Raise e) →
  ∀ st, ∃ e, xi_loop c ks st = Raise e.
Proof.
  intros Hk Hraise. induction ks as [|k' ks IH]; intros st;
    [by apply elem_of_nil in Hk|].
  simpl. unfold xi_step at 1.
  destruct (decide (k' = k)) as [->|Hne].
  - destruct (Hraise st.2) as [e ->]. by exists e.
  - apply elem_of_cons in Hk as [->|Hk]; [done|].
    destruct (xi_value c k'.1 st.2) as [[v g']|e]; simpl; [by apply IH|by exists e].
Qed.

Lemma type2_cell_raises (c : config) (m : model) :
  num_scenarios c = 0%nat → ∃ e, type2_cell c m = Raise e.
Proof.
  intros HS. unfold type2_cell. apply bind_raises_l.
  apply PyomoConstraint_Raise with (i := ()); [by left|].
  unfold con_type2_service_level. apply bind_raises. intros ys.
  rewrite py_div_zero; [by eexists|].
  unfold num_scenarios_Q. by rewrite HS.
Qed.

Lemma type1_cell_raises (c : config) (m : model) :
  (length (alpha_thresholds c) < length (perf_thresholds c))%nat →
  ∃ e, type1_cell c m = Raise e.
Proof.
  intros Hlen. unfold type1_cell. apply bind_raises. intros cs1.
  apply bind_raises_l.
  apply PyomoConstraint_Raise with (i := length (alpha_thresholds c)).
  { simpl. by apply elem_of_range. }
  unfold con_type1_service_level. apply bind_raises. intros inds.
  apply bind_raises. intros lhs. unfold list_get.
  rewrite (lookup_ge_None_2 (alpha_thresholds c)) by done. by eexists.
Qed.

Lemma cvar_cell_raises (c : config) (m : model) :
  (length (cvar_epsilons c) < length (cvar_thresholds c))%nat →
  ∃ e, cvar_cell c m = Raise e.
Proof.
  intros Hlen. unfold cvar_cell. apply bind_raises_l.
  apply PyomoConstraint_Raise with (i := length (cvar_epsilons c)).
  { simpl. by apply elem_of_range. }
  unfold con_cvar_main. apply bind_raises. intros b.
  apply bind_raises. intros nus. unfold list_get.
  rewrite (lookup_ge_None_2 (cvar_epsilons c)) by done. by eexists.
Qed.

Lemma build_model_raises (c : config) (xi : xi_table) :
  num_scenarios c = 0%nat ∨
  (length (alpha_thresholds c) < length (perf_thresholds c))%nat ∨
  (length (cvar_epsilons c) < length (cvar_thresholds c))%nat →
  ∃ e, build_model c xi = Raise e.
Proof.
  intros Hbad. unfold build_model. apply bind_raises. intros m1.
  destruct Hbad as [HS|[Hα|Hε]].
  - apply bind_raises. intros m2. apply bind_raises_l. by apply type2_cell_raises.
  - apply bind_raises_l. by apply type1_cell_raises.
  - apply bind_raises. intros m2. apply bind_raises. intros m3.
    by apply cvar_cell_raises.
Qed.

(** C7, as the code has it: the cells contain no validation, and an edge
    that references a node outside [nodes] is not detected.  Assembly does
    stop with a Python exception, before any solve, when [num_scenarios] is 0,
    when an edge other than [(source, sink)] has a negative capacity and
    there is at least one scenario, when [alpha_thresholds] has fewer entries
    than [perf_thresholds], and when [cvar_epsilons] has fewer entries than
    [cvar_thresholds]. *)
Theorem assemble_raises {G} `{RandomGenSound G} (c : config) (g : G) :
  num_scenarios c = 0%nat ∨
  (∃ e cap, dict_get (edges c) e = Ok cap ∧ cap < 0 ∧
            e ≠ (source c, sink c) ∧ num_scenarios c ≠ 0%nat) ∨
  (length (alpha_thresholds c) < length (perf_thresholds c))%nat ∨
  (length (cvar_epsilons c) < length (cvar_thresholds c))%nat →
  ∃ e, assemble c g = Raise e.
Proof.
  intros Hbad. unfold assemble.
  destruct Hbad as [HS|[(e & cap & Hcap & Hneg & Hne & HS)|Hlen]].
  - apply bind_raises. intros [xi g']. apply build_model_raises. by left.
  - apply bind_raises_l. unfold gen_xi.
    apply xi_loop_raises with (k := (e, 0%nat)).
    + apply elem_of_xi_keys. split; [|lia]. apply dict_get_keys. by exists cap.
    + intros g0. simpl. rewrite xi_value_other, Hcap by done. simpl.
      exists ValueError. by apply randint_empty.
  - apply bind_raises. intros [xi g']. apply build_model_raises. by right.
Qed.

Lemma assemble_Ok {G} `{RandomGen G} (c : config) (g : G) (m : model) :
  assemble c g = Ok m ↔
  ∃ xi g', gen_xi c g = Ok (xi, g') ∧ build_model c xi = Ok m.
Proof.
  unfold assemble. rewrite bind_Ok. split.
  - intros ([xi g'] & Hxi & Hm). by exists xi, g'.
  - intros (xi & g' & Hxi & Hm). by exists (xi, g').
Qed.

(** ** Configurations the cells accept *)

Lemma bind_Ok_l {A B} (a : A) (f : A → result B) : Ok a ≫= f = f a.
Proof. reflexivity. Qed.

(** Step over a part of a cell that has been shown to succeed. *)
Ltac ok_step := rewrite bind_Ok_l; cbv beta.

Lemma mapM_is_Ok {A B} (f : A → result B) (l : list A) :
  (∀ a, a ∈ l → ∃ b, f a = Ok b) → ∃ k, mapM f l = Ok k.
Proof.
  induction l as [|a l IH]; intros Hf; simpl; [by eexists|].
  destruct (Hf a) as [b ->]; [by left|]. simpl.
  destruct IH as [k ->]; [intros a' Ha'; apply Hf; by right|].
  by eexists.
Qed.

Lemma PyomoConstraint_is_Ok {I} (index : list I) (key : I → con_key)
    (rule : I → result rule_value) :
  (∀ i, i ∈ index → ∃ k, rule i = Ok (Relational k)) →
  ∃ cs, PyomoConstraint index key rule = Ok cs.
Proof.
  intros Hrule. apply mapM_is_Ok. intros i Hi.
  destruct (Hrule i Hi) as [k ->]. by eexists.
Qed.

Lemma py_div_not_Num (a e : expr) (q : Q) :
  py_div a q = Ok e → is_Num a = false → is_Num e = false.
Proof.
  unfold py_div. destruct (Qis_zero q); [done|].
  destruct a; try done; by intros [= <-].
Qed.

Lemma declared_add_vars (vs : list (var * domain)) (m : model) (v : var) :
  declared (add_vars vs m) v = true ↔
  declared m v = true ∨ ∃ d, (v, d) ∈ vs.
Proof.
  rewrite !declared_elem_of. simpl. split.
  - intros (d & [Hd|Hd]%elem_of_app); [left|right]; by exists d.
  - intros [(d & Hd)|(d & Hd)]; exists d; apply elem_of_app; auto.
Qed.

Lemma core_components_declared_x (c : config) (xi : xi_table) (e : edge) :
  e ∈ dict_keys (edges c) → declared (core_components c xi) (Vx e) = true.
Proof.
  intros He. apply declared_elem_of. exists NonNegativeReals. simpl.
  apply elem_of_app. left. apply list_elem_of_fmap. by exists e.
Qed.

Lemma core_components_declared_y (c : config) (xi : xi_table) (e : edge) (ω : nat) :
  e ∈ dict_keys (edges c) → ω ∈ range (num_scenarios c) →
  declared (core_components c xi) (Vy e ω) = true.
Proof.
  intros He Hω. apply declared_elem_of. exists NonNegativeReals. simpl.
  apply elem_of_app. right. apply list_elem_of_fmap. exists (e, ω).
  split; [done|]. by apply elem_of_list_prod.
Qed.

(** The core model is built when no node is isolated and [xi] covers every
    edge and scenario. *)
Lemma core_model_is_Ok (c : config) (xi : xi_table) :
  (∀ n, n ∈ nodes c → ∃ e, e ∈ dict_keys (edges c) ∧ (e.1 = n ∨ e.2 = n)) →
  (∀ e ω, e ∈ dict_keys (edges c) → (ω < num_scenarios c)%nat →
          is_Some (xi !! (e, ω))) →
  ∃ m, core_model c xi = Ok m.
Proof.
  intros Hnodes Hxi. unfold core_model.
  set (m0 := core_components c xi).
  destruct (PyomoConstraint_is_Ok
              (list_prod (m_nodes m0) (m_scenarios m0))
              (λ k, ConFlowBalance k.1 k.2)
              (λ k, con_flow_balance m0 k.1 k.2)) as [cs1 ->].
  { intros [n ω] [Hn Hω]%elem_of_list_prod. simpl in *.
    unfold con_flow_balance.
    rewrite !mapM_get_var_declared.
    2,3: intros e [_ He]%list_elem_of_filter;
         by apply core_components_declared_y.
    do 2 ok_step. destruct (Hnodes n Hn) as (e & He & [He1|He2]).
    - rewrite py_rel_not_Num_r; [by eexists|].
      apply py_sum_vars_not_Num. intros Hnil%fmap_nil_inv.
      assert (e ∈ filter (λ e : edge, e.1 = n) (dict_keys (edges c))) as Hin
        by (by apply list_elem_of_filter).
      simpl in Hnil. rewrite Hnil in Hin. by apply elem_of_nil in Hin.
    - rewrite py_rel_not_Num_l; [by eexists|].
      apply py_sum_vars_not_Num. intros Hnil%fmap_nil_inv.
      assert (e ∈ filter (λ e : edge, e.2 = n) (dict_keys (edges c))) as Hin
        by (by apply list_elem_of_filter).
      simpl in Hnil. rewrite Hnil in Hin. by apply elem_of_nil in Hin. }
  ok_step.
  destruct (PyomoConstraint_is_Ok
              (list_prod (m_edges m0) (m_scenarios m0))
              (λ k, ConMaxFlowCapacity k.1 k.2)
              (λ k, con_max_flow_capacity m0 k.1 k.2)) as [cs2 ->].
  { intros [e ω] [He Hω]%elem_of_list_prod. simpl in *.
    unfold con_max_flow_capacity, get_flow_capacity.
    rewrite get_var_declared by (by apply core_components_declared_y).
    ok_step. change (m_flow_capacity m0) with (edges c).
    apply dict_get_keys in He as [cap ->]. by eexists. }
  ok_step.
  destruct (PyomoConstraint_is_Ok
              (list_prod (m_edges m0) (m_scenarios m0))
              (λ k, ConEffFlowCapacity k.1 k.2)
              (λ k, con_eff_flow_capacity m0 k.1 k.2)) as [cs3 ->].
  { intros [e ω] [He Hω]%elem_of_list_prod. simpl in *.
    unfold con_eff_flow_capacity, get_xi.
    rewrite (get_var_declared m0 (Vy e ω))
      by (by apply core_components_declared_y).
    ok_step. change (m_xi m0) with xi.
    destruct (Hxi e ω) as [v ->]; [done|by apply elem_of_range|].
    ok_step. rewrite (get_var_declared m0 (Vx e))
      by (by apply core_components_declared_x).
    by eexists. }
  ok_step. unfold obj_min_budget.
  rewrite mapM_get_var_declared
    by (intros e He; by apply core_components_declared_x).
  ok_step. by eexists.
Qed.

Section Accept.
Variable c : config.
Variable m : model.
Hypothesis scenarios_nonempty : m_scenarios m ≠ [].
Hypothesis num_scenarios_nonzero : ¬ (num_scenarios_Q c == 0)%Q.
Hypothesis return_flow_declared :
  ∀ ω, ω ∈ m_scenarios m → declared m (Vy (m_t m, m_s m) ω) = true.

Lemma type1_cell_is_Ok :
  (∀ i b, perf_thresholds c !! i = Some b → ¬ (b == 0)%Q) →
  (length (perf_thresholds c) ≤ length (alpha_thresholds c))%nat →
  ∃ m', type1_cell c m = Ok m'.
Proof.
  intros Hperf Hlen. unfold type1_cell.
  set (m1 := set_type1_con_set _ m). set (m2 := add_vars _ m1).
  assert (Hind : ∀ ω i, ω ∈ m_scenarios m → i ∈ range (length (perf_thresholds c)) →
                 declared m2 (Vindicator ω i) = true).
  { intros ω i Hω Hi. apply declared_add_vars. right. exists Binary.
    unfold type1_vars, PyomoVar. apply list_elem_of_fmap. exists (ω, i).
    split; [done|]. by apply elem_of_list_prod. }
  destruct (PyomoConstraint_is_Ok
              (list_prod (m_scenarios m2) (m_type1_con_set m2))
              (λ k, ConIndicator k.1 k.2)
              (λ k, con_indicator c m2 k.1 k.2)) as [cs1 ->].
  { intros [ω i] [Hω Hi]%elem_of_list_prod. simpl in *.
    unfold con_indicator.
    rewrite (get_var_declared m2 (Vindicator ω i)) by (by apply Hind).
    ok_step. change (m_t m2) with (m_t m). change (m_s m2) with (m_s m).
    rewrite (get_var_declared m2 (Vy (m_t m, m_s m) ω))
      by (apply declared_add_vars; left; by apply return_flow_declared).
    ok_step. apply elem_of_range, lookup_lt_is_Some in Hi as [b Hb].
    unfold list_get. rewrite Hb. ok_step.
    rewrite py_div_var by (by eapply Hperf). ok_step. by eexists. }
  ok_step.
  destruct (PyomoConstraint_is_Ok (m_type1_con_set m2) ConType1ServiceLevel
              (con_type1_service_level c m2)) as [cs2 ->].
  { intros i Hi. simpl in Hi. unfold con_type1_service_level.
    change (m_scenarios m2) with (m_scenarios m).
    rewrite mapM_get_var_declared by (intros ω Hω; by apply Hind). ok_step.
    destruct (py_div_is_Ok
                (py_sum (EVar <$> ((λ ω, Vindicator ω i) <$> m_scenarios m)))
                (num_scenarios_Q c) num_scenarios_nonzero) as [lhs Hlhs].
    rewrite Hlhs. ok_step.
    apply elem_of_range in Hi.
    destruct (lookup_lt_is_Some_2 (alpha_thresholds c) i) as [a Ha]; [lia|].
    unfold list_get. rewrite Ha. ok_step.
    rewrite py_rel_not_Num_l; [by eexists|].
    apply (py_div_not_Num _ _ _ Hlhs), py_sum_vars_not_Num.
    by intros ?%fmap_nil_inv. }
  ok_step. by eexists.
Qed.

Lemma type2_cell_is_Ok : ∃ m', type2_cell c m = Ok m'.
Proof.
  unfold type2_cell.
  destruct (PyomoConstraint_is_Ok [()] (λ _, ConType2ServiceLevel)
              (λ _, con_type2_service_level c m)) as [cs ->]; [|by eexists].
  intros _ _. unfold con_type2_service_level.
  rewrite mapM_get_var_declared by done. ok_step.
  match goal with
  | |- context [py_div ?a ?q] =>
      destruct (py_div_is_Ok a q num_scenarios_nonzero) as [lhs Hlhs]
  end.
  rewrite Hlhs. ok_step.
  rewrite py_rel_not_Num_l; [by eexists|].
  apply (py_div_not_Num _ _ _ Hlhs), py_sum_vars_not_Num.
  by intros ?%fmap_nil_inv.
Qed.

Lemma cvar_cell_is_Ok :
  (∀ i ε, (i < length (cvar_thresholds c))%nat →
          cvar_epsilons c !! i = Some ε → ¬ (ε == 0)%Q) →
  (length (cvar_thresholds c) ≤ length (cvar_epsilons c))%nat →
  ∃ m', cvar_cell c m = Ok m'.
Proof.
  intros Heps Hlen. unfold cvar_cell.
  set (m1 := set_cvar_con_set _ m). set (m2 := add_vars _ m1).
  assert (Hbeta : ∀ i, i ∈ range (length (cvar_thresholds c)) →
                  declared m2 (Vcvar_beta i) = true).
  { intros i Hi. apply declared_add_vars. right. exists Reals.
    unfold cvar_vars, PyomoVar. apply elem_of_app. left.
    apply list_elem_of_fmap. by exists i. }
  assert (Hnu : ∀ ω i, ω ∈ m_scenarios m → i ∈ range (length (cvar_thresholds c)) →
                declared m2 (Vcvar_nu ω i) = true).
  { intros ω i Hω Hi. apply declared_add_vars. right. exists NonNegativeReals.
    unfold cvar_vars, PyomoVar. apply elem_of_app. right.
    apply list_elem_of_fmap. exists (ω, i).
    split; [done|]. by apply elem_of_list_prod. }
  destruct (PyomoConstraint_is_Ok (m_cvar_con_set m2) ConCvarMain
              (con_cvar_main c m2)) as [cs1 ->].
  { intros i Hi. simpl in Hi. unfold con_cvar_main.
    change (m_scenarios m2) with (m_scenarios m).
    rewrite (get_var_declared m2 (Vcvar_beta i)) by (by apply Hbeta). ok_step.
    rewrite mapM_get_var_declared by (intros ω Hω; by apply Hnu). ok_step.
    apply elem_of_range in Hi.
    destruct (lookup_lt_is_Some_2 (cvar_epsilons c) i) as [ε Hε]; [lia|].
    destruct (lookup_lt_is_Some_2 (cvar_thresholds c) i) as [ζ Hζ]; [lia|].
    unfold list_get. rewrite Hε. ok_step.
    destruct (py_div_is_Ok
                (py_sum (EVar <$> ((λ ω, Vcvar_nu ω i) <$> m_scenarios m)))
                (num_scenarios_Q c * ε)) as [q Hq].
    { intros Hz. apply Qmult_integral in Hz as [Hz|Hz]; [done|].
      by apply (Heps i ε). }
    rewrite Hq. ok_step. rewrite Hζ. ok_step. by eexists. }
  ok_step.
  destruct (PyomoConstraint_is_Ok
              (list_prod (m_scenarios m2) (m_cvar_con_set m2))
              (λ k, ConCvarAux k.1 k.2)
              (λ k, con_cvar_aux c m2 k.1 k.2)) as [cs2 ->].
  { intros [ω i] [Hω Hi]%elem_of_list_prod. simpl in *.
    unfold con_cvar_aux.
    change (m_t m2) with (m_t m). change (m_s m2) with (m_s m).
    rewrite (get_var_declared m2 (Vy (m_t m, m_s m) ω))
      by (apply declared_add_vars; left; by apply return_flow_declared).
    ok_step. rewrite (get_var_declared m2 (Vcvar_nu ω i)) by (by apply Hnu).
    ok_step. rewrite (get_var_declared m2 (Vcvar_beta i)) by (by apply Hbeta).
    ok_step. by eexists. }
  ok_step. by eexists.
Qed.
End Accept.

(** All cells succeed on a configuration with at least one scenario, no
    isolated node, the return edge [(sink, source)] in the network, non-zero
    performance bounds and confidence levels, and parameter lists that are
    long enough. *)
Lemma build_model_is_Ok (c : config) (xi : xi_table) :
  num_scenarios c ≠ 0%nat →
  (∀ n, n ∈ nodes c → ∃ e, e ∈ dict_keys (edges c) ∧ (e.1 = n ∨ e.2 = n)) →
  (∀ e ω, e ∈ dict_keys (edges c) → (ω < num_scenarios c)%nat →
          is_Some (xi !! (e, ω))) →
  (sink c, source c) ∈ dict_keys (edges c) →
  (∀ i b, perf_thresholds c !! i = Some b → ¬ (b == 0)%Q) →
  (length (perf_thresholds c) ≤ length (alpha_thresholds c))%nat →
  (∀ i ε, (i < length (cvar_thresholds c))%nat →
          cvar_epsilons c !! i = Some ε → ¬ (ε == 0)%Q) →
  (length (cvar_thresholds c) ≤ length (cvar_epsilons c))%nat →
  ∃ m, build_model c xi = Ok m.
Proof.
  intros HS Hnodes Hxi Hts Hperf Hα Heps Hε.
  assert (HSQ : ¬ (num_scenarios_Q c == 0)%Q).
  { unfold num_scenarios_Q. change 0%Q with (inject_Z 0).
    rewrite inject_Z_injective. lia. }
  assert (HΩ : range (num_scenarios c) ≠ []).
  { unfold range. destruct (num_scenarios c); [done|]. done. }
  destruct (core_model_is_Ok c xi Hnodes Hxi) as [m1 H1].
  destruct (core_model_sets _ _ _ H1) as (E1 & S1 & s1 & t1 & _).
  assert (D1 : ∀ ω, ω ∈ m_scenarios m1 → declared m1 (Vy (m_t m1, m_s m1) ω) = true).
  { intros ω Hω. rewrite t1, s1. rewrite S1 in Hω.
    apply declared_elem_of. exists NonNegativeReals.
    rewrite (core_model_vars _ _ _ H1). apply elem_of_app. right.
    apply list_elem_of_fmap. exists ((sink c, source c), ω).
    split; [done|]. by apply elem_of_list_prod. }
  destruct (type1_cell_is_Ok c m1) as [m2 H2]; try done; [by rewrite S1|].
  destruct (type1_cell_sets _ _ _ H2) as (E2 & S2 & s2 & t2 & _ & _ & vs2 & _ & V2 & _).
  assert (D2 : ∀ ω, ω ∈ m_scenarios m2 → declared m2 (Vy (m_t m2, m_s m2) ω) = true).
  { intros ω Hω. rewrite t2, s2. rewrite S2 in Hω.
    apply (declared_mono m1); [|by apply D1].
    intros vd Hvd. rewrite V2. apply elem_of_app. by left. }
  destruct (type2_cell_is_Ok c m2) as [m3 H3]; try done; [by rewrite S2, S1|].
  destruct (type2_cell_sets _ _ _ H3) as (E3 & S3 & s3 & t3 & _ & _ & vs3 & _ & V3 & _).
  assert (D3 : ∀ ω, ω ∈ m_scenarios m3 → declared m3 (Vy (m_t m3, m_s m3) ω) = true).
  { intros ω Hω. rewrite t3, s3. rewrite S3 in Hω.
    apply (declared_mono m2); [|by apply D2].
    intros vd Hvd. rewrite V3. apply elem_of_app. by left. }
  destruct (cvar_cell_is_Ok c m3) as [m H4]; try done.
  exists m. apply build_model_Ok. by exists m1, m2, m3.
Qed.

(** The notebook's cells build the model whatever the generator draws. *)
Lemma notebook_assembles {G} `{RandomGenTotal G} (g : G) :
  ∃ m, assemble notebook g = Ok m.
Proof.
  destruct (xi_loop_total notebook (xi_keys notebook)) with (st := (∅ : xi_table, g))
    as [[xi g'] Hgen].
  { intros [e ω] g0 [He _]%elem_of_xi_keys. simpl.
    rewrite xi_value_other by (intros ->; by apply notebook_no_source_sink_edge).
    apply dict_get_keys in He as Hcap. destruct Hcap as [cap Hcap].
    rewrite Hcap. simpl. apply randint_total.
    by eapply notebook_capacity_nonneg. }
  destruct (build_model_is_Ok notebook xi) as [m Hm].
  - done.
  - intros n Hn. simpl in Hn. rewrite !elem_of_cons, elem_of_nil in Hn.
    destruct Hn as [->|[->|[->|[->|[->|[->|[]]]]]]];
      [exists (0, 1)|exists (0, 1)|exists (0, 2)
      |exists (1, 3)|exists (2, 4)|exists (4, 5)];
      (split; [apply (bool_decide_unpack _); by vm_compute|simpl; auto]).
  - intros e ω He Hω.
    destruct (gen_xi_lookup notebook g g' xi Hgen (e, ω)) as [Hin _].
    destruct Hin as (v & Hv & _); [by apply elem_of_xi_keys|]. by exists v.
  - apply (bool_decide_unpack _). by vm_compute.
  - intros i b Hb%list_elem_of_lookup_2 Hz. simpl in Hb.
    rewrite !elem_of_cons, elem_of_nil in Hb.
    destruct Hb as [->|[->|[->|[]]]]; discriminate Hz.
  - simpl. lia.
  - intros i ε _ Hε%list_elem_of_lookup_2 Hz. simpl in Hε.
    rewrite !elem_of_cons, elem_of_nil in Hε.
    destruct Hε as [->|[->|[]]]; discriminate Hz.
  - simpl. lia.
  - exists m. apply assemble_Ok. exists xi, g'. split; [exact Hgen|exact Hm].
Qed.

(** ** The Mersenne Twister *)

Module MT19937Facts.
Import MT19937.

Lemma u32_nonneg (z : Z) : 0 ≤ u32 z.
Proof. unfold u32. apply Z.mod_pos_bound. lia. Qed.

Lemma genrand_uint32_nonneg (g : state) : 0 ≤ (genrand_uint32 g).1.
Proof. unfold genrand_uint32. simpl. apply u32_nonneg. Qed.

Lemma getrandbits_words_nonneg (n : nat) (k : Z) (g : state) :
  0 ≤ (getrandbits_words n k g).1.
Proof.
  revert k g. induction n as [|n IH]; intros k g; [done|].
  cbn [getrandbits_words].
  pose proof (genrand_uint32_nonneg g) as Hr.
  destruct (genrand_uint32 g) as [r g1]. cbn [fst] in Hr.
  specialize (IH (k - 32) g1).
  destruct (getrandbits_words n (k - 32) g1) as [hi g2]. cbn [fst] in *.
  assert (0 ≤ Z.shiftl hi 32) by (by apply Z.shiftl_nonneg).
  case_decide; [|lia].
  assert (0 ≤ Z.shiftr r (32 - k)) by (by apply Z.shiftr_nonneg). lia.
Qed.

Lemma getrandbits_nonneg (k : Z) (g : state) : 0 ≤ (getrandbits k g).1.
Proof.
  unfold getrandbits. case_decide; [|apply getrandbits_words_nonneg].
  pose proof (genrand_uint32_nonneg g) as Hr.
  destruct (genrand_uint32 g) as [r g1]. cbn [fst] in *.
  by apply Z.shiftr_nonneg.
Qed.

Lemma randbelow_loop_range (fuel : nat) (n k r : Z) (g g' : state) :
  randbelow_loop fuel n k g = Some (r, g') → 0 ≤ r < n.
Proof.
  revert g. induction fuel as [|fuel IH]; intros g; [done|].
  cbn [randbelow_loop].
  pose proof (getrandbits_nonneg k g) as Hr.
  destruct (getrandbits k g) as [r1 g1]. cbn [fst] in Hr.
  case_decide; [|apply IH]. intros [= <- <-]. lia.
Qed.
End MT19937Facts.

(** Whatever the Mersenne Twister returns for [randint(a, b)] lies in
    [[a, b]], and an empty range raises [ValueError]. *)
#[export] Instance mt_sound : RandomGenSound MT19937.state.
Proof.
  split; unfold randint, mt_randint, MT19937.randint; intros a b g.
  - intros Hab. case_decide; [lia|done].
  - intros v g'. case_decide; [|done].
    destruct (MT19937.randbelow_loop _ _ _ g) as [[r g1]|] eqn:Hloop; [|done].
    intros [= <- <-]. apply MT19937Facts.randbelow_loop_range in Hloop. lia.
Qed.

(** ** The notebook's run with seed 0 *)

(** [notebook_seed] is stored as the state that the seeding computes. *)
Lemma notebook_seed_eq : notebook_seed = MT19937.seed 0.
Proof. by vm_compute. Qed.

(** The first 32-bit word after [random.seed(0)], and the first entry of [xi]. *)
Example seed_0_first_word :
  (MT19937.genrand_uint32 notebook_seed).1 = 3626764237.
Proof. by vm_compute. Qed.

Example seed_0_first_draw :
  (randint 0 16 notebook_seed ≫= λ r, mret r.1) = Ok 12.
Proof. by vm_compute. Qed.

(** The right-hand side of the Type-II row, [23 * 0.75]. *)
Example notebook_type2_bound :
  (perf_target notebook * beta_threshold notebook == 69 # 4)%Q.
Proof. reflexivity. Qed.

Lemma xi_return_edge_drawn {G} `{RandomGen G} (g g' : G) (tbl : xi_table) (ω : nat) :
  gen_xi notebook g = Ok (tbl, g') → (ω < 100)%nat →
  ∃ v g1 g2, tbl !! ((5, 0), ω) = Some v ∧ randint 0 99 g1 = Ok (v, g2).
Proof.
  intros Hgen Hω.
  destruct (gen_xi_lookup notebook g g' tbl Hgen ((5, 0), ω)) as [Hin _].
  destruct Hin as (v & Hv & g1 & g2 & Hdraw).
  { apply elem_of_xi_keys. split; [|done].
    apply (bool_decide_unpack _). by vm_compute. }
  exists v, g1, g2. split; [done|]. by rewrite xi_value_other in Hdraw.
Qed.

Lemma xi_entry_computed {G} `{RandomGen G} (c : config) (g : G)
    (k : edge * nat) (v : Z) :
  (st ← gen_xi c g; mret (st.1 !! k)) = Ok (Some v) →
  ∃ tbl g', gen_xi c g = Ok (tbl, g') ∧ tbl !! k = Some v.
Proof. intros ([tbl g'] & Hgen & [= Hv])%bind_Ok. by exists tbl, g'. Qed.

(** C1 (not met by the code): the return edge [(sink, source)] = (5, 0) has
    capacity 99, but the comprehension tests the iterated edge against
    [(source, sink)] = (0, 5), which is no edge of the network and no key of
    [edges]; so [xi[5, 0, ω]] is drawn like every other entry, and with the
    notebook's seed 0 the entry of scenario 0 is 24. *)
Theorem xi_return_edge_is_sampled :
  dict_get (edges notebook) (sink notebook, source notebook) = Ok 99 ∧
  dict_get (edges notebook) (source notebook, sink notebook) = Raise KeyError ∧
  (∀ e, e ∈ dict_keys (edges notebook) → e ≠ (source notebook, sink notebook)) ∧
  ∃ tbl g', gen_xi notebook notebook_seed = Ok (tbl, g') ∧
            tbl !! ((5, 0), 0%nat) = Some 24.
Proof.
  split; [reflexivity|]. split; [reflexivity|]. split.
  { intros e He ->. by apply notebook_no_source_sink_edge. }
  apply xi_entry_computed. vm_compute. reflexivity.
Qed.

Lemma feasibleb_sound (m : model) (σ : assignment) :
  feasibleb m σ = true → feasible m σ.
Proof.
  unfold feasibleb. rewrite !andb_true_iff, !forallb_forall.
  intros [[Hdom Hsat] Hfix]. split; [|split].
  - intros v d Hvd%list_elem_of_In. specialize (Hdom _ Hvd). simpl in Hdom.
    destruct d; simpl in *.
    + by apply Qle_bool_iff.
    + apply orb_true_iff in Hdom as [Hq|Hq]; apply Qeq_bool_iff in Hq; auto.
    + done.
  - intros k r Hkr%list_elem_of_In. specialize (Hsat _ Hkr).
    unfold satb, sat in *. simpl in Hsat.
    destruct (c_rel r); simpl in *.
    + by apply Qle_bool_iff.
    + by apply Qle_bool_iff.
    + by apply Qeq_bool_iff.
  - intros v q Hvq%list_elem_of_In. specialize (Hfix _ Hvq).
    by apply Qeq_bool_iff.
Qed.

(** A run of the cells together with a point that passes the check. *)
Lemma checked_run {G} `{RandomGen G} (c : config) (g : G) (σ : assignment) :
  (m ← assemble c g; mret (feasibleb m σ)) = Ok true →
  ∃ xi g' m1 m2 m3 m,
    gen_xi c g = Ok (xi, g') ∧
    core_model c xi = Ok m1 ∧ type1_cell c m1 = Ok m2 ∧
    type2_cell c m2 = Ok m3 ∧ cvar_cell c m3 = Ok m ∧
    build_model c xi = Ok m ∧
    feasible m σ.
Proof.
  intros (m & (xi & g' & Hxi & Hm)%assemble_Ok & [= Hfeas])%bind_Ok.
  destruct (proj1 (build_model_Ok _ _ _) Hm) as (m1 & m2 & m3 & H1 & H2 & H3 & H4).
  exists xi, g', m1, m2, m3, m. repeat split; try done.
  all: by apply feasibleb_sound.
Qed.

(** With seed 0 the cells assemble the model, and the flow of value 23 is a
    feasible point of it. *)
Lemma notebook_run :
  ∃ xi g' m1 m2 m3 m,
    gen_xi notebook notebook_seed = Ok (xi, g') ∧
    core_model notebook xi = Ok m1 ∧ type1_cell notebook m1 = Ok m2 ∧
    type2_cell notebook m2 = Ok m3 ∧ cvar_cell notebook m3 = Ok m ∧
    build_model notebook xi = Ok m ∧
    feasible m notebook_point.
Proof. apply checked_run. vm_compute. reflexivity. Qed.

(** ** The theorems at the notebook's own data *)

Lemma assemble_raises_witness :
  ∃ e, assemble (with_num_scenarios 0 notebook) notebook_seed = Raise e.
Proof. apply assemble_raises. left. reflexivity. Defined.

(** The configuration with an edge to the undeclared node 6 is malformed in
    the sense of the specification, and the cells assemble its model. *)
Lemma unknown_node_is_assembled :
  malformed notebook_unknown_node ∧
  ∃ m, assemble notebook_unknown_node notebook_seed = Ok m.
Proof.
  split.
  - left. exists (4, 6). split.
    + apply (bool_decide_unpack _). by vm_compute.
    + right. apply (bool_decide_unpack _). by vm_compute.
  - apply is_Ok_true. vm_compute. reflexivity.
Qed.

Lemma core_model_contents_witness :
  ∃ xi m, core_model notebook xi = Ok m ∧
    (ConMaxFlowCapacity (3, 5) 7,
     Constr (EVar (Vy (3, 5) 7)) Rle (Num (inject_Z 20))) ∈ m_constraints m.
Proof.
  destruct notebook_run as (xi & g' & m1 & _ & _ & _ & _ & H1 & _).
  exists xi, m1. split; [exact H1|].
  destruct (core_model_contents notebook xi m1 H1) as (_ & _ & Hcap & _).
  destruct (Hcap (3, 5) 7%nat) as (cap & Hlook & Hin).
  - apply (bool_decide_unpack _). reflexivity.
  - simpl. lia.
  - injection Hlook as <-. exact Hin.
Defined.

Lemma alpha_one_is_worst_case_witness :
  ∃ xi m, build_model notebook xi = Ok m ∧ feasible m notebook_point ∧
    (notebook_point (Vindicator 0 2) == 1)%Q ∧
    (15 <= notebook_point (Vy (5, 0)%Z 0%nat))%Q.
Proof.
  destruct notebook_run as (xi & _ & _ & _ & _ & m & _ & _ & _ & _ & _ & Hm & Hfeas).
  exists xi, m. split; [exact Hm|]. split; [exact Hfeas|].
  apply (alpha_one_is_worst_case notebook xi m notebook_point 2 1 15 Hm Hfeas).
  - reflexivity.
  - reflexivity.
  - reflexivity.
  - simpl. lia.
Defined.

Lemma second_phase_inherits_feasible_point_witness :
  ∃ xi m m2,
    build_model notebook xi = Ok m ∧ feasible m notebook_point ∧
    solve_cell notebook (λ _, Some notebook_point) m
    = Ok (Some (notebook_point, m2, Some notebook_point)) ∧
    feasible m2 notebook_point.
Proof.
  destruct notebook_run as (xi & _ & _ & _ & _ & m & _ & _ & _ & _ & _ & Hm & Hfeas).
  destruct (second_phase_inherits_feasible_point notebook xi m
              (λ _, Some notebook_point) notebook_point Hm eq_refl Hfeas)
    as (m2 & o & Hcell & _ & _ & _ & _ & _ & Hfeas2).
  exists xi, m, m2. split; [exact Hm|]. split; [exact Hfeas|].
  split; [exact Hcell|exact Hfeas2].
Defined.

(** * What the assembled model guarantees

    ** The rows of the assembled model at a feasible point *)

Section BuiltModel.
Variables (c : config) (xi : xi_table) (m : model).
Hypothesis Hbuild : build_model c xi = Ok m.

Lemma built_num_scenarios : ¬ (num_scenarios_Q c == 0)%Q.
Proof.
  destruct (build_model_layout _ _ _ Hbuild) as (m1 & m2 & m3 & _ & _ & H3 & _).
  destruct (type2_cell_Ok _ _ _ H3) as (k & Hk & _).
  by apply con_type2_service_level_Ok in Hk as (_ & _ & HS & _).
Qed.

Lemma built_num_scenarios_pos : (0 < num_scenarios_Q c)%Q.
Proof. apply num_scenarios_Q_pos, built_num_scenarios. Qed.

Lemma built_num_scenarios_nat : num_scenarios c ≠ 0%nat.
Proof.
  intros HS. apply built_num_scenarios. unfold num_scenarios_Q. by rewrite HS.
Qed.

Lemma built_y_declared_iff (e : edge) (ω : nat) (d : domain) :
  (Vy e ω, d) ∈ m_vars m ↔
  d = NonNegativeReals ∧ e ∈ dict_keys (edges c) ∧ (ω < num_scenarios c)%nat.
Proof.
  destruct (proj1 (build_model_Ok _ _ _) Hbuild) as (m1 & m2 & m3 & H1 & H2 & H3 & H4).
  destruct (type1_cell_Ok _ _ _ H2) as (a1 & a2 & -> & _).
  destruct (type2_cell_Ok _ _ _ H3) as (k & _ & ->).
  destruct (cvar_cell_Ok _ _ _ H4) as (b1 & b2 & -> & _).
  simpl. rewrite (core_model_vars _ _ _ H1).
  unfold type1_vars, cvar_vars, PyomoVar. simpl.
  rewrite !elem_of_app, !list_elem_of_fmap. split.
  - intros [[[(e' & [=] & _)|([e' ω'] & [= -> -> ->] & Hk)]
            |(k' & [=] & _)]|[(i & [=] & _)|(k' & [=] & _)]].
    apply elem_of_list_prod in Hk as [He Hω%elem_of_range]. done.
  - intros (-> & He & Hω). left. left. right. exists (e, ω).
    split; [done|]. apply elem_of_list_prod. split; [done|].
    by apply elem_of_range.
Qed.

(** The return edge [(sink, source)] is an edge of every assembled model. *)
Lemma built_return_edge : (sink c, source c) ∈ dict_keys (edges c).
Proof.
  destruct (build_model_layout _ _ _ Hbuild)
    as (m1 & m2 & m3 & H1 & H2 & H3 & _ & _ & _ & _ & _ & _ & _ & _ & Hv2 & _).
  destruct (core_model_sets _ _ _ H1) as (_ & S1 & s1 & t1 & _).
  destruct (type1_cell_sets _ _ _ H2) as (_ & S2 & s2 & t2 & _).
  destruct (type2_cell_Ok _ _ _ H3) as (k & Hk & _).
  apply con_type2_service_level_Ok in Hk as (_ & _ & _ & Hdecl & _).
  rewrite S2, S1, s2, t2, s1, t1 in Hdecl.
  pose proof built_num_scenarios_nat as HS.
  assert (H0 : 0%nat ∈ range (num_scenarios c)) by (apply elem_of_range; lia).
  apply Hdecl, declared_elem_of in H0 as [d Hd].
  apply Hv2 in Hd. by apply built_y_declared_iff in Hd as (_ & He & _).
Qed.

Variable σ : assignment.
Hypothesis Hfeas : feasible m σ.

Lemma built_y_nonneg (e : edge) (ω : nat) :
  e ∈ dict_keys (edges c) → (ω < num_scenarios c)%nat → (0 <= σ (Vy e ω))%Q.
Proof.
  intros He Hω. destruct Hfeas as (Hdom & _).
  apply (Hdom _ NonNegativeReals). by apply built_y_declared_iff.
Qed.

Lemma built_return_flow_nonneg (ω : nat) :
  (ω < num_scenarios c)%nat → (0 <= return_flow c σ ω)%Q.
Proof. intros Hω. apply built_y_nonneg; [apply built_return_edge|done]. Qed.

Lemma built_x_nonneg (e : edge) :
  e ∈ dict_keys (edges c) → (0 <= σ (Vx e))%Q.
Proof.
  intros He. destruct Hfeas as (Hdom & _).
  destruct (build_model_layout _ _ _ Hbuild)
    as (m1 & m2 & m3 & H1 & _ & _ & _ & _ & _ & _ & _ & _ & _ & Hv1 & _).
  apply (Hdom _ NonNegativeReals), Hv1. rewrite (core_model_vars _ _ _ H1).
  apply elem_of_app. left. apply list_elem_of_fmap. by exists e.
Qed.

(** *** Core rows *)

Lemma built_capacity_row (e : edge) (ω : nat) :
  e ∈ dict_keys (edges c) → (ω < num_scenarios c)%nat →
  (σ (Vy e ω) <= cap_of c e)%Q.
Proof.
  intros He Hω. destruct Hfeas as (_ & Hsat & _).
  destruct (build_model_layout _ _ _ Hbuild)
    as (m1 & m2 & m3 & H1 & _ & _ & _ & _ & _ & _ & _ & _ & _ & _ & _ & Hc1 & _).
  destruct (core_model_Ok _ _ _ H1) as (cs1 & cs2 & cs3 & o & Hm1 & _ & H2 & _).
  destruct (Forall2_elem_of_l _ _ _ (e, ω) H2) as (kc & Hkc & k & Hk & ->).
  { apply elem_of_list_prod. split; [done|]. by apply elem_of_range. }
  apply con_max_flow_capacity_Ok in Hk as (cap & Hcap & [= ->]).
  simpl in Hcap. unfold cap_of. rewrite Hcap.
  apply (Hsat (ConMaxFlowCapacity e ω)
              (Constr (EVar (Vy e ω)) Rle (Num (inject_Z cap)))), Hc1.
  rewrite Hm1. in_constraints.
Qed.

Lemma built_effective_row (e : edge) (ω : nat) :
  e ∈ dict_keys (edges c) → (ω < num_scenarios c)%nat →
  ∃ v, xi !! (e, ω) = Some v ∧ (σ (Vy e ω) <= inject_Z v + σ (Vx e))%Q.
Proof.
  intros He Hω. destruct Hfeas as (_ & Hsat & _).
  destruct (build_model_layout _ _ _ Hbuild)
    as (m1 & m2 & m3 & H1 & _ & _ & _ & _ & _ & _ & _ & _ & _ & _ & _ & Hc1 & _).
  destruct (core_model_Ok _ _ _ H1) as (cs1 & cs2 & cs3 & o & Hm1 & _ & _ & H3 & _).
  destruct (Forall2_elem_of_l _ _ _ (e, ω) H3) as (kc & Hkc & k & Hk & ->).
  { apply elem_of_list_prod. split; [done|]. by apply elem_of_range. }
  apply con_eff_flow_capacity_Ok in Hk as (v & Hv & [= ->]).
  exists v. split; [done|].
  apply (Hsat (ConEffFlowCapacity e ω)
              (Constr (EVar (Vy e ω)) Rle (Add (Num (inject_Z v)) (EVar (Vx e))))), Hc1.
  rewrite Hm1. in_constraints.
Qed.

Lemma built_balance_row (n : node) (ω : nat) :
  n ∈ nodes c → (ω < num_scenarios c)%nat →
  (inflow (dict_keys (edges c)) σ n ω == outflow (dict_keys (edges c)) σ n ω)%Q.
Proof.
  intros Hn Hω. destruct Hfeas as (_ & Hsat & _).
  destruct (build_model_layout _ _ _ Hbuild)
    as (m1 & m2 & m3 & H1 & _ & _ & _ & _ & _ & _ & _ & _ & _ & _ & _ & Hc1 & _).
  destruct (core_model_Ok _ _ _ H1) as (cs1 & cs2 & cs3 & o & Hm1 & HF1 & _).
  destruct (Forall2_elem_of_l _ _ _ (n, ω) HF1) as (kc & Hkc & k & Hk & ->).
  { apply elem_of_list_prod. split; [done|]. by apply elem_of_range. }
  apply con_flow_balance_Ok in Hk. symmetry in Hk.
  apply py_rel_Relational in Hk as Hk'.
  assert (Hrow : sat σ k).
  { apply (Hsat (ConFlowBalance n ω)), Hc1. rewrite Hm1. in_constraints. }
  rewrite Hk' in Hrow. unfold sat in Hrow. simpl in Hrow.
  rewrite !eval_sum_vars in Hrow. exact Hrow.
Qed.
End BuiltModel.

(** *** Risk rows *)

Section BuiltRisk.
Variables (c : config) (xi : xi_table) (m : model).
Hypothesis Hbuild : build_model c xi = Ok m.
Variable σ : assignment.
Hypothesis Hfeas : feasible m σ.

Lemma built_indicator_binary (ω i : nat) :
  (ω < num_scenarios c)%nat → (i < length (perf_thresholds c))%nat →
  (σ (Vindicator ω i) == 0)%Q ∨ (σ (Vindicator ω i) == 1)%Q.
Proof.
  intros Hω Hi. destruct Hfeas as (Hdom & _).
  destruct (build_model_layout _ _ _ Hbuild)
    as (m1 & m2 & m3 & H1 & H2 & _ & _ & _ & _ & _ & _ & _ & _ & _ & Hv2 & _).
  destruct (core_model_sets _ _ _ H1) as (_ & S1 & _).
  destruct (type1_cell_Ok _ _ _ H2) as (cs1 & cs2 & Hm2 & _).
  apply (Hdom (Vindicator ω i) Binary), Hv2. rewrite Hm2. simpl.
  apply elem_of_app. right. unfold type1_vars, PyomoVar. simpl.
  apply list_elem_of_fmap. exists (ω, i). split; [done|].
  apply elem_of_list_prod. simpl. rewrite S1.
  split; by apply elem_of_range.
Qed.

Lemma built_indicator_row (ω i : nat) (b : Q) :
  (ω < num_scenarios c)%nat → perf_thresholds c !! i = Some b →
  ¬ (b == 0)%Q ∧ (σ (Vindicator ω i) <= return_flow c σ ω / b)%Q.
Proof.
  intros Hω Hb. destruct Hfeas as (_ & Hsat & _).
  destruct (build_model_layout _ _ _ Hbuild)
    as (m1 & m2 & m3 & H1 & H2 & _ & _ & _ & _ & _ & _ & _ & _ & _ & _ & _ & Hc2 & _).
  destruct (core_model_sets _ _ _ H1) as (_ & S1 & s1 & t1 & _).
  destruct (type1_cell_Ok _ _ _ H2) as (cs1 & cs2 & Hm2 & Hcs1 & _).
  destruct (Forall2_elem_of_l _ _ _ (ω, i) Hcs1) as (kc & Hkc & r & Hr & ->).
  { apply elem_of_list_prod. simpl. rewrite S1. split; [by apply elem_of_range|].
    apply elem_of_range. by eapply lookup_lt_Some. }
  apply con_indicator_Ok in Hr as (b' & Hb' & Hb0 & _ & [= ->]).
  simpl in Hb'. assert (b' = b) as -> by congruence.
  split; [done|]. simpl in Hkc. rewrite t1, s1 in Hkc.
  apply (Hsat (ConIndicator ω i)
              (Constr (EVar (Vindicator ω i)) Rle
                      (Div (EVar (Vy (sink c, source c) ω)) b))), Hc2.
  rewrite Hm2. in_constraints.
Qed.

Lemma built_type1_row (i : nat) :
  (i < length (perf_thresholds c))%nat →
  ∃ a, alpha_thresholds c !! i = Some a ∧
       (a <= Qsum ((λ ω, σ (Vindicator ω i)) <$> range (num_scenarios c))
             / num_scenarios_Q c)%Q.
Proof.
  intros Hi. destruct Hfeas as (_ & Hsat & _).
  destruct (build_model_layout _ _ _ Hbuild)
    as (m1 & m2 & m3 & H1 & H2 & _ & _ & _ & _ & _ & _ & _ & _ & _ & _ & _ & Hc2 & _).
  destruct (core_model_sets _ _ _ H1) as (_ & S1 & _).
  destruct (type1_cell_Ok _ _ _ H2) as (cs1 & cs2 & Hm2 & _ & Hcs2).
  destruct (Forall2_elem_of_l _ _ _ i Hcs2) as (kc & Hkc & r & Hr & ->).
  { by apply elem_of_range. }
  apply con_type1_service_level_Ok in Hr as (a & lhs & Ha & Hr & _ & Hlhs).
  symmetry in Hr. apply py_rel_Relational in Hr as ->.
  exists a. split; [done|]. simpl in Hlhs. rewrite S1 in Hlhs.
  rewrite <- Hlhs.
  apply (Hsat (ConType1ServiceLevel i) (Constr lhs Rge (Num a))), Hc2.
  rewrite Hm2. in_constraints.
Qed.

Lemma built_type2_row :
  (perf_target c * beta_threshold c
   <= Qsum (return_flow c σ <$> range (num_scenarios c)) / num_scenarios_Q c)%Q.
Proof.
  destruct Hfeas as (_ & Hsat & _).
  destruct (build_model_layout _ _ _ Hbuild)
    as (m1 & m2 & m3 & H1 & H2 & H3 & _ & _ & _ & _ & _ & _ & _ & _ & _ & _ & _ & Hc3).
  destruct (core_model_sets _ _ _ H1) as (_ & S1 & s1 & t1 & _).
  destruct (type1_cell_sets _ _ _ H2) as (_ & S2 & s2 & t2 & _).
  destruct (type2_cell_Ok _ _ _ H3) as (k & Hk & Hm3).
  apply con_type2_service_level_Ok in Hk as (lhs & Hk & _ & _ & Hlhs).
  symmetry in Hk. apply py_rel_Relational in Hk as ->.
  rewrite S2, S1, s2, t2, s1, t1 in Hlhs. unfold return_flow. rewrite <- Hlhs.
  apply (Hsat ConType2ServiceLevel
              (Constr lhs Rge (Num (perf_target c * beta_threshold c)))), Hc3.
  rewrite Hm3. simpl. apply elem_of_app. right. by left.
Qed.

Lemma built_cvar_main_row (i : nat) :
  (i < length (cvar_thresholds c))%nat →
  ∃ ε ζ, cvar_epsilons c !! i = Some ε ∧ cvar_thresholds c !! i = Some ζ ∧
    ¬ (ε == 0)%Q ∧
    (σ (Vcvar_beta i)
     + Qsum ((λ ω, σ (Vcvar_nu ω i)) <$> range (num_scenarios c))
       / (num_scenarios_Q c * ε) <= ζ)%Q.
Proof.
  intros Hi. destruct Hfeas as (_ & Hsat & _).
  destruct (proj1 (build_model_Ok _ _ _) Hbuild) as (m1 & m2 & m3 & H1 & H2 & H3 & H4).
  destruct (core_model_sets _ _ _ H1) as (_ & S1 & _).
  destruct (type1_cell_sets _ _ _ H2) as (_ & S2 & _).
  destruct (type2_cell_sets _ _ _ H3) as (_ & S3 & _).
  destruct (cvar_cell_Ok _ _ _ H4) as (cs1 & cs2 & Hm & Hcs1 & _).
  destruct (Forall2_elem_of_l _ _ _ i Hcs1) as (kc & Hkc & r & Hr & ->).
  { by apply elem_of_range. }
  apply con_cvar_main_Ok in Hr as (ε & ζ & q & Hε & Hζ & Hne & [= ->] & Hq).
  exists ε, ζ. split; [done|]. split; [done|]. split.
  { intros Hz. apply Hne. rewrite Hz. lra. }
  simpl in Hq. rewrite S3, S2, S1 in Hq. rewrite <- Hq.
  apply (Hsat (ConCvarMain i)
              (Constr (Add (EVar (Vcvar_beta i)) q) Rle (Num ζ))).
  rewrite Hm. in_constraints.
Qed.

Lemma built_cvar_aux_row (ω i : nat) :
  (ω < num_scenarios c)%nat → (i < length (cvar_thresholds c))%nat →
  (0 <= σ (Vcvar_nu ω i))%Q ∧
  (loss c σ ω - σ (Vcvar_beta i) <= σ (Vcvar_nu ω i))%Q.
Proof.
  intros Hω Hi. destruct Hfeas as (Hdom & Hsat & _).
  destruct (proj1 (build_model_Ok _ _ _) Hbuild) as (m1 & m2 & m3 & H1 & H2 & H3 & H4).
  destruct (core_model_sets _ _ _ H1) as (_ & S1 & s1 & t1 & _).
  destruct (type1_cell_sets _ _ _ H2) as (_ & S2 & s2 & t2 & _).
  destruct (type2_cell_sets _ _ _ H3) as (_ & S3 & s3 & t3 & _).
  destruct (cvar_cell_Ok _ _ _ H4) as (cs1 & cs2 & Hm & _ & Hcs2).
  assert (Hin : (ω, i) ∈ list_prod (m_scenarios m3) (range (length (cvar_thresholds c)))).
  { apply elem_of_list_prod. simpl. rewrite S3, S2, S1.
    split; by apply elem_of_range. }
  split.
  - apply (Hdom (Vcvar_nu ω i) NonNegativeReals). rewrite Hm. simpl.
    rewrite !elem_of_app. right. unfold cvar_vars, PyomoVar. simpl.
    apply elem_of_app. right. apply list_elem_of_fmap. by exists (ω, i).
  - destruct (Forall2_elem_of_l _ _ _ (ω, i) Hcs2 Hin) as (kc & Hkc & r & Hr & ->).
    apply con_cvar_aux_Ok in Hr as [= ->]. simpl in Hkc.
    rewrite t3, s3, t2, s2, t1, s1 in Hkc.
    apply (Hsat (ConCvarAux ω i)
             (Constr (EVar (Vcvar_nu ω i)) Rge
                (Sub (Sub (Num (perf_target c)) (EVar (Vy (sink c, source c) ω)))
                     (EVar (Vcvar_beta i))))).
    rewrite Hm. in_constraints.
Qed.
End BuiltRisk.

(** ** Sums and counts *)

Lemma inject_Z_of_nat_nonneg (n : nat) : (0 <= inject_Z (Z.of_nat n))%Q.
Proof. change 0%Q with (inject_Z 0). rewrite <- Zle_Qle. lia. Qed.

Lemma inject_Z_of_nat_le (n k : nat) :
  (n ≤ k)%nat → (inject_Z (Z.of_nat n) <= inject_Z (Z.of_nat k))%Q.
Proof. intros Hnk. rewrite <- Zle_Qle. lia. Qed.

Lemma Qsum_nonneg (l : list Q) : (∀ q, q ∈ l → (0 <= q)%Q) → (0 <= Qsum l)%Q.
Proof.
  induction l as [|q l IH]; intros Hl; [rewrite Qsum_nil; lra|].
  rewrite Qsum_cons.
  assert (0 <= q)%Q by (apply Hl; by left).
  assert (0 <= Qsum l)%Q by (apply IH; intros q' Hq'; apply Hl; by right).
  lra.
Qed.

Lemma Qsum_fmap_le {A} (f g : A → Q) (l : list A) :
  (∀ a, a ∈ l → (f a <= g a)%Q) → (Qsum (f <$> l) <= Qsum (g <$> l))%Q.
Proof.
  induction l as [|a l IH]; intros Hl; [rewrite !fmap_nil, Qsum_nil; lra|].
  rewrite !fmap_cons, !Qsum_cons.
  assert (f a <= g a)%Q by (apply Hl; by left).
  assert (Qsum (f <$> l) <= Qsum (g <$> l))%Q
    by (apply IH; intros a' Ha'; apply Hl; by right).
  lra.
Qed.

Lemma Qsum_fmap_ext {A} (f g : A → Q) (l : list A) :
  (∀ a, a ∈ l → (f a == g a)%Q) → (Qsum (f <$> l) == Qsum (g <$> l))%Q.
Proof.
  intros Hl. apply Qle_antisym; apply Qsum_fmap_le; intros a Ha;
    rewrite (Hl a Ha); lra.
Qed.

Lemma Qsum_fmap_const {A} (q : Q) (l : list A) :
  (Qsum ((λ _, q) <$> l) == inject_Z (Z.of_nat (length l)) * q)%Q.
Proof.
  induction l as [|a l IH].
  - rewrite fmap_nil, Qsum_nil. change (inject_Z (Z.of_nat (length []))) with 0%Q.
    ring.
  - rewrite fmap_cons, Qsum_cons, IH. cbn [length].
    rewrite inject_Z_of_nat_S. ring.
Qed.

Lemma Qsum_fmap_plus {A} (f g : A → Q) (l : list A) :
  (Qsum ((λ a, f a + g a) <$> l) == Qsum (f <$> l) + Qsum (g <$> l))%Q.
Proof.
  induction l as [|a l IH]; [rewrite !fmap_nil, Qsum_nil; lra|].
  rewrite !fmap_cons, !Qsum_cons, IH. lra.
Qed.

Lemma Qsum_fmap_minus {A} (f g : A → Q) (l : list A) :
  (Qsum ((λ a, f a - g a) <$> l) == Qsum (f <$> l) - Qsum (g <$> l))%Q.
Proof.
  induction l as [|a l IH]; [rewrite !fmap_nil, Qsum_nil; lra|].
  rewrite !fmap_cons, !Qsum_cons, IH. lra.
Qed.

Lemma Qsum_fmap_member_le {A} (f : A → Q) (l : list A) (a : A) :
  (∀ a', a' ∈ l → (0 <= f a')%Q) → a ∈ l → (f a <= Qsum (f <$> l))%Q.
Proof.
  induction l as [|a0 l IH]; intros Hl Ha; [by apply elem_of_nil in Ha|].
  rewrite fmap_cons, Qsum_cons.
  assert (0 <= f a0)%Q by (apply Hl; by left).
  assert (0 <= Qsum (f <$> l))%Q.
  { apply Qsum_nonneg. intros q (a' & -> & Ha')%list_elem_of_fmap.
    apply Hl. by right. }
  apply elem_of_cons in Ha as [->|Ha]; [lra|].
  assert (f a <= Qsum (f <$> l))%Q
    by (apply IH; [intros a' Ha'; apply Hl; by right|done]).
  lra.
Qed.

(** A sum over some of the scenarios is at most the sum over all of them when
    every term is non-negative. *)
Lemma Qsum_fmap_submseteq {A} (f : A → Q) (t l : list A) :
  t ⊆+ l → (∀ a, a ∈ l → (0 <= f a)%Q) → (Qsum (f <$> t) <= Qsum (f <$> l))%Q.
Proof.
  induction 1 as [|a t l _ IH|a b l|a t l _ IH|t l1 l2 H12 IH1 H23 IH2];
    intros Hl.
  - lra.
  - rewrite !fmap_cons, !Qsum_cons.
    assert (Qsum (f <$> t) <= Qsum (f <$> l))%Q
      by (apply IH; intros a' Ha'; apply Hl; by right).
    lra.
  - rewrite !fmap_cons, !Qsum_cons. lra.
  - rewrite fmap_cons, Qsum_cons.
    assert (0 <= f a)%Q by (apply Hl; by left).
    assert (Qsum (f <$> t) <= Qsum (f <$> l))%Q
      by (apply IH; intros a' Ha'; apply Hl; by right).
    lra.
  - assert (Qsum (f <$> l1) <= Qsum (f <$> l2))%Q by (by apply IH2).
    assert (Qsum (f <$> t) <= Qsum (f <$> l1))%Q.
    { apply IH1. intros a Ha. apply Hl. by eapply elem_of_submseteq. }
    lra.
Qed.

(** Binary values that are one only where [P] holds add up to at most the
    number of places where [P] holds. *)
Lemma Qsum_binary_le_count {A} (f : A → Q) (P : A → bool) (l : list A) :
  (∀ a, a ∈ l → (f a == 0)%Q ∨ ((f a == 1)%Q ∧ P a = true)) →
  (Qsum (f <$> l) <= inject_Z (Z.of_nat (length (List.filter P l))))%Q.
Proof.
  induction l as [|a l IH]; intros Hl.
  - rewrite fmap_nil, Qsum_nil. apply Qle_refl.
  - rewrite fmap_cons, Qsum_cons.
    assert (Qsum (f <$> l) <= inject_Z (Z.of_nat (length (List.filter P l))))%Q
      as IH' by (apply IH; intros a' Ha'; apply Hl; by right).
    cbn [List.filter]. destruct (Hl a) as [Ha|[Ha HP]]; [by left| |].
    + destruct (P a); cbn [length]; rewrite ?inject_Z_of_nat_S; lra.
    + rewrite HP. cbn [length]. rewrite inject_Z_of_nat_S. lra.
Qed.

Lemma Qdiv_ge (a x d : Q) : (0 < d)%Q → (a <= x / d)%Q → (a * d <= x)%Q.
Proof.
  intros Hd Hx.
  assert (a * d <= x / d * d)%Q as Hm by (apply Qmult_le_compat_r; lra).
  rewrite Qdiv_mult_cancel in Hm by lra. done.
Qed.

Lemma Qdiv_le (x d z : Q) : (0 < d)%Q → (x / d <= z)%Q → (x <= z * d)%Q.
Proof.
  intros Hd Hx.
  assert (x / d * d <= z * d)%Q as Hm by (apply Qmult_le_compat_r; lra).
  rewrite Qdiv_mult_cancel in Hm by lra. done.
Qed.

(** ** What the risk rows say about the distribution of the return flow *)

(** X1.  Type I: at a feasible point, the return flow reaches the bound [b_i]
    in at least [α_i * num_scenarios] scenarios. *)
Theorem type1_rows_bound_served (c : config) (xi : xi_table) (m : model)
    (σ : assignment) (i : nat) (a b : Q) :
  build_model c xi = Ok m →
  feasible m σ →
  perf_thresholds c !! i = Some b →
  alpha_thresholds c !! i = Some a →
  (a * num_scenarios_Q c <= inject_Z (Z.of_nat (length (served c σ b))))%Q.
Proof.
  intros Hbuild Hfeas Hb Ha.
  assert (Hi : (i < length (perf_thresholds c))%nat) by (by eapply lookup_lt_Some).
  destruct (built_type1_row c xi m Hbuild σ Hfeas i Hi) as (a' & Ha' & Hrow).
  assert (a' = a) as -> by congruence.
  pose proof (built_num_scenarios_pos c xi m Hbuild) as HS.
  apply Qdiv_ge in Hrow; [|done].
  eapply Qle_trans; [exact Hrow|].
  unfold served. apply Qsum_binary_le_count. intros ω Hω%elem_of_range.
  destruct (built_indicator_binary c xi m Hbuild σ Hfeas ω i Hω Hi) as [H0|H1];
    [by left|right].
  split; [done|]. apply Qle_bool_iff.
  destruct (built_indicator_row c xi m Hbuild σ Hfeas ω i b Hω Hb) as [Hb0 Hrowω].
  apply Qdiv_ge_one_nonneg; [done| |lra].
  by apply (built_return_flow_nonneg c xi m Hbuild σ Hfeas).
Qed.

(** X2.  Type I: a feasible point exists only if every required probability
    is at most one. *)
Theorem type1_alpha_at_most_one (c : config) (xi : xi_table) (m : model)
    (σ : assignment) (i : nat) (a : Q) :
  build_model c xi = Ok m →
  feasible m σ →
  (i < length (perf_thresholds c))%nat →
  alpha_thresholds c !! i = Some a →
  (a <= 1)%Q.
Proof.
  intros Hbuild Hfeas Hi Ha.
  destruct (built_type1_row c xi m Hbuild σ Hfeas i Hi) as (a' & Ha' & Hrow).
  assert (a' = a) as -> by congruence.
  pose proof (built_num_scenarios_pos c xi m Hbuild) as HS.
  apply Qdiv_ge in Hrow; [|done].
  assert (Qsum ((λ ω, σ (Vindicator ω i)) <$> range (num_scenarios c))
          <= num_scenarios_Q c)%Q as Hle.
  { eapply Qle_trans; [apply Qsum_le_length|].
    - intros q (ω & -> & Hω%elem_of_range)%list_elem_of_fmap.
      destruct (built_indicator_binary c xi m Hbuild σ Hfeas ω i Hω Hi)
        as [-> | ->]; lra.
    - rewrite length_fmap. unfold range. rewrite length_seq. apply Qle_refl. }
  assert (a * num_scenarios_Q c <= 1 * num_scenarios_Q c)%Q as Hmul by lra.
  by apply Qmult_le_r in Hmul.
Qed.

(** X3.  Type II: the mean of the [losses] the plotting cell computes is at
    most [perf_target * (1 - beta_threshold)], the height of the line it
    draws for the Type-II threshold, when [perf_target] is the 23 that the
    cell hard-codes. *)
Theorem type2_row_bounds_mean_loss (c : config) (xi : xi_table) (m : model)
    (σ : assignment) :
  build_model c xi = Ok m →
  feasible m σ →
  (perf_target c == 23)%Q →
  (mean (losses m σ) <= perf_target c * (1 - beta_threshold c))%Q.
Proof.
  intros Hbuild Hfeas Htarget.
  pose proof (built_type2_row c xi m Hbuild σ Hfeas) as Hrow.
  pose proof (built_num_scenarios_pos c xi m Hbuild) as HS.
  destruct (build_model_layout _ _ _ Hbuild)
    as (_ & _ & _ & _ & _ & _ & _ & _ & HΩ & Hs & Ht & _).
  unfold mean, losses. rewrite length_fmap, HΩ, Hs, Ht.
  unfold range at 2. rewrite length_seq. fold (num_scenarios_Q c).
  change (λ ω, 23 - σ (Vy (sink c, source c) ω))%Q
    with (λ ω, (λ _, 23) ω - return_flow c σ ω)%Q.
  rewrite Qsum_fmap_minus, Qsum_fmap_const.
  unfold range at 1. rewrite length_seq. fold (num_scenarios_Q c).
  apply Qle_shift_div_r; [done|].
  apply Qdiv_ge in Hrow; [|done]. rewrite Htarget in Hrow |- *. lra.
Qed.

(** The losses of any group of at least [ε_i * num_scenarios] scenarios add
    up to at most the size of the group times [ζ_i]. *)
Lemma built_cvar_tail_sum (c : config) (xi : xi_table) (m : model)
    (σ : assignment) (i : nat) (ε ζ : Q) (T : list nat) :
  build_model c xi = Ok m →
  feasible m σ →
  cvar_epsilons c !! i = Some ε →
  cvar_thresholds c !! i = Some ζ →
  (0 < ε)%Q →
  NoDup T →
  (∀ ω, ω ∈ T → (ω < num_scenarios c)%nat) →
  (ε * num_scenarios_Q c <= inject_Z (Z.of_nat (length T)))%Q →
  (Qsum (loss c σ <$> T) <= inject_Z (Z.of_nat (length T)) * ζ)%Q.
Proof.
  intros Hbuild Hfeas Hε Hζ Hpos HT HTΩ Hsize.
  assert (Hi : (i < length (cvar_thresholds c))%nat) by (by eapply lookup_lt_Some).
  destruct (built_cvar_main_row c xi m Hbuild σ Hfeas i Hi)
    as (ε' & ζ' & Hε' & Hζ' & _ & Hmain).
  assert (ε' = ε) as -> by congruence. assert (ζ' = ζ) as -> by congruence.
  pose proof (built_num_scenarios_pos c xi m Hbuild) as HS.
  set (β := σ (Vcvar_beta i)) in *.
  set (ν := λ ω, σ (Vcvar_nu ω i)) in *.
  set (n := inject_Z (Z.of_nat (length T))) in *.
  assert (Hsub : T ⊆+ range (num_scenarios c)).
  { apply NoDup_submseteq; [done|]. intros ω Hω. by apply elem_of_range, HTΩ. }
  assert (Hν0 : ∀ ω, ω ∈ range (num_scenarios c) → (0 <= ν ω)%Q).
  { intros ω Hω%elem_of_range.
    by destruct (built_cvar_aux_row c xi m Hbuild σ Hfeas ω i Hω Hi). }
  (* the losses of the group are covered by [ν] and [β] *)
  assert (H1 : (Qsum (loss c σ <$> T) <= Qsum (ν <$> T) + n * β)%Q).
  { unfold n. rewrite <- (Qsum_fmap_const β T), <- Qsum_fmap_plus.
    apply Qsum_fmap_le. intros ω Hω.
    destruct (built_cvar_aux_row c xi m Hbuild σ Hfeas ω i (HTΩ ω Hω) Hi)
      as [_ Haux].
    fold β in Haux. fold (ν ω) in Haux. lra. }
  assert (H2 : (Qsum (ν <$> T) <= Qsum (ν <$> range (num_scenarios c)))%Q)
    by (by apply Qsum_fmap_submseteq).
  assert (HSε : (0 < num_scenarios_Q c * ε)%Q) by (by apply Qmult_lt_0_compat).
  assert (H3 : (Qsum (ν <$> range (num_scenarios c))
                <= (ζ - β) * (num_scenarios_Q c * ε))%Q).
  { apply Qdiv_le; [done|]. lra. }
  assert (Hall : (0 <= Qsum (ν <$> range (num_scenarios c)))%Q).
  { apply Qsum_nonneg. intros q (ω & -> & Hω)%list_elem_of_fmap. by apply Hν0. }
  assert (Hβζ : (β <= ζ)%Q).
  { destruct (Qlt_le_dec ζ β) as [Hlt|]; [|done]. exfalso.
    assert (0 < (β - ζ) * (num_scenarios_Q c * ε))%Q
      by (apply Qmult_lt_0_compat; lra).
    lra. }
  assert (H4 : (β * (n - ε * num_scenarios_Q c)
                <= ζ * (n - ε * num_scenarios_Q c))%Q).
  { apply Qmult_le_compat_r; [done|]. lra. }
  lra.
Qed.

Lemma Qsum_fmap_lt {A} (f g : A → Q) (l : list A) :
  l ≠ [] → (∀ a, a ∈ l → (f a < g a)%Q) → (Qsum (f <$> l) < Qsum (g <$> l))%Q.
Proof.
  induction l as [|a l IH]; [done|]. intros _ Hl.
  rewrite !fmap_cons, !Qsum_cons.
  assert (f a < g a)%Q by (apply Hl; by left).
  assert (Qsum (f <$> l) <= Qsum (g <$> l))%Q.
  { apply Qsum_fmap_le. intros a' Ha'. apply Qlt_le_weak, Hl. by right. }
  lra.
Qed.

Lemma inject_Z_length_pos {A} (l : list A) :
  l ≠ [] → (0 < inject_Z (Z.of_nat (length l)))%Q.
Proof.
  intros Hl. destruct l as [|a l]; [done|].
  change 0%Q with (inject_Z 0). rewrite <- Zlt_Qlt. simpl. lia.
Qed.

(** X4.  CVaR: at a feasible point, the mean loss of any group of at least
    [ε_i * num_scenarios] scenarios -- in particular of the worst ones -- is
    at most the ceiling [ζ_i]. *)
Theorem cvar_rows_bound_tail_mean (c : config) (xi : xi_table) (m : model)
    (σ : assignment) (i : nat) (ε ζ : Q) (T : list nat) :
  build_model c xi = Ok m →
  feasible m σ →
  cvar_epsilons c !! i = Some ε →
  cvar_thresholds c !! i = Some ζ →
  (0 < ε)%Q →
  NoDup T →
  (∀ ω, ω ∈ T → (ω < num_scenarios c)%nat) →
  (ε * num_scenarios_Q c <= inject_Z (Z.of_nat (length T)))%Q →
  (mean (loss c σ <$> T) <= ζ)%Q.
Proof.
  intros Hbuild Hfeas Hε Hζ Hpos HT HTΩ Hsize.
  pose proof (built_cvar_tail_sum c xi m σ i ε ζ T
                Hbuild Hfeas Hε Hζ Hpos HT HTΩ Hsize) as Hsum.
  pose proof (built_num_scenarios_pos c xi m Hbuild) as HS.
  assert (HT0 : T ≠ []).
  { intros ->.
    assert (0 < ε * num_scenarios_Q c)%Q by (by apply Qmult_lt_0_compat).
    change (inject_Z (Z.of_nat (length (@nil nat)))) with 0%Q in Hsize. lra. }
  unfold mean. rewrite length_fmap.
  apply Qle_shift_div_r; [by apply inject_Z_length_pos|]. lra.
Qed.

(** X14.  CVaR bounds the value at risk: at a feasible point the loss exceeds
    the ceiling [ζ_i] in fewer than [ε_i * num_scenarios] scenarios. *)
Theorem cvar_rows_bound_exceedances (c : config) (xi : xi_table) (m : model)
    (σ : assignment) (i : nat) (ε ζ : Q) :
  build_model c xi = Ok m →
  feasible m σ →
  cvar_epsilons c !! i = Some ε →
  cvar_thresholds c !! i = Some ζ →
  (0 < ε)%Q →
  (inject_Z (Z.of_nat (length (exceeding c σ ζ))) < ε * num_scenarios_Q c)%Q.
Proof.
  intros Hbuild Hfeas Hε Hζ Hpos.
  pose proof (built_num_scenarios_pos c xi m Hbuild) as HS.
  assert (0 < ε * num_scenarios_Q c)%Q as HεS by (by apply Qmult_lt_0_compat).
  set (T := exceeding c σ ζ).
  destruct (Qlt_le_dec (inject_Z (Z.of_nat (length T))) (ε * num_scenarios_Q c))
    as [|Hsize]; [done|exfalso].
  assert (HTin : ∀ ω, ω ∈ T → (ω < num_scenarios c)%nat ∧ (ζ < loss c σ ω)%Q).
  { intros ω Hω. unfold T, exceeding in Hω.
    apply list_elem_of_In, List.filter_In in Hω as [Hω%list_elem_of_In Hgt].
    split; [by apply elem_of_range|].
    apply negb_true_iff in Hgt. apply Qnot_le_lt. intros Hle.
    apply Qle_bool_iff in Hle. congruence. }
  assert (HT0 : T ≠ []).
  { intros HT. rewrite HT in Hsize.
    change (inject_Z (Z.of_nat (length (@nil nat)))) with 0%Q in Hsize. lra. }
  assert (Hsum : (Qsum (loss c σ <$> T) <= inject_Z (Z.of_nat (length T)) * ζ)%Q).
  { apply (built_cvar_tail_sum c xi m σ i ε ζ T); try done.
    - unfold T, exceeding. apply NoDup_ListNoDup, List.NoDup_filter, List.seq_NoDup.
    - intros ω Hω. by apply HTin. }
  assert (Hgt : (Qsum ((λ _, ζ) <$> T) < Qsum (loss c σ <$> T))%Q).
  { apply Qsum_fmap_lt; [done|]. intros ω Hω. by apply HTin. }
  rewrite Qsum_fmap_const in Hgt. lra.
Qed.

Lemma Qsum_pos_exists {A} (f : A → Q) (l : list A) :
  (0 < Qsum (f <$> l))%Q → ∃ a, a ∈ l ∧ (0 < f a)%Q.
Proof.
  induction l as [|a l IH]; [rewrite fmap_nil, Qsum_nil; lra|].
  rewrite fmap_cons, Qsum_cons. intros Hpos.
  destruct (Qlt_le_dec 0 (f a)) as [Ha|Ha].
  - exists a. split; [by left|done].
  - destruct IH as (a' & Ha' & Hfa'); [lra|].
    exists a'. split; [by right|done].
Qed.

(** The return edge leaves the sink, and no edge carries more than its
    capacity. *)
Lemma built_return_flow_le_outflow (c : config) (xi : xi_table) (m : model)
    (σ : assignment) (ω : nat) :
  build_model c xi = Ok m → feasible m σ → (ω < num_scenarios c)%nat →
  (return_flow c σ ω <= outflow (dict_keys (edges c)) σ (sink c) ω)%Q.
Proof.
  intros Hbuild Hfeas Hω.
  pose proof (built_return_edge c xi m Hbuild) as Hts.
  unfold outflow, return_flow.
  apply (Qsum_fmap_member_le (λ e, σ (Vy e ω))).
  - intros e [_ He]%list_elem_of_filter.
    by apply (built_y_nonneg c xi m Hbuild σ Hfeas).
  - by apply list_elem_of_filter.
Qed.

Lemma built_inflow_le_capacity (c : config) (xi : xi_table) (m : model)
    (σ : assignment) (n : node) (ω : nat) :
  build_model c xi = Ok m → feasible m σ → (ω < num_scenarios c)%nat →
  (inflow (dict_keys (edges c)) σ n ω <= capacity_into c n)%Q.
Proof.
  intros Hbuild Hfeas Hω.
  unfold inflow, capacity_into. apply Qsum_fmap_le.
  intros e [_ He]%list_elem_of_filter.
  by apply (built_capacity_row c xi m Hbuild σ Hfeas).
Qed.

(** X5.  In every scenario the return flow is at most the total capacity of
    the edges that enter the sink. *)
Theorem return_flow_within_sink_capacity (c : config) (xi : xi_table)
    (m : model) (σ : assignment) (ω : nat) :
  build_model c xi = Ok m →
  feasible m σ →
  sink c ∈ nodes c →
  (ω < num_scenarios c)%nat →
  (return_flow c σ ω <= capacity_into c (sink c))%Q.
Proof.
  intros Hbuild Hfeas Ht Hω.
  pose proof (built_balance_row c xi m Hbuild σ Hfeas (sink c) ω Ht Hω) as Hbal.
  pose proof (built_return_flow_le_outflow c xi m σ ω Hbuild Hfeas Hω) as Hout.
  pose proof (built_inflow_le_capacity c xi m σ (sink c) ω Hbuild Hfeas Hω) as Hin.
  lra.
Qed.


(** ** Between the two solves *)

Lemma deactivate_fields (n : obj_name) (m : model) :
  m_vars (deactivate n m) = m_vars m ∧
  m_constraints (deactivate n m) = m_constraints m ∧
  m_fixed (deactivate n m) = m_fixed m.
Proof. done. Qed.

Lemma second_phase_Ok (c : config) (σ1 : assignment) (m m2 : model) :
  second_phase c σ1 m = Ok m2 →
  m_vars m2 = m_vars m ∧
  m_constraints m2 = m_constraints m ∧
  m_fixed m2 = m_fixed m ++ ((λ e, (Vx e, σ1 (Vx e))) <$> m_edges m) ∧
  ∃ o, obj_max_flow c (deactivate ObjMinBudget (fix_x σ1 m)) = Ok o ∧
       m_objectives m2
       = m_objectives (deactivate ObjMinBudget (fix_x σ1 m))
         ++ [ {| o_name := ObjMaxFlow; o_sense := maximize;
                 o_expr := o; o_active := true |} ].
Proof.
  unfold second_phase. intros (o & Ho & [= <-])%bind_Ok.
  destruct (foldl_fix_value σ1 (m_edges m) m) as (Vf & Cf & _ & _ & _ & _ & _ & Ff).
  fold (fix_x σ1 m) in Vf, Cf, Ff. simpl.
  split; [done|]. split; [done|]. split; [done|]. by exists o.
Qed.

(** X7.  The model handed to the second solve has exactly the feasible points
    of the first model whose [x] is the one the first solve loaded: every
    constraint of the first phase is still in force, and no [x[e]] can
    move. *)
Theorem second_phase_feasible_set (c : config) (σ1 σ2 : assignment)
    (m m2 : model) :
  second_phase c σ1 m = Ok m2 →
  feasible m2 σ2 ↔
  feasible m σ2 ∧ ∀ e, e ∈ m_edges m → (σ2 (Vx e) == σ1 (Vx e))%Q.
Proof.
  intros (HV & HC & HF & _)%second_phase_Ok. unfold feasible.
  rewrite HV, HC, HF. split.
  - intros (Hdom & Hsat & Hfix). split; [split; [done|split; [done|]]|].
    + intros v q Hvq. apply Hfix, elem_of_app. by left.
    + intros e He. apply Hfix, elem_of_app. right.
      apply list_elem_of_fmap. by exists e.
  - intros [(Hdom & Hsat & Hfix) Hx]. split; [done|split; [done|]].
    intros v q [Hvq|(e & [= -> ->] & He)%list_elem_of_fmap]%elem_of_app.
    + by apply Hfix.
    + by apply Hx.
Qed.

(** The code between the solves succeeds on every assembled model. *)
Lemma second_phase_is_Ok (c : config) (xi : xi_table) (m : model) (σ1 : assignment) :
  build_model c xi = Ok m →
  ∃ m2 o, second_phase c σ1 m = Ok m2 ∧
    m_objectives m2
    = m_objectives (deactivate ObjMinBudget (fix_x σ1 m))
      ++ [ {| o_name := ObjMaxFlow; o_sense := maximize;
              o_expr := o; o_active := true |} ] ∧
    ∀ σ, (eval σ o == Qsum (return_flow c σ <$> range (num_scenarios c))
                      / num_scenarios_Q c)%Q.
Proof.
  intros Hbuild.
  destruct (build_model_layout _ _ _ Hbuild)
    as (m1 & m2 & m3 & H1 & H2 & H3 & _ & HE & HΩ & Hs & Ht & _).
  pose proof (built_num_scenarios c xi m Hbuild) as HS.
  pose proof (built_return_edge c xi m Hbuild) as Hts.
  set (mf := fix_x σ1 m).
  destruct (foldl_fix_value σ1 (m_edges m) m)
    as (Vf & _ & _ & _ & Ωf & sf & tf & _).
  fold (fix_x σ1 m) in Vf, Ωf, sf, tf. fold mf in Vf, Ωf, sf, tf.
  set (md := deactivate ObjMinBudget mf).
  assert (Hys : mapM (λ ω, get_var md (Vy (m_t md, m_s md) ω)) (m_scenarios md)
                = Ok (EVar <$> ((λ ω, Vy (sink c, source c) ω)
                                <$> range (num_scenarios c)))).
  { change (m_t md) with (m_t mf). change (m_s md) with (m_s mf).
    change (m_scenarios md) with (m_scenarios mf).
    rewrite tf, sf, Ωf, Ht, Hs, HΩ.
    apply mapM_get_var_declared. intros ω Hω%elem_of_range.
    change (declared md ?v) with (declared mf v).
    rewrite (declared_same_vars m mf) by done.
    apply declared_elem_of. exists NonNegativeReals.
    by apply (built_y_declared_iff c xi m Hbuild). }
  destruct (py_div_is_Ok
              (py_sum (EVar <$> ((λ ω, Vy (sink c, source c) ω)
                                 <$> range (num_scenarios c))))
              (num_scenarios_Q c) HS) as [o Ho].
  eexists _, o. split; [|split].
  - unfold second_phase. fold mf. fold md. unfold obj_max_flow.
    rewrite Hys. simpl. rewrite Ho. reflexivity.
  - reflexivity.
  - intros σ. destruct (py_div_Ok _ _ _ Ho) as [_ Heval].
    by rewrite Heval, eval_sum_vars.
Qed.

(** X8.  The first objective is the sum of [x] over the edges, and it is
    non-negative at every feasible point: the first solve cannot be
    unbounded. *)
Theorem budget_objective_nonneg (c : config) (xi : xi_table) (m : model) :
  build_model c xi = Ok m →
  ∃ o, m_objectives m
       = [ {| o_name := ObjMinBudget; o_sense := minimize;
              o_expr := o; o_active := true |} ] ∧
       (∀ σ, (eval σ o == Qsum ((λ e, σ (Vx e)) <$> dict_keys (edges c)))%Q) ∧
       (∀ σ, feasible m σ → (0 <= eval σ o)%Q).
Proof.
  intros Hbuild.
  destruct (build_model_layout _ _ _ Hbuild)
    as (m1 & m2 & m3 & H1 & _ & _ & _ & _ & _ & _ & _ & _ & HO & _).
  destruct (core_model_Ok _ _ _ H1) as (cs1 & cs2 & cs3 & o & Hm1 & _ & _ & _ & Ho).
  exists o. rewrite HO, Hm1. split; [done|].
  assert (Heval : ∀ σ, (eval σ o == Qsum ((λ e, σ (Vx e)) <$> dict_keys (edges c)))%Q).
  { intros σ. rewrite Ho. apply eval_sum_vars. }
  split; [done|]. intros σ Hfeas. rewrite Heval.
  apply Qsum_nonneg. intros q (e & -> & He)%list_elem_of_fmap.
  by apply (built_x_nonneg c xi m Hbuild σ Hfeas).
Qed.

(** X9.  At every feasible point of the second model, the objective of the
    second solve -- the only active one -- lies between
    [perf_target * beta_threshold] and the capacity of the return edge: the
    second solve cannot be unbounded either. *)
Theorem max_flow_objective_bounds (c : config) (xi : xi_table)
    (m m2 : model) (σ1 σ2 : assignment) :
  build_model c xi = Ok m →
  second_phase c σ1 m = Ok m2 →
  feasible m2 σ2 →
  ∃ o, active_objectives m2
       = [ {| o_name := ObjMaxFlow; o_sense := maximize;
              o_expr := o; o_active := true |} ] ∧
       (perf_target c * beta_threshold c <= eval σ2 o)%Q ∧
       (eval σ2 o <= cap_of c (sink c, source c))%Q.
Proof.
  intros Hbuild Hphase Hfeas2.
  destruct (second_phase_is_Ok c xi m σ1 Hbuild) as (m2' & o & Hphase' & Hobj & Heval).
  assert (m2' = m2) as -> by congruence.
  assert (Hfeas : feasible m σ2).
  { destruct (second_phase_Ok _ _ _ _ Hphase) as (HV & HC & HF & _).
    destruct Hfeas2 as (Hdom & Hsat & Hfix). rewrite HV in Hdom. rewrite HC in Hsat.
    split; [done|split; [done|]]. intros v q Hvq. apply Hfix. rewrite HF.
    apply elem_of_app. by left. }
  exists o. split; [|split].
  - destruct (build_model_layout _ _ _ Hbuild)
      as (m1 & _ & _ & H1 & _ & _ & _ & _ & _ & _ & _ & _ & HO & _).
    destruct (core_model_sets _ _ _ H1) as (_ & _ & _ & _ & _ & o1 & Ho1).
    destruct (foldl_fix_value σ1 (m_edges m) m) as (_ & _ & Of & _).
    fold (fix_x σ1 m) in Of.
    unfold active_objectives. rewrite Hobj. simpl. rewrite Of, HO, Ho1. done.
  - rewrite Heval. apply (built_type2_row c xi m Hbuild σ2 Hfeas).
  - rewrite Heval.
    pose proof (built_num_scenarios_pos c xi m Hbuild) as HS.
    pose proof (built_return_edge c xi m Hbuild) as Hts.
    apply Qle_shift_div_r; [done|].
    assert (Qsum (return_flow c σ2 <$> range (num_scenarios c))
            <= Qsum ((λ _, cap_of c (sink c, source c)) <$> range (num_scenarios c)))%Q
      as Hle.
    { apply Qsum_fmap_le. intros ω Hω%elem_of_range.
      by apply (built_capacity_row c xi m Hbuild σ2 Hfeas). }
    rewrite Qsum_fmap_const in Hle. unfold range in Hle at 2.
    rewrite length_seq in Hle. fold (num_scenarios_Q c) in Hle. lra.
Qed.

(** ** Which configurations the cells accept *)

Lemma list_prod_nil_r {A B} (l : list A) : list_prod l ([] : list B) = [].
Proof. induction l as [|a l IH]; [done|]. simpl. exact IH. Qed.

Lemma range_nonempty (n : nat) : n ≠ 0%nat → 0%nat ∈ range n.
Proof. intros Hn. apply elem_of_range. lia. Qed.

Lemma PyomoConstraint_nil {I} (key : I → con_key) (rule : I → result rule_value) :
  PyomoConstraint [] key rule = Ok [].
Proof. reflexivity. Qed.

(** The rule is called on the indices in order: when it raises on the first
    one, that exception leaves the cell. *)
Lemma PyomoConstraint_head_Raise {I} (i : I) (index : list I) (key : I → con_key)
    (rule : I → result rule_value) (e : exn) :
  rule i = Raise e → PyomoConstraint (i :: index) key rule = Raise e.
Proof. intros Hi. unfold PyomoConstraint. cbn [mapM]. by rewrite Hi. Qed.

(** What a successful assembly tells about the configuration. *)
Lemma build_model_accepts (c : config) (xi : xi_table) (m : model) :
  build_model c xi = Ok m →
  num_scenarios c ≠ 0%nat ∧
  (∀ n, n ∈ nodes c → ∃ e, e ∈ dict_keys (edges c) ∧ (e.1 = n ∨ e.2 = n)) ∧
  (∀ e ω, e ∈ dict_keys (edges c) → (ω < num_scenarios c)%nat →
          is_Some (xi !! (e, ω))) ∧
  (sink c, source c) ∈ dict_keys (edges c) ∧
  (∀ i b, perf_thresholds c !! i = Some b → ¬ (b == 0)%Q) ∧
  (length (perf_thresholds c) ≤ length (alpha_thresholds c))%nat ∧
  (∀ i ε, (i < length (cvar_thresholds c))%nat →
          cvar_epsilons c !! i = Some ε → ¬ (ε == 0)%Q) ∧
  (length (cvar_thresholds c) ≤ length (cvar_epsilons c))%nat.
Proof.
  intros Hbuild.
  pose proof (built_num_scenarios_nat c xi m Hbuild) as HS.
  pose proof (range_nonempty _ HS) as H0.
  destruct (proj1 (build_model_Ok _ _ _) Hbuild) as (m1 & m2 & m3 & H1 & H2 & H3 & H4).
  destruct (core_model_sets _ _ _ H1) as (_ & S1 & _).
  destruct (type1_cell_sets _ _ _ H2) as (_ & S2 & _).
  destruct (type2_cell_sets _ _ _ H3) as (_ & S3 & _).
  destruct (core_model_Ok _ _ _ H1) as (cs1 & cs2 & cs3 & o & _ & HF1 & _ & HF3 & _).
  destruct (type1_cell_Ok _ _ _ H2) as (ts1 & ts2 & _ & HT1 & HT2).
  destruct (cvar_cell_Ok _ _ _ H4) as (vs1 & vs2 & _ & HV1 & _).
  split; [done|]. split; [|split; [|split; [|split; [|split; [|split]]]]].
  - intros n Hn.
    destruct (Forall2_elem_of_l _ _ _ (n, 0%nat) HF1) as (kc & _ & k & Hk & _).
    { by apply elem_of_list_prod. }
    apply con_flow_balance_Ok in Hk. simpl in Hk.
    destruct (filter (λ e : edge, e.2 = n) (dict_keys (edges c)))
      as [|e l] eqn:Hin.
    + destruct (filter (λ e : edge, e.1 = n) (dict_keys (edges c)))
        as [|e l] eqn:Hout; [done|].
      assert (e ∈ filter (λ e : edge, e.1 = n) (dict_keys (edges c))) as He
        by (rewrite Hout; by left).
      apply list_elem_of_filter in He as [He1 He]. exists e. auto.
    + assert (e ∈ filter (λ e : edge, e.2 = n) (dict_keys (edges c))) as He
        by (rewrite Hin; by left).
      apply list_elem_of_filter in He as [He2 He]. exists e. auto.
  - intros e ω He Hω.
    destruct (Forall2_elem_of_l _ _ _ (e, ω) HF3) as (kc & _ & k & Hk & _).
    { apply elem_of_list_prod. split; [done|]. by apply elem_of_range. }
    apply con_eff_flow_capacity_Ok in Hk as (v & Hv & _). by exists v.
  - by apply (built_return_edge c xi m).
  - intros i b Hb.
    destruct (Forall2_elem_of_l _ _ _ (0%nat, i) HT1) as (kc & _ & r & Hr & _).
    { apply elem_of_list_prod. simpl. rewrite S1. split; [done|].
      apply elem_of_range. by eapply lookup_lt_Some. }
    apply con_indicator_Ok in Hr as (b' & Hb' & Hb0 & _). simpl in Hb'.
    by assert (b' = b) as -> by congruence.
  - destruct (decide (length (perf_thresholds c) ≤ length (alpha_thresholds c))%nat)
      as [|Hlt]; [done|].
    destruct (Forall2_elem_of_l _ _ _ (length (alpha_thresholds c)) HT2)
      as (kc & _ & r & Hr & _); [apply elem_of_range; lia|].
    apply con_type1_service_level_Ok in Hr as (a & lhs & Ha%lookup_lt_Some & _).
    lia.
  - intros i ε Hi Hε.
    destruct (Forall2_elem_of_l _ _ _ i HV1) as (kc & _ & r & Hr & _);
      [by apply elem_of_range|].
    apply con_cvar_main_Ok in Hr as (ε' & ζ & q & Hε' & _ & Hne & _).
    assert (ε' = ε) as -> by congruence.
    intros Hz. apply Hne. rewrite Hz. ring.
  - destruct (decide (length (cvar_thresholds c) ≤ length (cvar_epsilons c))%nat)
      as [|Hlt]; [done|].
    destruct (Forall2_elem_of_l _ _ _ (length (cvar_epsilons c)) HV1)
      as (kc & _ & r & Hr & _); [apply elem_of_range; lia|].
    apply con_cvar_main_Ok in Hr as (ε & ζ & q & Hε%lookup_lt_Some & _).
    lia.
Qed.

Section XiAccepts.
Context {G : Type} `{RandomGenSound G} `{!RandomGenTotal G}.
Variable c : config.

Lemma gen_xi_accepts (g : G) :
  (∃ xi g', gen_xi c g = Ok (xi, g')) ↔
  num_scenarios c = 0%nat ∨ drawn_capacities_nonneg c.
Proof.
  split.
  - intros (xi & g' & Hgen).
    destruct (decide (num_scenarios c = 0%nat)) as [|HS]; [by left|right].
    intros e cap Hne Hcap.
    destruct (decide (0 ≤ cap)) as [|Hneg]; [done|].
    destruct (xi_loop_raises c (xi_keys c) (e, 0%nat)) with (st := (∅ : xi_table, g))
      as [ex Hex].
    + apply elem_of_xi_keys. split; [|lia]. apply dict_get_keys. by exists cap.
    + intros g0. simpl. rewrite xi_value_other, Hcap by done. simpl.
      exists ValueError. apply randint_empty. lia.
    + unfold gen_xi in Hgen. congruence.
  - intros Hok.
    destruct (xi_loop_total c (xi_keys c)) with (st := (∅ : xi_table, g))
      as [[xi g'] Hgen]; [|by exists xi, g'].
    intros [e ω] g0 [He Hω]%elem_of_xi_keys. simpl.
    destruct Hok as [HS|Hcaps]; [lia|].
    apply dict_get_keys in He as [cap Hcap].
    destruct (decide (e = (source c, sink c))) as [->|Hne].
    + rewrite xi_value_exempt, Hcap. simpl. by eexists _, _.
    + rewrite xi_value_other, Hcap by done. simpl.
      apply randint_total. by eapply Hcaps.
Qed.

Lemma xi_loop_raise_kind (ks : list (edge * nat)) (st : xi_table * G) (ex : exn) :
  (∀ k, k ∈ ks → k.1 ∈ dict_keys (edges c)) →
  xi_loop c ks st = Raise ex → ex = ValueError.
Proof.
  revert st. induction ks as [|k ks IH]; intros st Hks; simpl; [done|].
  unfold xi_step at 1.
  destruct (xi_value c k.1 st.2) as [[v g']|e] eqn:Hv; simpl.
  - apply IH. intros k' Hk'. apply Hks. by right.
  - intros [= <-].
    assert (k.1 ∈ dict_keys (edges c)) as [cap Hcap]%dict_get_keys
      by (apply Hks; by left).
    destruct (decide (k.1 = (source c, sink c))) as [Heq|Hne].
    + rewrite Heq, xi_value_exempt in Hv. rewrite Heq in Hcap.
      by rewrite Hcap in Hv.
    + rewrite xi_value_other, Hcap in Hv by done. simpl in Hv.
      destruct (decide (0 ≤ cap)) as [Hpos|Hneg].
      * destruct (randint_total 0 cap st.2 Hpos) as (v & g' & Hr). congruence.
      * rewrite randint_empty in Hv by lia. congruence.
Qed.
End XiAccepts.

(** X10.  With a generator that keeps the contract of [random.randint], the
    comprehension that fills [xi] has two outcomes: it returns a table when
    there is no scenario or no capacity passed to [randint] is negative, and
    it raises [ValueError] otherwise.  The capacity of the edge
    [(source, sink)] is never passed to [randint]. *)
Theorem gen_xi_outcome {G} `{RandomGenSound G} `{!RandomGenTotal G}
    (c : config) (g : G) :
  ((num_scenarios c = 0%nat ∨ drawn_capacities_nonneg c) ∧
   ∃ xi g', gen_xi c g = Ok (xi, g')) ∨
  ((num_scenarios c ≠ 0%nat ∧
    ∃ e cap, e ≠ (source c, sink c) ∧ dict_get (edges c) e = Ok cap ∧ cap < 0) ∧
   gen_xi c g = Raise ValueError).
Proof.
  destruct (gen_xi c g) as [[xi g']|ex] eqn:Hgen.
  - left. split; [|by exists xi, g'].
    apply (gen_xi_accepts c g). by exists xi, g'.
  - right.
    assert (ex = ValueError) as ->.
    { apply (xi_loop_raise_kind c (xi_keys c) (∅, g)); [|done].
      by intros [e ω] [He _]%elem_of_xi_keys. }
    split; [|done].
    assert (Hno : ¬ (num_scenarios c = 0%nat ∨ drawn_capacities_nonneg c)).
    { intros (xi & g' & Hgen')%(gen_xi_accepts c g). congruence. }
    split; [intros HS; apply Hno; by left|].
    (* some key of the dict has a negative capacity *)
    destruct (Forall_Exists_dec
                (λ e : edge, e ≠ (source c, sink c) →
                             ∀ cap, dict_get (edges c) e = Ok cap → 0 ≤ cap)
                (λ e : edge, e ≠ (source c, sink c) ∧
                             ∃ cap, dict_get (edges c) e = Ok cap ∧ cap < 0))
             with (l := dict_keys (edges c)) as [Hall|Hex].
    + intros e. destruct (decide (e = (source c, sink c))) as [->|Hne];
        [by left|].
      destruct (dict_get (edges c) e) as [cap|ex] eqn:Hcap; [|by left].
      destruct (decide (0 ≤ cap)) as [Hpos|Hneg].
      * left. by intros _ cap' [= <-].
      * right. split; [done|]. exists cap. split; [done|lia].
    + exfalso. apply Hno. right. intros e cap Hne Hcap.
      rewrite Forall_forall in Hall. apply (Hall e); [|done|done].
      apply dict_get_keys. by exists cap.
    + apply Exists_exists in Hex as (e & _ & Hne & cap & Hcap & Hneg).
      by exists e, cap.
Qed.


(** X12.  Without scenarios the cells stop with [ZeroDivisionError], whatever
    the rest of the configuration and whatever the generator: nothing is
    drawn, the core model is built with no rows, and the first division by
    [num_scenarios] fails. *)
Theorem no_scenarios_ZeroDivisionError {G} `{RandomGen G} (c : config) (g : G) :
  num_scenarios c = 0%nat →
  gen_xi c g = Ok (∅, g) ∧ assemble c g = Raise ZeroDivisionError.
Proof.
  intros HS.
  assert (Hgen : gen_xi c g = Ok (∅, g)).
  { unfold gen_xi, xi_keys. rewrite HS. change (range 0) with (@nil nat).
    by rewrite list_prod_nil_r. }
  split; [done|]. unfold assemble. rewrite Hgen. ok_step.
  assert (HQ : Qis_zero (num_scenarios_Q c) = true).
  { unfold num_scenarios_Q. by rewrite HS. }
  assert (Hcore : ∃ m1, core_model c ∅ = Ok m1).
  { unfold core_model. cbv zeta.
    change (m_scenarios (core_components c ∅)) with (range (num_scenarios c)).
    rewrite HS. change (range 0) with (@nil nat). rewrite !list_prod_nil_r.
    rewrite !PyomoConstraint_nil. do 3 ok_step.
    unfold obj_min_budget. rewrite mapM_get_var_declared; [by eexists|].
    intros e He. by apply core_components_declared_x. }
  destruct Hcore as [m1 H1]. unfold build_model. rewrite H1. ok_step.
  destruct (core_model_sets _ _ _ H1) as (_ & S1 & _).
  rewrite HS in S1.
  assert (Htype2 : ∀ m', m_scenarios m' = [] →
            type2_cell c m' = Raise ZeroDivisionError).
  { intros m' HΩ. unfold type2_cell, PyomoConstraint, con_type2_service_level.
    simpl. rewrite HΩ. simpl. unfold py_div. by rewrite HQ. }
  change (range 0) with (@nil nat) in S1.
  assert (Htype1 : ∀ m' i, m_scenarios m' = [] →
            con_type1_service_level c m' i = Raise ZeroDivisionError).
  { intros m' i HΩ. unfold con_type1_service_level. rewrite HΩ. simpl.
    unfold py_div. by rewrite HQ. }
  unfold type1_cell. cbv zeta.
  set (m2 := add_vars _ (set_type1_con_set _ m1)).
  assert (S2 : m_scenarios m2 = []) by exact S1.
  rewrite S2. cbn [list_prod]. rewrite PyomoConstraint_nil. ok_step.
  change (m_type1_con_set m2) with (range (length (perf_thresholds c))).
  destruct (perf_thresholds c) as [|b bs] eqn:Hperf.
  - cbn [length range seq]. rewrite PyomoConstraint_nil. do 2 ok_step.
    by rewrite Htype2.
  - cbn [length range seq].
    by rewrite (PyomoConstraint_head_Raise _ _ _ _ _ (Htype1 m2 0%nat S2)).
Qed.

(** X13.  The exemption as the comprehension tests it: when
    [(source, sink)] is an edge, its entry of [xi] is the capacity
    [edges[source, sink]] in every scenario, whatever the generator
    returns. *)
Theorem xi_source_sink_edge_is_capacity {G} `{RandomGen G} (c : config)
    (g g' : G) (tbl : xi_table) (cap : Z) (ω : nat) :
  gen_xi c g = Ok (tbl, g') →
  dict_get (edges c) (source c, sink c) = Ok cap →
  (ω < num_scenarios c)%nat →
  tbl !! ((source c, sink c), ω) = Some cap.
Proof.
  intros Hgen Hcap Hω.
  destruct (gen_xi_lookup c g g' tbl Hgen ((source c, sink c), ω)) as [Hin _].
  destruct Hin as (v & Hv & g0 & g1 & Hdrawn).
  { apply elem_of_xi_keys. split; [|done]. apply dict_get_keys. by exists cap. }
  simpl in Hdrawn. rewrite xi_value_exempt, Hcap in Hdrawn.
  injection Hdrawn as <- _. exact Hv.
Qed.

(** ** The guarantees at the notebook's own data *)

Lemma type1_rows_bound_served_witness :
  ((1 # 2) * num_scenarios_Q notebook
   <= inject_Z (Z.of_nat (length (served notebook notebook_point 20))))%Q.
Proof.
  destruct notebook_run as (xi & _ & _ & _ & _ & m & _ & _ & _ & _ & _ & Hm & Hfeas).
  exact (type1_rows_bound_served notebook xi m notebook_point 0 (1 # 2) 20
           Hm Hfeas eq_refl eq_refl).
Defined.

Lemma type1_alpha_at_most_one_witness :
  alpha_thresholds notebook !! 1%nat = Some (3 # 4)%Q ∧ ((3 # 4) <= 1)%Q.
Proof.
  destruct notebook_run as (xi & _ & _ & _ & _ & m & _ & _ & _ & _ & _ & Hm & Hfeas).
  split; [reflexivity|].
  apply (type1_alpha_at_most_one notebook xi m notebook_point 1 (3 # 4) Hm Hfeas).
  - simpl. lia.
  - reflexivity.
Defined.

Lemma type2_row_bounds_mean_loss_witness :
  ∃ xi m, build_model notebook xi = Ok m ∧
    (mean (losses m notebook_point) <= 23 * (1 - (3 # 4)))%Q.
Proof.
  destruct notebook_run as (xi & _ & _ & _ & _ & m & _ & _ & _ & _ & _ & Hm & Hfeas).
  exists xi, m. split; [exact Hm|].
  apply (type2_row_bounds_mean_loss notebook xi m notebook_point Hm Hfeas).
  reflexivity.
Defined.

Lemma cvar_rows_bound_tail_mean_witness :
  (mean (loss notebook notebook_point <$> seq 40 60) <= 4)%Q.
Proof.
  destruct notebook_run as (xi & _ & _ & _ & _ & m & _ & _ & _ & _ & _ & Hm & Hfeas).
  apply (cvar_rows_bound_tail_mean notebook xi m notebook_point 0 (1 # 2) 4
           (seq 40 60) Hm Hfeas).
  - reflexivity.
  - reflexivity.
  - reflexivity.
  - apply NoDup_ListNoDup, List.seq_NoDup.
  - intros ω Hω%list_elem_of_In%List.in_seq. simpl. lia.
  - vm_compute. discriminate.
Defined.

Lemma cvar_rows_bound_exceedances_witness :
  (inject_Z (Z.of_nat (length (exceeding notebook notebook_point (15 # 2))))
   < (1 # 10) * num_scenarios_Q notebook)%Q.
Proof.
  destruct notebook_run as (xi & _ & _ & _ & _ & m & _ & _ & _ & _ & _ & Hm & Hfeas).
  apply (cvar_rows_bound_exceedances notebook xi m notebook_point 1 (1 # 10)
           (15 # 2) Hm Hfeas).
  - reflexivity.
  - reflexivity.
  - reflexivity.
Defined.

Lemma return_flow_within_sink_capacity_witness :
  (return_flow notebook notebook_point 7 <= capacity_into notebook 5)%Q.
Proof.
  destruct notebook_run as (xi & _ & _ & _ & _ & m & _ & _ & _ & _ & _ & Hm & Hfeas).
  apply (return_flow_within_sink_capacity notebook xi m notebook_point 7 Hm Hfeas).
  - apply (bool_decide_unpack _). reflexivity.
  - simpl. lia.
Defined.


Lemma second_phase_feasible_set_witness :
  ∃ xi m m2, build_model notebook xi = Ok m ∧
    second_phase notebook notebook_point m = Ok m2 ∧
    feasible m2 notebook_point.
Proof.
  destruct notebook_run as (xi & _ & _ & _ & _ & m & _ & _ & _ & _ & _ & Hm & Hfeas).
  destruct (second_phase_is_Ok notebook xi m notebook_point Hm)
    as (m2 & o & Hphase & _).
  exists xi, m, m2. split; [exact Hm|]. split; [exact Hphase|].
  apply (second_phase_feasible_set notebook notebook_point notebook_point m m2 Hphase).
  split; [exact Hfeas|]. intros e _. reflexivity.
Defined.

Lemma budget_objective_nonneg_witness :
  ∃ xi m o, build_model notebook xi = Ok m ∧
    m_objectives m = [ {| o_name := ObjMinBudget; o_sense := minimize;
                          o_expr := o; o_active := true |} ] ∧
    (0 <= eval notebook_point o)%Q.
Proof.
  destruct notebook_run as (xi & _ & _ & _ & _ & m & _ & _ & _ & _ & _ & Hm & Hfeas).
  destruct (budget_objective_nonneg notebook xi m Hm) as (o & Hobj & _ & Hnonneg).
  exists xi, m, o. split; [exact Hm|]. split; [exact Hobj|].
  exact (Hnonneg notebook_point Hfeas).
Defined.

Lemma max_flow_objective_bounds_witness :
  ∃ xi m m2 o, build_model notebook xi = Ok m ∧
    second_phase notebook notebook_point m = Ok m2 ∧
    active_objectives m2
    = [ {| o_name := ObjMaxFlow; o_sense := maximize;
           o_expr := o; o_active := true |} ] ∧
    (23 * (3 # 4) <= eval notebook_point o)%Q ∧
    (eval notebook_point o <= 99)%Q.
Proof.
  destruct notebook_run as (xi & _ & _ & _ & _ & m & _ & _ & _ & _ & _ & Hm & Hfeas).
  destruct (second_phase_is_Ok notebook xi m notebook_point Hm)
    as (m2 & o' & Hphase & _).
  assert (Hfeas2 : feasible m2 notebook_point).
  { destruct (second_phase_Ok _ _ _ _ Hphase) as (HV & HC & HF & _).
    destruct Hfeas as (Hdom & Hsat & Hfix). unfold feasible.
    rewrite HV, HC, HF. split; [exact Hdom|]. split; [exact Hsat|].
    intros v q [Hvq|(e & [= -> ->] & He)%list_elem_of_fmap]%elem_of_app.
    - by apply Hfix.
    - reflexivity. }
  destruct (max_flow_objective_bounds notebook xi m m2 notebook_point notebook_point
              Hm Hphase Hfeas2) as (o & Hobj & Hlo & Hhi).
  exists xi, m, m2, o. split; [exact Hm|]. split; [exact Hphase|].
  split; [exact Hobj|]. split; [exact Hlo|exact Hhi].
Defined.

Lemma gen_xi_outcome_witness :
  gen_xi (with_edges [((0, 1), -1)] notebook) (0 : Z) = Raise ValueError.
Proof.
  destruct (gen_xi_outcome (with_edges [((0, 1), -1)] notebook) (0 : Z))
    as [[[HS|Hcaps] _]|[_ Hraise]].
  - discriminate HS.
  - specialize (Hcaps (0, 1) (-1)). simpl in Hcaps.
    assert (0 ≤ -1) as Hle by (apply Hcaps; [discriminate|reflexivity]). lia.
  - exact Hraise.
Defined.


Lemma no_scenarios_ZeroDivisionError_witness :
  assemble (with_num_scenarios 0 notebook) notebook_seed = Raise ZeroDivisionError.
Proof.
  exact (proj2 (no_scenarios_ZeroDivisionError (with_num_scenarios 0 notebook)
                  notebook_seed eq_refl)).
Defined.

Lemma xi_source_sink_edge_is_capacity_witness :
  ∃ tbl g', gen_xi (with_source_sink 5 0 notebook) (0 : Z) = Ok (tbl, g') ∧
    tbl !! ((5, 0), 7%nat) = Some 99.
Proof.
  destruct (proj2 (gen_xi_accepts (with_source_sink 5 0 notebook) (0 : Z)))
    as (tbl & g' & Hgen).
  { right. intros e cap _. apply notebook_capacity_nonneg. }
  exists tbl, g'. split; [exact Hgen|].
  apply (xi_source_sink_edge_is_capacity (with_source_sink 5 0 notebook)
           (0 : Z) g' tbl 99 7 Hgen).
  - reflexivity.
  - simpl. lia.
Defined.

(** * The risk cells on a model that has the return flow *)

Lemma core_model_has_return_flow (c : config) (xi : xi_table) (m : model) :
  core_model c xi = Ok m →
  num_scenarios c ≠ 0%nat →
  (sink c, source c) ∈ dict_keys (edges c) →
  has_return_flow m.
Proof.
  intros H1 HS Hts.
  destruct (core_model_sets _ _ _ H1) as (_ & S1 & s1 & t1 & _).
  split.
  - rewrite S1. unfold range. by destruct (num_scenarios c).
  - intros ω Hω. rewrite t1, s1. rewrite S1 in Hω.
    apply declared_elem_of. exists NonNegativeReals.
    rewrite (core_model_vars _ _ _ H1). apply elem_of_app. right.
    apply list_elem_of_fmap. exists ((sink c, source c), ω).
    split; [done|]. by apply elem_of_list_prod.
Qed.

Lemma type1_cell_has_return_flow (c : config) (m m' : model) :
  type1_cell c m = Ok m' → has_return_flow m → has_return_flow m'.
Proof.
  intros H2 [HΩ Hdecl].
  destruct (type1_cell_sets _ _ _ H2) as (_ & S2 & s2 & t2 & _ & _ & vs & _ & V2 & _).
  split; [by rewrite S2|].
  intros ω Hω. rewrite t2, s2. rewrite S2 in Hω.
  apply (declared_mono m); [|by apply Hdecl].
  intros vd Hvd. rewrite V2. apply elem_of_app. by left.
Qed.

Lemma type2_cell_has_return_flow (c : config) (m m' : model) :
  type2_cell c m = Ok m' → has_return_flow m → has_return_flow m'.
Proof.
  intros H3 [HΩ Hdecl].
  destruct (type2_cell_sets _ _ _ H3) as (_ & S3 & s3 & t3 & _ & _ & vs & _ & V3 & _).
  split; [by rewrite S3|].
  intros ω Hω. rewrite t3, s3. rewrite S3 in Hω.
  apply (declared_mono m); [|by apply Hdecl].
  intros vd Hvd. rewrite V3. apply elem_of_app. by left.
Qed.

(** C3: on a model that has the return flow, with bounds [b_i] that are not
    zero and an [α_i] for each of them, the Type-I cell returns.  Whenever it
    returns, it has declared one binary indicator per scenario and threshold
    and added, after the constraints already in the model, exactly the rows
    [indicator[ω, i] <= y[t, s, ω] / b_i] (one per scenario and threshold)
    followed by the rows [sum_ω indicator[ω, i] / num_scenarios >= α_i] (one
    per threshold); nothing else in the model has changed. *)
Theorem type1_cell_adds (c : config) (m : model) :
  (has_return_flow m →
   ¬ (num_scenarios_Q c == 0)%Q →
   (∀ i b, perf_thresholds c !! i = Some b → ¬ (b == 0)%Q) →
   (length (perf_thresholds c) ≤ length (alpha_thresholds c))%nat →
   ∃ m', type1_cell c m = Ok m') ∧
  ∀ m', type1_cell c m = Ok m' →
    let Ω := m_scenarios m in
    let con_set := range (length (perf_thresholds c)) in
    m_vars m' = m_vars m
                ++ ((λ k, (Vindicator k.1 k.2, Binary)) <$> list_prod Ω con_set) ∧
    m_fixed m' = m_fixed m ∧ m_objectives m' = m_objectives m ∧
    ∃ cs1 cs2,
      m_constraints m' = m_constraints m ++ cs1 ++ cs2 ∧
      Forall2 (λ k kc, ∃ b, perf_thresholds c !! k.2 = Some b ∧
                 kc = (ConIndicator k.1 k.2,
                       Constr (EVar (Vindicator k.1 k.2)) Rle
                              (Div (EVar (Vy (m_t m, m_s m) k.1)) b)))
              (list_prod Ω con_set) cs1 ∧
      Forall2 (λ i kc, ∃ a lhs, alpha_thresholds c !! i = Some a ∧
                 kc = (ConType1ServiceLevel i, Constr lhs Rge (Num a)) ∧
                 ∀ σ, (eval σ lhs ==
                       Qsum ((λ ω, σ (Vindicator ω i)) <$> Ω) / num_scenarios_Q c)%Q)
              con_set cs2.
Proof.
  split.
  - intros [HΩ Hdecl] HS Hperf Hlen. by apply type1_cell_is_Ok.
  - intros m' (cs1 & cs2 & -> & H1 & H2)%type1_cell_Ok Ω con_set. simpl.
    split; [done|]. split; [done|]. split; [done|].
    exists cs1, cs2. split; [done|]. split.
    + eapply Forall2_impl; [exact H1|]. clear. intros [ω i] kc (r & Hr & ->).
      apply con_indicator_Ok in Hr as (b & Hb & _ & _ & [= ->]).
      by exists b.
    + eapply Forall2_impl; [exact H2|]. clear. intros i kc (r & Hr & ->).
      apply con_type1_service_level_Ok in Hr as (a & lhs & Ha & Hr & _ & Hlhs).
      symmetry in Hr. apply py_rel_Relational in Hr as ->.
      by exists a, lhs.
Qed.

(** C9: on a model that has the return flow the Type-II cell returns.
    Whenever it returns, it has declared no variable and added exactly one
    constraint,
    [sum_ω y[t, s, ω] / num_scenarios >= perf_target * beta_threshold]. *)
Theorem type2_cell_adds (c : config) (m : model) :
  (has_return_flow m → ¬ (num_scenarios_Q c == 0)%Q →
   ∃ m', type2_cell c m = Ok m') ∧
  ∀ m', type2_cell c m = Ok m' →
    m_vars m' = m_vars m ∧
    m_fixed m' = m_fixed m ∧ m_objectives m' = m_objectives m ∧
    ∃ lhs,
      m_constraints m' =
        m_constraints m ++
        [(ConType2ServiceLevel,
          Constr lhs Rge (Num (perf_target c * beta_threshold c)))] ∧
      ∀ σ, (eval σ lhs ==
            Qsum ((λ ω, σ (Vy (m_t m, m_s m) ω)) <$> m_scenarios m)
            / num_scenarios_Q c)%Q.
Proof.
  split.
  - intros [HΩ Hdecl] HS. by apply type2_cell_is_Ok.
  - intros m' (k & Hk & ->)%type2_cell_Ok. simpl.
    split; [done|]. split; [done|]. split; [done|].
    apply con_type2_service_level_Ok in Hk as (lhs & Hk & _ & _ & Hlhs).
    symmetry in Hk. apply py_rel_Relational in Hk as ->.
    by exists lhs.
Qed.

(** C5: on a model that has the return flow, with tail probabilities [ε_i]
    that are not zero, one for each ceiling [ζ_i], the CVaR cell returns.
    Whenever it returns, it has declared a free [cvar_beta[i]] per constraint
    and a non-negative [cvar_nu[ω, i]] per scenario and constraint, and added,
    after the constraints already in the model, exactly one row
    [cvar_beta[i] + sum_ω cvar_nu[ω, i] / (num_scenarios * ε_i) <= ζ_i] per
    constraint followed by the rows
    [cvar_nu[ω, i] >= (perf_target - y[t, s, ω]) - cvar_beta[i]].  With the
    single scenario 0 the first row reads
    [cvar_beta[i] + cvar_nu[0, i] / ε_i <= ζ_i]. *)
Theorem cvar_cell_adds (c : config) (m : model) :
  (has_return_flow m →
   ¬ (num_scenarios_Q c == 0)%Q →
   (∀ i ε, (i < length (cvar_thresholds c))%nat →
           cvar_epsilons c !! i = Some ε → ¬ (ε == 0)%Q) →
   (length (cvar_thresholds c) ≤ length (cvar_epsilons c))%nat →
   ∃ m', cvar_cell c m = Ok m') ∧
  ∀ m', cvar_cell c m = Ok m' →
    let Ω := m_scenarios m in
    let con_set := range (length (cvar_thresholds c)) in
    m_vars m' = m_vars m
                ++ ((λ i, (Vcvar_beta i, Reals)) <$> con_set)
                ++ ((λ k, (Vcvar_nu k.1 k.2, NonNegativeReals))
                    <$> list_prod Ω con_set) ∧
    m_fixed m' = m_fixed m ∧ m_objectives m' = m_objectives m ∧
    ∃ cs1 cs2,
      m_constraints m' = m_constraints m ++ cs1 ++ cs2 ∧
      Forall2 (λ i kc, ∃ ε ζ k,
                 cvar_epsilons c !! i = Some ε ∧ cvar_thresholds c !! i = Some ζ ∧
                 kc = (ConCvarMain i, k) ∧
                 (∀ σ, sat σ k ↔
                       (σ (Vcvar_beta i)
                        + Qsum ((λ ω, σ (Vcvar_nu ω i)) <$> Ω)
                          / (num_scenarios_Q c * ε) <= ζ)%Q) ∧
                 (num_scenarios c = 1%nat → Ω = [0%nat] →
                  ∀ σ, sat σ k ↔
                       (σ (Vcvar_beta i) + σ (Vcvar_nu 0 i) / ε <= ζ)%Q))
              con_set cs1 ∧
      Forall2 (λ k kc,
                 kc = (ConCvarAux k.1 k.2,
                       Constr (EVar (Vcvar_nu k.1 k.2)) Rge
                              (Sub (Sub (Num (perf_target c))
                                        (EVar (Vy (m_t m, m_s m) k.1)))
                                   (EVar (Vcvar_beta k.2)))))
              (list_prod Ω con_set) cs2.
Proof.
  split.
  - intros [HΩ Hdecl] HS Heps Hlen. by apply cvar_cell_is_Ok.
  - intros m' (cs1 & cs2 & -> & H1 & H2)%cvar_cell_Ok Ω con_set. simpl.
    split; [reflexivity|]. split; [done|]. split; [done|].
    exists cs1, cs2. split; [done|]. split.
    + eapply Forall2_impl; [exact H1|]. clear. intros i kc (r & Hr & ->).
      apply con_cvar_main_Ok in Hr as (ε & ζ & q & Hε & Hζ & _ & [= ->] & Hq).
      eexists ε, ζ, _. split; [done|]. split; [done|]. split; [reflexivity|].
      simpl in Hq. fold Ω in Hq.
      assert (Hsat : ∀ σ, sat σ (Constr (Add (EVar (Vcvar_beta i)) q) Rle (Num ζ)) ↔
                       (σ (Vcvar_beta i)
                        + Qsum ((λ ω, σ (Vcvar_nu ω i)) <$> Ω)
                          / (num_scenarios_Q c * ε) <= ζ)%Q).
      { intros σ. unfold sat. simpl. by rewrite Hq. }
      split; [done|]. intros HS HΩ σ. rewrite Hsat, HΩ.
      unfold num_scenarios_Q. rewrite HS.
      rewrite fmap_cons, fmap_nil, Qsum_cons, Qsum_nil.
      change (inject_Z (Z.of_nat 1)) with 1%Q. by rewrite Qdiv_single.
    + eapply Forall2_impl; [exact H2|]. clear. intros [ω i] kc (r & Hr & ->).
      apply con_cvar_aux_Ok in Hr as [= ->]. done.
Qed.

(** ** The risk cells at the notebook's own data *)

Lemma notebook_has_return_flow (xi : xi_table) (m1 : model) :
  core_model notebook xi = Ok m1 → has_return_flow m1.
Proof.
  intros H1. apply (core_model_has_return_flow notebook xi m1 H1).
  - discriminate.
  - apply (bool_decide_unpack _). reflexivity.
Qed.

Lemma notebook_num_scenarios_Q : ¬ (num_scenarios_Q notebook == 0)%Q.
Proof. discriminate. Qed.

Lemma type1_cell_adds_witness :
  ∃ xi m1 m2 m,
    core_model notebook xi = Ok m1 ∧ type1_cell notebook m1 = Ok m2 ∧
    build_model notebook xi = Ok m ∧
    (Vindicator 7 0, Binary) ∈ m_vars m ∧
    (ConIndicator 7 0,
     Constr (EVar (Vindicator 7 0)) Rle (Div (EVar (Vy (5, 0) 7)) 20))
      ∈ m_constraints m ∧
    ∃ lhs, (ConType1ServiceLevel 0, Constr lhs Rge (Num (1 # 2)))
             ∈ m_constraints m ∧
           ∀ σ, (eval σ lhs ==
                 Qsum ((λ ω, σ (Vindicator ω 0)) <$> range 100)
                 / num_scenarios_Q notebook)%Q.
Proof.
  destruct notebook_run as (xi & _ & m1 & _ & _ & m & _ & H1 & _ & _ & _ & Hm & _).
  destruct (type1_cell_adds notebook m1) as [Hreturns Hadds].
  destruct Hreturns as [m2 H2].
  { exact (notebook_has_return_flow xi m1 H1). }
  { exact notebook_num_scenarios_Q. }
  { intros i b Hb%list_elem_of_lookup_2 Hz. simpl in Hb.
    rewrite !elem_of_cons, elem_of_nil in Hb.
    destruct Hb as [->|[->|[->|[]]]]; discriminate Hz. }
  { simpl. lia. }
  exists xi, m1, m2, m. split; [exact H1|]. split; [exact H2|]. split; [exact Hm|].
  destruct (Hadds m2 H2) as (Hvars & _ & _ & cs1 & cs2 & Hcons & Hcs1 & Hcs2).
  destruct (core_model_sets _ _ _ H1) as (_ & S1 & s1 & t1 & _).
  destruct (build_model_layout _ _ _ Hm)
    as (m1' & m2' & _ & H1' & H2' & _ & _ & _ & _ & _ & _ & _ & _ & _ & Hv2 & _ & Hc2 & _).
  assert (m1' = m1) as -> by congruence.
  assert (m2' = m2) as -> by congruence.
  rewrite S1, t1, s1 in *.
  split; [|split].
  - apply Hv2. rewrite Hvars. apply elem_of_app. right.
    apply list_elem_of_fmap. exists (7%nat, 0%nat). split; [reflexivity|].
    apply elem_of_list_prod. split; apply elem_of_range; simpl; lia.
  - destruct (Forall2_elem_of_l _ _ _ (7%nat, 0%nat) Hcs1) as (kc & Hkc & b & Hb & ->).
    { apply elem_of_list_prod. split; apply elem_of_range; simpl; lia. }
    injection Hb as <-. apply Hc2. rewrite Hcons, !elem_of_app. right. by left.
  - destruct (Forall2_elem_of_l _ _ _ 0%nat Hcs2) as (kc & Hkc & a & lhs & Ha & -> & Hlhs).
    { apply elem_of_range. simpl. lia. }
    injection Ha as <-. exists lhs. split; [|exact Hlhs].
    apply Hc2. rewrite Hcons, !elem_of_app. right. by right.
Defined.

Lemma type2_cell_adds_witness :
  ∃ xi m1 m2 m3 lhs,
    core_model notebook xi = Ok m1 ∧ type1_cell notebook m1 = Ok m2 ∧
    type2_cell notebook m2 = Ok m3 ∧
    m_vars m3 = m_vars m2 ∧
    m_constraints m3
    = m_constraints m2
      ++ [(ConType2ServiceLevel, Constr lhs Rge (Num (23 * (3 # 4))))] ∧
    ∀ σ, (eval σ lhs ==
          Qsum ((λ ω, σ (Vy (5, 0)%Z ω)) <$> range 100)
          / num_scenarios_Q notebook)%Q.
Proof.
  destruct notebook_run as (xi & _ & m1 & m2 & _ & _ & _ & H1 & H2 & _).
  destruct (type2_cell_adds notebook m2) as [Hreturns Hadds].
  destruct Hreturns as [m3 H3].
  { apply (type1_cell_has_return_flow notebook m1 m2 H2).
    exact (notebook_has_return_flow xi m1 H1). }
  { exact notebook_num_scenarios_Q. }
  destruct (Hadds m3 H3) as (Hvars & _ & _ & lhs & Hcons & Hlhs).
  destruct (core_model_sets _ _ _ H1) as (_ & S1 & s1 & t1 & _).
  destruct (type1_cell_sets _ _ _ H2) as (_ & S2 & s2 & t2 & _).
  rewrite S2, t2, s2, S1, t1, s1 in Hlhs.
  exists xi, m1, m2, m3, lhs. split; [exact H1|]. split; [exact H2|].
  split; [exact H3|]. split; [exact Hvars|]. split; [exact Hcons|exact Hlhs].
Defined.

(** With one scenario and seed 0 the cells assemble the model, and the flow
    of value 23 is a feasible point of it. *)
Lemma notebook_single_run :
  ∃ xi g' m1 m2 m3 m,
    gen_xi notebook_single notebook_seed = Ok (xi, g') ∧
    core_model notebook_single xi = Ok m1 ∧ type1_cell notebook_single m1 = Ok m2 ∧
    type2_cell notebook_single m2 = Ok m3 ∧ cvar_cell notebook_single m3 = Ok m ∧
    build_model notebook_single xi = Ok m ∧
    feasible m notebook_point.
Proof. apply checked_run. vm_compute. reflexivity. Qed.

Lemma cvar_cell_adds_witness :
  ∃ xi m3 m k,
    build_model notebook_single xi = Ok m ∧ cvar_cell notebook_single m3 = Ok m ∧
    (Vcvar_beta 0, Reals) ∈ m_vars m ∧
    (Vcvar_nu 0 0, NonNegativeReals) ∈ m_vars m ∧
    (ConCvarMain 0, k) ∈ m_constraints m ∧
    (∀ σ, sat σ k ↔ (σ (Vcvar_beta 0) + σ (Vcvar_nu 0 0) / (1 # 2) <= 4)%Q) ∧
    (ConCvarAux 0 0,
     Constr (EVar (Vcvar_nu 0 0)) Rge
            (Sub (Sub (Num 23) (EVar (Vy (5, 0) 0))) (EVar (Vcvar_beta 0))))
      ∈ m_constraints m.
Proof.
  destruct notebook_single_run
    as (xi & _ & m1 & m2 & m3 & m0 & _ & H1 & H2 & H3 & H4 & Hm & _).
  destruct (cvar_cell_adds notebook_single m3) as [Hreturns Hadds].
  destruct Hreturns as [m Hcell].
  { apply (type2_cell_has_return_flow notebook_single m2 m3 H3).
    apply (type1_cell_has_return_flow notebook_single m1 m2 H2).
    apply (core_model_has_return_flow notebook_single xi m1 H1).
    - discriminate.
    - apply (bool_decide_unpack _). reflexivity. }
  { discriminate. }
  { intros i ε _ Hε%list_elem_of_lookup_2 Hz. simpl in Hε.
    rewrite !elem_of_cons, elem_of_nil in Hε.
    destruct Hε as [->|[->|[]]]; discriminate Hz. }
  { simpl. lia. }
  assert (m0 = m) as -> by congruence.
  destruct (Hadds m Hcell) as (Hvars & _ & _ & cs1 & cs2 & Hcons & Hcs1 & Hcs2).
  destruct (core_model_sets _ _ _ H1) as (_ & S1 & s1 & t1 & _).
  destruct (type1_cell_sets _ _ _ H2) as (_ & S2 & s2 & t2 & _).
  destruct (type2_cell_sets _ _ _ H3) as (_ & S3 & s3 & t3 & _).
  rewrite S3, t3, s3, S2, t2, s2, S1, t1, s1 in *.
  destruct (Forall2_elem_of_l _ _ _ 0%nat Hcs1)
    as (kc & Hkc & ε & ζ & k & Hε & Hζ & -> & _ & Hone).
  { apply elem_of_range. simpl. lia. }
  injection Hε as <-. injection Hζ as <-.
  destruct (Forall2_elem_of_l _ _ _ (0%nat, 0%nat) Hcs2) as (kc & Hkc' & ->).
  { apply elem_of_list_prod. split; apply elem_of_range; simpl; lia. }
  exists xi, m3, m, k. split; [exact Hm|]. split; [exact Hcell|].
  split; [|split; [|split; [|split]]].
  - rewrite Hvars, !elem_of_app. right. left.
    apply list_elem_of_fmap. exists 0%nat. split; [reflexivity|].
    apply elem_of_range. simpl. lia.
  - rewrite Hvars, !elem_of_app. right. right.
    apply list_elem_of_fmap. exists (0%nat, 0%nat). split; [reflexivity|].
    apply elem_of_list_prod. split; apply elem_of_range; simpl; lia.
  - rewrite Hcons, !elem_of_app. right. by left.
  - apply Hone; reflexivity.
  - rewrite Hcons, !elem_of_app. right. by right.
Defined.

(** * The scenario table, entry by entry *)

Section XiDrawn.
Context {G : Type} `{RandomGen G}.
Variable c : config.

(** The loop performs the draws one after the other, and a table without
    repeated keys holds the value of each draw under its key. *)
Lemma xi_loop_drawn (ks : list (edge * nat)) (st st' : xi_table * G) :
  xi_loop c ks st = Ok st' →
  ∃ vs, drawn_in_order c ks st.2 vs st'.2 ∧
        (NoDup ks → ∀ n k, ks !! n = Some k → st'.1 !! k = vs !! n).
Proof.
  revert st. induction ks as [|[e ω] ks IH]; intros st; simpl.
  - intros [= <-]. exists []. split; [constructor|]. by intros _ n k.
  - intros (st1 & Hstep & Hloop)%bind_Ok.
    destruct (IH _ Hloop) as (vs & Hvs & Htbl).
    destruct (xi_loop_lookup c ks st1 st' Hloop) as [Hout _].
    unfold xi_step in Hstep. simpl in Hstep.
    apply bind_Ok in Hstep as ([v g1] & Hv & [= <-]). simpl in *.
    exists (v :: vs). split.
    + destruct (decide (e = (source c, sink c))) as [->|Hne].
      * rewrite xi_value_exempt in Hv.
        apply bind_Ok in Hv as (cap & Hcap & [= <- <-]).
        by apply drawn_capacity.
      * rewrite xi_value_other in Hv by done.
        apply bind_Ok in Hv as (cap & Hcap & Hdraw).
        by eapply drawn_randint.
    + intros [Hk Hks]%NoDup_cons [|n] k Hn; simpl in *.
      * injection Hn as <-. rewrite (Hout _ Hk). simpl.
        by rewrite lookup_insert_eq.
      * by apply Htbl.
Qed.

(** The generic comprehension, read with a generator state, is [gen_xi]. *)
Lemma xi_valueM_run (e : edge) (g : G) :
  xi_valueM (M := run G) c e g = xi_value c e g.
Proof.
  unfold xi_valueM, xi_value. case_decide.
  - by destruct (dict_get (edges c) (source c, sink c)).
  - by destruct (dict_get (edges c) e).
Qed.

Lemma xi_loopM_run (ks : list (edge * nat)) (tbl : xi_table) (g : G) :
  xi_loopM (M := run G) c ks tbl g = xi_loop c ks (tbl, g).
Proof.
  revert tbl g. induction ks as [|k ks IH]; intros tbl g; [done|].
  cbn [xi_loopM xi_loop]. unfold xi_step. cbn [rm_bind run_monad fst snd].
  rewrite xi_valueM_run.
  destruct (xi_value c k.1 g) as [[v g1]|ex]; [|done]. simpl. apply IH.
Qed.
End XiDrawn.

(** With a generator that rejects empty ranges, a table is only returned
    when no capacity passed to [randint] is negative. *)
Lemma gen_xi_Ok_capacities {G} `{RandomGenSound G} (c : config) (g g' : G)
    (tbl : xi_table) :
  gen_xi c g = Ok (tbl, g') → num_scenarios c ≠ 0%nat →
  drawn_capacities_nonneg c.
Proof.
  intros Hgen HS e cap Hne Hcap.
  destruct (decide (0 ≤ cap)) as [|Hneg]; [done|].
  destruct (xi_loop_raises c (xi_keys c) (e, 0%nat)) with (st := (∅ : xi_table, g))
    as [ex Hex].
  - apply elem_of_xi_keys. split; [|lia]. apply dict_get_keys. by exists cap.
  - intros g0. simpl. rewrite xi_value_other, Hcap by done. simpl.
    exists ValueError. apply randint_empty. lia.
  - unfold gen_xi in Hgen. congruence.
Qed.

(** ** Probabilities *)

Lemma Qsum_app (l k : list Q) : (Qsum (l ++ k) == Qsum l + Qsum k)%Q.
Proof.
  induction l as [|q l IH].
  - change ([] ++ k) with k. rewrite Qsum_nil. lra.
  - change ((q :: l) ++ k) with (q :: (l ++ k)). rewrite !Qsum_cons, IH. lra.
Qed.

Lemma Pr_app {A} (d d' : dist A) (P : result A → bool) :
  (Pr (d ++ d') P == Pr d P + Pr d' P)%Q.
Proof. unfold Pr. by rewrite fmap_app, Qsum_app. Qed.

Lemma Pr_scale {A} (w : Q) (d : dist A) (P : result A → bool) :
  (Pr ((λ rw, (rw.1, w * rw.2)%Q) <$> d) P == w * Pr d P)%Q.
Proof.
  unfold Pr. induction d as [|[r q] d IH].
  - rewrite !fmap_nil, Qsum_nil. lra.
  - rewrite !fmap_cons, !Qsum_cons, IH. simpl. destruct (P r); lra.
Qed.

Lemma Pr_bind {A B} (d : dist A) (f : A → dist B) (P : result B → bool) :
  (Pr (dist_bind d f) P ==
   Qsum ((λ rw, match rw.1 with
                | Ok a => rw.2 * Pr (f a) P
                | Raise ex => if P (Raise ex) then rw.2 else 0
                end) <$> d))%Q.
Proof.
  unfold dist_bind. induction d as [|[r w] d IH].
  - reflexivity.
  - rewrite bind_cons, Pr_app, IH, fmap_cons, Qsum_cons. simpl.
    apply Qplus_comp; [|reflexivity].
    destruct r as [a|ex].
    + apply Pr_scale.
    + unfold Pr. rewrite fmap_cons, fmap_nil, Qsum_cons, Qsum_nil. simpl. lra.
Qed.

Lemma Pr_bind_ret {A B} (a : A) (f : A → dist B) (P : result B → bool) :
  (Pr (dist_bind [(Ok a, 1%Q)] f) P == Pr (f a) P)%Q.
Proof.
  rewrite Pr_bind, fmap_cons, fmap_nil, Qsum_cons, Qsum_nil. simpl. lra.
Qed.

Lemma Pr_bind_uniform {B} (cap : Z) (f : Z → dist B) (P : result B → bool) :
  0 ≤ cap →
  (Pr (dist_bind (uniform 0 cap) f) P ==
   Qsum ((λ v, 1 / inject_Z (cap + 1) * Pr (f v) P) <$> seqZ 0 (cap + 1)))%Q.
Proof.
  intros Hcap. rewrite Pr_bind. unfold uniform.
  case_decide; [lia|]. rewrite Z.sub_0_r, <- list_fmap_compose.
  apply Qsum_fmap_ext. intros v _. reflexivity.
Qed.

Lemma inject_Z_succ_nonzero (cap : Z) : 0 ≤ cap → ¬ (inject_Z (cap + 1) == 0)%Q.
Proof.
  intros Hcap. change 0%Q with (inject_Z 0). rewrite inject_Z_injective. lia.
Qed.

(** Equal shares of a constant add up to the constant. *)
Lemma Qsum_uniform_const (cap : Z) (p : Q) :
  0 ≤ cap →
  (Qsum ((λ _ : Z, 1 / inject_Z (cap + 1) * p) <$> seqZ 0 (cap + 1)) == p)%Q.
Proof.
  intros Hcap. rewrite Qsum_fmap_const, length_seqZ, Z2Nat.id by lia.
  pose proof (inject_Z_succ_nonzero cap Hcap) as Hn.
  field. exact Hn.
Qed.

(** Only the share of [v] is left when the others are multiplied by zero. *)
Lemma Qsum_pick (q : Q) (v : Z) (l : list Z) :
  NoDup l → v ∈ l →
  (Qsum ((λ v', q * (if bool_decide (v' = v) then 1 else 0)) <$> l) == q)%Q.
Proof.
  induction 1 as [|v0 l Hv0 Hl IH]; [by intros ?%elem_of_nil|].
  rewrite fmap_cons, Qsum_cons. intros [->|Hv]%elem_of_cons.
  - rewrite bool_decide_eq_true_2 by done.
    assert (Qsum ((λ v', q * (if bool_decide (v' = v0) then 1 else 0)) <$> l) == 0)%Q
      as ->; [|lra].
    rewrite (Qsum_fmap_ext _ (λ _, 0%Q)).
    + rewrite Qsum_fmap_const. lra.
    + intros v' Hv'. rewrite bool_decide_eq_false_2; [lra|]. by intros ->.
  - rewrite bool_decide_eq_false_2 by (by intros ->). rewrite IH by done. lra.
Qed.

Section XiUniform.
Variable c : config.

Lemma Pr_xi_valueM_const {B} (e : edge) (cap : Z) (f : Z → dist B)
    (P : result B → bool) (p : Q) :
  dict_get (edges c) e = Ok cap →
  (e ≠ (source c, sink c) → 0 ≤ cap) →
  (∀ v, Pr (f v) P == p)%Q →
  (Pr (dist_bind (xi_valueM (M := dist) c e) f) P == p)%Q.
Proof.
  intros Hcap Hpos Hf. unfold xi_valueM. case_decide as He.
  - subst e. rewrite Hcap. cbn [rm_ret dist_monad]. by rewrite Pr_bind_ret.
  - rewrite Hcap. cbn [rm_randint dist_monad].
    rewrite Pr_bind_uniform by auto.
    rewrite (Qsum_fmap_ext _ (λ _, 1 / inject_Z (cap + 1) * p)%Q).
    + apply Qsum_uniform_const. auto.
    + intros v _. by rewrite Hf.
Qed.

(** The keys that are not iterated keep what the table holds. *)
Lemma Pr_xi_loopM_frame (ks : list (edge * nat)) (tbl : xi_table)
    (k : edge * nat) (v : Z) :
  drawable c ks → k ∉ ks →
  (Pr (xi_loopM (M := dist) c ks tbl) (entry_is k v)
   == if bool_decide (tbl !! k = Some v) then 1 else 0)%Q.
Proof.
  revert tbl. induction ks as [|[e0 ω0] ks IH]; intros tbl Hks Hk.
  - cbn [xi_loopM rm_ret dist_monad]. unfold Pr.
    rewrite fmap_cons, fmap_nil, Qsum_cons, Qsum_nil. simpl.
    destruct (bool_decide (tbl !! k = Some v)); lra.
  - apply not_elem_of_cons in Hk as [Hne Hk].
    destruct (Hks (e0, ω0)) as (cap & Hcap & Hpos); [by left|].
    cbn [xi_loopM rm_bind dist_monad fst snd].
    apply (Pr_xi_valueM_const e0 cap); [done|done|].
    intros v'. rewrite IH; [|intros k' Hk'; apply Hks; by right|done].
    rewrite lookup_insert_ne by done. reflexivity.
Qed.

(** An iterated key of a non-exempt edge holds each value of the range with
    the same probability. *)
Lemma Pr_xi_loopM_entry (ks : list (edge * nat)) (tbl : xi_table)
    (e : edge) (ω : nat) (cap v : Z) :
  drawable c ks → NoDup ks → (e, ω) ∈ ks →
  e ≠ (source c, sink c) → dict_get (edges c) e = Ok cap → 0 ≤ v ≤ cap →
  (Pr (xi_loopM (M := dist) c ks tbl) (entry_is (e, ω) v)
   == 1 / inject_Z (cap + 1))%Q.
Proof.
  intros Hks Hnd Hin Hne Hcap Hv. revert tbl Hks Hnd Hin.
  induction ks as [|[e0 ω0] ks IH]; intros tbl Hks Hnd Hin;
    [by apply elem_of_nil in Hin|].
  apply NoDup_cons in Hnd as [Hk0 Hnd].
  assert (Hks' : drawable c ks) by (intros k' Hk'; apply Hks; by right).
  cbn [xi_loopM rm_bind dist_monad fst snd].
  destruct (decide ((e0, ω0) = (e, ω))) as [[= -> ->]|Hother].
  - unfold xi_valueM. case_decide; [done|]. rewrite Hcap.
    cbn [rm_randint dist_monad]. rewrite Pr_bind_uniform by lia.
    rewrite (Qsum_fmap_ext _
               (λ v', 1 / inject_Z (cap + 1)
                      * (if bool_decide (v' = v) then 1 else 0))%Q).
    + apply Qsum_pick; [apply NoDup_seqZ|]. apply elem_of_seqZ. lia.
    + intros v' _. rewrite Pr_xi_loopM_frame by done.
      rewrite lookup_insert_eq.
      destruct (decide (v' = v)) as [->|Hv'].
      * by rewrite !bool_decide_eq_true_2.
      * rewrite !bool_decide_eq_false_2; [reflexivity|done|congruence].
  - apply elem_of_cons in Hin as [Heq|Hin]; [congruence|].
    destruct (Hks (e0, ω0)) as (cap0 & Hcap0 & Hpos0); [by left|].
    apply (Pr_xi_valueM_const e0 cap0); [done|done|].
    intros v'. by apply IH.
Qed.

(** An iterated key of the pair [(source, sink)] holds its capacity. *)
Lemma Pr_xi_loopM_exempt (ks : list (edge * nat)) (tbl : xi_table)
    (ω : nat) (cap v : Z) :
  drawable c ks → NoDup ks → (source c, sink c, ω) ∈ ks →
  dict_get (edges c) (source c, sink c) = Ok cap →
  (Pr (xi_loopM (M := dist) c ks tbl) (entry_is (source c, sink c, ω) v)
   == if bool_decide (v = cap) then 1 else 0)%Q.
Proof.
  intros Hks Hnd Hin Hcap. revert tbl Hks Hnd Hin.
  induction ks as [|[e0 ω0] ks IH]; intros tbl Hks Hnd Hin;
    [by apply elem_of_nil in Hin|].
  apply NoDup_cons in Hnd as [Hk0 Hnd].
  assert (Hks' : drawable c ks) by (intros k' Hk'; apply Hks; by right).
  cbn [xi_loopM rm_bind dist_monad fst snd].
  destruct (decide ((e0, ω0) = (source c, sink c, ω))) as [[= -> ->]|Hother].
  - unfold xi_valueM. rewrite decide_True by done. rewrite Hcap.
    cbn [rm_ret dist_monad]. rewrite Pr_bind_ret, Pr_xi_loopM_frame by done.
    rewrite lookup_insert_eq.
    destruct (decide (v = cap)) as [->|Hv].
    + by rewrite !bool_decide_eq_true_2.
    + rewrite !bool_decide_eq_false_2; [reflexivity|done|congruence].
  - apply elem_of_cons in Hin as [Heq|Hin]; [congruence|].
    destruct (Hks (e0, ω0)) as (cap0 & Hcap0 & Hpos0); [by left|].
    apply (Pr_xi_valueM_const e0 cap0); [done|done|].
    intros v'. by apply IH.
Qed.
End XiUniform.

Lemma drawn_in_order_randint_inv {G} `{RandomGen G} (c : config) (e : edge)
    (ω : nat) (ks : list (edge * nat)) (g g' : G) (vs : list Z) (cap : Z) :
  drawn_in_order c ((e, ω) :: ks) g vs g' →
  e ≠ (source c, sink c) → dict_get (edges c) e = Ok cap →
  ∃ v g1 vs', vs = v :: vs' ∧ randint 0 cap g = Ok (v, g1) ∧
              drawn_in_order c ks g1 vs' g'.
Proof.
  intros Hdrawn Hne Hcap. inversion Hdrawn as [|e' ω' ks' cap' g0 v g1 vs' g0' _ Hcap' Hdraw Hrest|]; subst.
  - assert (cap' = cap) as -> by congruence. by exists v, g1, vs'.
  - done.
Qed.

(** A table computed for an edge [(source, sink)] of negative capacity is
    outside the bounds. *)
Lemma exempt_entry_breaks_bound {G} `{RandomGen G} (c : config) (g : G) (cap : Z) :
  is_Ok (gen_xi c g) = true →
  dict_get (edges c) (source c, sink c) = Ok cap →
  cap < 0 → num_scenarios c ≠ 0%nat →
  ∃ tbl g', gen_xi c g = Ok (tbl, g') ∧ ¬ xi_within_bounds c tbl.
Proof.
  intros [[tbl g'] Hgen]%is_Ok_true Hcap Hneg HS.
  exists tbl, g'. split; [done|]. intros Hbounds.
  destruct (Hbounds (source c, sink c) cap 0%nat Hcap) as (v & Hv & Hrange); [lia|].
  destruct (gen_xi_lookup c g g' tbl Hgen (source c, sink c, 0%nat)) as [Hin _].
  destruct Hin as (v' & Hv' & g0 & g1 & Hdrawn).
  { apply elem_of_xi_keys. split; [|lia]. apply dict_get_keys. by exists cap. }
  simpl in Hdrawn. rewrite xi_value_exempt, Hcap in Hdrawn.
  injection Hdrawn as <- _. assert (v = cap) by congruence. lia.
Qed.


(** ** The table at the notebook's own data *)


